(** * head1d: Crank-Nicolson integration of 1D heat conduction

    A shallow embedding of [src/main.cpp].  The program is one [main]
    function; the embedding follows its blocks in source order (option
    parsing, grid, stability check, initial conditions, finite difference
    matrices, Crank-Nicolson matrices, LU factorization, time stepping,
    output) and keeps the names of its variables.

    The program computes in [double].  The embedding is written once over
    an interface [Scalar] of the operations the program applies to doubles
    and is instantiated twice: at IEEE binary64 (Rocq's primitive floats),
    which is the program, and at the rationals [Qc], the same statements
    in exact arithmetic, kept as a reference.  Structural properties are
    proved for every [Scalar].  What a run computes is settled on
    binary64: in general where the rounding can be followed (zeros, the
    step count, the hot band), by evaluation over explicit ranges of
    cell counts and parameters elsewhere.  What the linear solves return
    when nothing is rounded is proved for the reference. *)

From Stdlib Require Import ZArith List Bool Lia String.
From Stdlib Require Import QArith Qcanon Qabs Lqa.
From Stdlib Require Qcabs.
From Stdlib Require Import Floats.
From Stdlib Require Uint63.
From Stdlib Require Import Ascii DecimalString.
From Stdlib Require DecimalNat DecimalFacts.
Import ListNotations.
Local Open Scope Z_scope.

(** ** Scalars *)

(** What [main] does with a [double]. [of_int] is the implicit conversion
    of an [int]; [to_int] is [static_cast<int>], which truncates toward
    zero and is undefined ([None]) when the truncated value is not an
    [int]; [sleb] and [sltb] are [<=] and [<]. *)
Class Scalar (K : Type) : Type := {
  of_int : Z -> K;
  sadd : K -> K -> K;
  ssub : K -> K -> K;
  smul : K -> K -> K;
  sdiv : K -> K -> K;
  sabs : K -> K;
  sleb : K -> K -> bool;
  sltb : K -> K -> bool;
  to_int : K -> option Z
}.

Definition INT_MIN : Z := - 2 ^ 31.
Definition INT_MAX : Z := 2 ^ 31 - 1.

Definition in_int_range (z : Z) : option Z :=
  if (INT_MIN <=? z) && (z <=? INT_MAX) then Some z else None.

(** *** binary64 *)

Definition float_of_int (z : Z) : float :=
  if z <? 0 then PrimFloat.opp (PrimFloat.of_uint63 (Uint63.of_Z (- z)))
  else PrimFloat.of_uint63 (Uint63.of_Z z).

Definition float_to_int (f : float) : option Z :=
  match Prim2SF f with
  | S754_zero _ => Some 0
  | S754_finite s m e =>
      let mag := if 0 <=? e then Z.pos m * 2 ^ e else Z.quot (Z.pos m) (2 ^ (- e)) in
      in_int_range (if s then - mag else mag)
  | S754_infinity _ => None
  | S754_nan => None
  end.

#[export] Instance float_Scalar : Scalar float := {
  of_int := float_of_int;
  sadd := PrimFloat.add;
  ssub := PrimFloat.sub;
  smul := PrimFloat.mul;
  sdiv := PrimFloat.div;
  sabs := PrimFloat.abs;
  sleb := PrimFloat.leb;
  sltb := PrimFloat.ltb;
  to_int := float_to_int
}.

(** *** exact rationals *)

Definition Qc_of_int (z : Z) : Qc := Q2Qc (inject_Z z).

Definition Qc_leb (a b : Qc) : bool := Qle_bool a b.

Definition Qc_ltb (a b : Qc) : bool := negb (Qle_bool b a).

Definition Qc_to_int (a : Qc) : option Z :=
  in_int_range (Z.quot (Qnum a) (Z.pos (Qden a))).

#[export] Instance Qc_Scalar : Scalar Qc := {
  of_int := Qc_of_int;
  sadd := Qcplus;
  ssub := Qcminus;
  smul := Qcmult;
  sdiv := Qcdiv;
  sabs := Qcabs.Qcabs;
  sleb := Qc_leb;
  sltb := Qc_ltb;
  to_int := Qc_to_int
}.

Declare Scope scalar_scope.
Delimit Scope scalar_scope with sc.
Infix "+" := sadd : scalar_scope.
Infix "-" := ssub : scalar_scope.
Infix "*" := smul : scalar_scope.
Infix "/" := sdiv : scalar_scope.

(** ** Indexed access *)

Definition list_get {X : Type} (l : list X) (i : Z) : option X :=
  if i <? 0 then None else nth_error l (Z.to_nat i).

Fixpoint set_nth {X : Type} (l : list X) (k : nat) (v : X) : option (list X) :=
  match l, k with
  | [], _ => None
  | _ :: t, O => Some (v :: t)
  | x :: t, S k' => option_map (cons x) (set_nth t k' v)
  end.

Definition list_set {X : Type} (l : list X) (i : Z) (v : X) : option (list X) :=
  if i <? 0 then None else set_nth l (Z.to_nat i) v.

Definition swap_front {X : Type} (l : list X) (p : nat) : list X :=
  match l, p with
  | x :: t, S p' =>
      match nth_error t p', set_nth t p' x with
      | Some y, Some t' => y :: t'
      | _, _ => l
      end
  | _, _ => l
  end.

Fixpoint map2 {X Y W : Type} (f : X -> Y -> W) (l : list X) (m : list Y) : list W :=
  match l, m with
  | x :: l', y :: m' => f x y :: map2 f l' m'
  | _, _ => []
  end.

(** The result of code that indexes a matrix: Eigen's [operator()(i,j)]
    asserts [0 <= i < rows] and [0 <= j < cols]; outside that range the
    access is refused ([OutOfRange], with the offending index). *)
Inductive access (X : Type) : Type :=
| Done (x : X)
| OutOfRange (row col : Z).
Arguments Done {X} x.
Arguments OutOfRange {X} row col.

Definition access_bind {X Y : Type} (m : access X) (k : X -> access Y) : access Y :=
  match m with
  | Done x => k x
  | OutOfRange i j => OutOfRange i j
  end.

Notation "x <~ m ;; k" := (access_bind m (fun x => k))
  (at level 61, m at next level, right associativity).
Notation "' p <~ m ;; k" := (access_bind m (fun p => k))
  (at level 61, p pattern, m at next level, right associativity).

(** ** The program *)

Section Program.

Context {K : Type} `{Scalar K}.
Local Open Scope scalar_scope.

(** Literals of the source: [0.4] is [lit 4 10], the decimal correctly
    rounded (both operands are exact, and the division rounds once). *)
Definition lit (m d : Z) : K := of_int m / of_int d.

Definition seqb (a b : K) : bool := sleb a b && sleb b a.

Definition vec : Type := list K.

(** A dense matrix, as its list of rows. *)
Definition matrix : Type := list (list K).

Definition Zero (rows cols : Z) : matrix :=
  repeat (repeat (of_int 0) (Z.to_nat cols)) (Z.to_nat rows).

(** [M(i, j)] read. *)
Definition coeff (M : matrix) (i j : Z) : option K :=
  match list_get M i with
  | Some row => list_get row j
  | None => None
  end.

(** [M(i, j) = v]. *)
Definition assign (M : matrix) (i j : Z) (v : K) : access matrix :=
  match list_get M i with
  | Some row =>
      match list_set row j v with
      | Some row' =>
          match list_set M i row' with
          | Some M' => Done M'
          | None => OutOfRange i j
          end
      | None => OutOfRange i j
      end
  | None => OutOfRange i j
  end.

(** [M / s], [s * M], [M1 - M2], [M1 + M2], coefficient by coefficient. *)
Definition mat_div (M : matrix) (s : K) : matrix :=
  map (map (fun x => x / s)) M.

Definition mat_scale (s : K) (M : matrix) : matrix :=
  map (map (fun x => s * x)) M.

Definition mat_sub (M1 M2 : matrix) : matrix :=
  map2 (map2 ssub) M1 M2.

Definition mat_add (M1 M2 : matrix) : matrix :=
  map2 (map2 sadd) M1 M2.

Fixpoint dot (r x : vec) : K :=
  match r, x with
  | a :: r', b :: x' => a * b + dot r' x'
  | _, _ => of_int 0
  end.

(** [M * x]. *)
Definition mat_vec (M : matrix) (x : vec) : vec :=
  map (fun row => dot row x) M.

(** *** Grid and initial conditions (lines 98, 120-133) *)

Definition L : K := of_int 1.

(** [dx = L / (num_x + 1)]: the sum is an [int] addition, defined for
    [num_x < INT_MAX] ([simulate] leaves a run with a larger count
    undefined), the quotient is one of the scalar arithmetic. *)
Definition spacing (num_x : Z) : K := L / of_int (num_x + 1).

Definition position (dx : K) (i : Z) : K := of_int (i + 1) * dx.

Definition hot (x : K) : bool := sleb (lit 4 10) x && sleb x (lit 6 10).

Definition initial_temperature (dx : K) (i : Z) : K :=
  if hot (position dx i) then of_int 100 else of_int 0.

Definition initial_conditions (num_x : Z) (dx : K) : vec :=
  map (fun i => initial_temperature dx (Z.of_nat i)) (seq 0 (Z.to_nat num_x)).

(** *** Stability condition (lines 112-117) *)

Definition courant (alpha dt dx : K) : K := alpha * dt / (dx * dx).

Definition courant_warns (courant_number : K) : bool :=
  sltb (lit 5 10) courant_number.

(** *** Finite difference matrices (lines 147-179) *)

(** The loop [for (i = 1; i < num_x - 1; ++i)], [k] iterations left. *)
Fixpoint interior_rows (k : nat) (i : Z) (A B : matrix) : access (matrix * matrix) :=
  match k with
  | O => Done (A, B)
  | S k' =>
      A <~ assign A i (i - 1) (lit 1 6) ;;
      A <~ assign A i i (lit 4 6) ;;
      A <~ assign A i (i + 1) (lit 1 6) ;;
      B <~ assign B i (i - 1) (of_int 1) ;;
      B <~ assign B i i (of_int (-2)) ;;
      B <~ assign B i (i + 1) (of_int 1) ;;
      interior_rows k' (i + 1) A B
  end.

(** The rows of the two boundary cells. *)
Definition boundary_rows (num_x : Z) (A B : matrix) : access (matrix * matrix) :=
  A <~ assign A 0 0 (lit 4 6) ;;
  A <~ assign A 0 1 (lit 2 6) ;;
  B <~ assign B 0 0 (of_int (-2)) ;;
  B <~ assign B 0 1 (of_int 2) ;;
  A <~ assign A (num_x - 1) (num_x - 2) (lit 2 6) ;;
  A <~ assign A (num_x - 1) (num_x - 1) (lit 4 6) ;;
  B <~ assign B (num_x - 1) (num_x - 2) (of_int 2) ;;
  B <~ assign B (num_x - 1) (num_x - 1) (of_int (-2)) ;;
  Done (A, B).

(** The matrices before [B = B / (dx * dx)]. *)
Definition stencils (num_x : Z) : access (matrix * matrix) :=
  ' (A, B) <~ interior_rows (Z.to_nat (num_x - 2)) 1
                (Zero num_x num_x) (Zero num_x num_x) ;;
  boundary_rows num_x A B.

Definition assemble (num_x : Z) (dx : K) : access (matrix * matrix) :=
  ' (A, B) <~ stencils num_x ;;
  Done (A, mat_div B (dx * dx)).

(** *** Crank-Nicolson matrices (lines 183-189) *)

Definition cn_factor (alpha dt : K) : K := alpha * dt / of_int 2.

Definition LHS_of (A B : matrix) (factor : K) : matrix :=
  mat_sub A (mat_scale factor B).

Definition RHS_of (A B : matrix) (factor : K) : matrix :=
  mat_add A (mat_scale factor B).

(** *** [Eigen::PartialPivLU] (lines 192, 205)

    Eigen is outside the repository.  Its factorization is modelled by
    the algorithm its documentation names, Gaussian elimination with
    partial (row) pivoting: at each stage the row whose leading
    coefficient is largest in absolute value (the first such row) is
    swapped to the top, the multipliers of the rows below are stored
    (they are a column of the unit lower factor; when the pivot is zero
    Eigen skips the division), and the stage continues on the Schur
    complement.  [solve] replays the row swaps and the multipliers on the
    right-hand side and substitutes back through the pivot rows (the
    rows of the upper factor). *)

Record lu_stage : Type := {
  pivot : nat;
  urow : list K;
  lcol : list K
}.

Definition PartialPivLU : Type := list lu_stage.

(** Index of the first coefficient of largest absolute value. *)
Fixpoint biggest (col : list K) (i : nat) (best : nat) (score : K) : nat :=
  match col with
  | [] => best
  | c :: col' =>
      if sltb score (sabs c) then biggest col' (S i) i (sabs c)
      else biggest col' (S i) best score
  end.

Definition row_of_biggest (col : list K) : nat :=
  match col with
  | [] => O
  | c :: col' => biggest col' 1%nat O (sabs c)
  end.

Definition head0 (row : list K) : K := hd (of_int 0) row.

Definition multiplier (a c : K) : K :=
  if seqb (sabs a) (of_int 0) then c else c / a.

Definition eliminate (r : list K) (l : K) (row : list K) : list K :=
  map2 (fun x u => x - l * u) (tl row) r.

Fixpoint lu_factor (n : nat) (M : matrix) : PartialPivLU :=
  match n with
  | O => []
  | S n' =>
      let p := row_of_biggest (map head0 M) in
      match swap_front M p with
      | (a :: r) :: rest =>
          let l := map (fun row => multiplier a (head0 row)) rest in
          {| pivot := p; urow := a :: r; lcol := l |}
            :: lu_factor n' (map2 (eliminate r) l rest)
      | _ => []
      end
  end.

Definition factorize (M : matrix) : PartialPivLU := lu_factor (List.length M) M.

Fixpoint solve (lu : PartialPivLU) (b : vec) : vec :=
  match lu with
  | [] => []
  | st :: lu' =>
      match swap_front b (pivot st), urow st with
      | beta :: bs, a :: r =>
          let y := solve lu' (map2 (fun l bi => bi - l * beta) (lcol st) bs) in
          (beta - dot r y) / a :: y
      | _, _ => []
      end
  end.

(** *** One time step (lines 202-208) *)

Definition step (RHS : matrix) (solver : PartialPivLU) (T_current : vec) : vec :=
  solve solver (mat_vec RHS T_current).

(** *** What a run does

    [main] is read as the sequence of its observable events (what it
    prints, allocates, factorizes, solves, appends and writes) and the
    way it ends. *)

Inductive out_msg : Type :=
| Banner (num_x : Z) (alpha dx dt total_time : K) (num_t_steps : Z) (prefix : string)
| CourantNumber (courant_number : K)
| InitialProfile (T : vec)
| StepCompleted (t num_t_steps : Z)
| WritingResults
| SimulationCompleted.

Inductive err_msg : Type :=
| Usage
| CellsRequired
| CellsPositive
| CourantWarning.

Inductive event : Type :=
| Stdout (m : out_msg)
| Stderr (m : err_msg)
| Allocate (rows cols : Z)
| MakeDirectory
| Factorization (M : matrix)
| Solve (solver : PartialPivLU) (b : vec)
| PushBack (T : vec)
| StepFile (prefix : string) (t : nat) (rows : list (K * K))
| AllTimestepsFile (prefix : string) (rows : list (K * K * K)).

(** [std::stod] and [std::stoi] throw when no conversion can be made or
    the value is out of range; [main] catches nothing.  The exception
    leaves [main] and the C++ runtime ends the process through
    [std::terminate] ([Terminate] below): no statement of the program
    runs after the throw, and what reaches the error stream then (with
    libstdc++ a line naming the exception type, before [abort]) is
    written by the runtime, not by the program.  The events of a run are
    those of the program's own statements. *)
Inductive exception : Type :=
| stod_failure
| stoi_failure.

Inductive termination : Type :=
| Exit (code : Z)
| Terminate (e : exception)
| IndexOutOfRange (row col : Z)
| Undefined.

Definition prog (X : Type) : Type := (list event * (X + termination))%type.

Definition ret {X : Type} (x : X) : prog X := ([], inl x).

Definition emit (e : event) : prog unit := ([e], inl tt).

Definition halt {X : Type} (t : termination) : prog X := ([], inr t).

Definition bind {X Y : Type} (m : prog X) (k : X -> prog Y) : prog Y :=
  match m with
  | (tr, inl x) => let (tr', r) := k x in (tr ++ tr', r)
  | (tr, inr t) => (tr, inr t)
  end.

Definition checked {X : Type} (a : access X) : prog X :=
  match a with
  | Done x => ret x
  | OutOfRange i j => halt (IndexOutOfRange i j)
  end.

Definition run (m : prog Z) : list event * termination :=
  match m with
  | (tr, inl code) => (tr, Exit code)
  | (tr, inr t) => (tr, t)
  end.

Notation "x <- m ;; k" := (bind m (fun x => k))
  (at level 61, m at next level, right associativity).
Notation "' p <- m ;; k" := (bind m (fun p => k))
  (at level 61, p pattern, m at next level, right associativity).
Notation "m ;; k" := (bind m (fun _ => k))
  (at level 61, right associativity).

(** *** Command line (lines 33-95)

    The command line as [getopt_long] hands it to the loop: the options
    in order, each numeric argument with the outcome of [std::stod] on
    its text ([None]: it throws), then the arguments left from
    [argv[optind]] on, each with the outcome of [std::stoi]. *)

Inductive option_token : Type :=
| OptAlpha (optarg : option K)
| OptDt (optarg : option K)
| OptTime (optarg : option K)
| OptOutput (optarg : string)
| OptHelp
| OptUnknown.

Record cmdline : Type := {
  options : list option_token;
  positional : list (option Z)
}.

Record params : Type := {
  alpha : K;
  dt : K;
  total_time : K;
  output_prefix : string
}.

Definition defaults : params :=
  {| alpha := lit 1 100;
     dt := lit 1 100;
     total_time := of_int 1;
     output_prefix := "results/temperature" |}.

Definition stod (optarg : option K) : prog K :=
  match optarg with
  | Some v => ret v
  | None => halt (Terminate stod_failure)
  end.

Fixpoint getopt_loop (opts : list option_token) (p : params) : prog params :=
  match opts with
  | [] => ret p
  | OptAlpha a :: rest =>
      v <- stod a ;;
      getopt_loop rest {| alpha := v; dt := dt p; total_time := total_time p;
                          output_prefix := output_prefix p |}
  | OptDt a :: rest =>
      v <- stod a ;;
      getopt_loop rest {| alpha := alpha p; dt := v; total_time := total_time p;
                          output_prefix := output_prefix p |}
  | OptTime a :: rest =>
      v <- stod a ;;
      getopt_loop rest {| alpha := alpha p; dt := dt p; total_time := v;
                          output_prefix := output_prefix p |}
  | OptOutput o :: rest =>
      getopt_loop rest {| alpha := alpha p; dt := dt p; total_time := total_time p;
                          output_prefix := o |}
  | OptHelp :: _ => emit (Stderr Usage) ;; halt (Exit 0)
  | OptUnknown :: _ => emit (Stderr Usage) ;; halt (Exit 1)
  end.

Definition cell_count (args : list (option Z)) : prog Z :=
  match args with
  | Some n :: _ => ret n
  | None :: _ => halt (Terminate stoi_failure)
  | [] => emit (Stderr CellsRequired) ;; emit (Stderr Usage) ;; halt (Exit 1)
  end.

(** *** Step count (line 99)

    [static_cast<int>(total_time / dt)].  A zero [dt] makes the quotient
    infinite or NaN in binary64, which no [int] converts: the model says
    so before dividing, so that exact arithmetic (where the quotient by
    zero has no such value) agrees. *)
Definition step_count (total_time dt : K) : option Z :=
  if seqb dt (of_int 0) then None else to_int (total_time / dt).

(** *** Time stepping (lines 195-215) *)

Definition progress_due (t num_t_steps : Z) : bool :=
  (Z.rem (t + 1) (if Z.quot num_t_steps 10 =? 0 then 1 else Z.quot num_t_steps 10) =? 0)
  || (t =? num_t_steps - 1).

(** The loop [for (t = ...; t < num_t_steps; ++t)], [k] iterations left. *)
Fixpoint time_loop (k : nat) (t num_t_steps : Z) (RHS : matrix) (solver : PartialPivLU)
    (T_current : vec) (T_history : list vec) : prog (vec * list vec) :=
  match k with
  | O => ret (T_current, T_history)
  | S k' =>
      let b := mat_vec RHS T_current in
      emit (Solve solver b) ;;
      let T_next := solve solver b in
      let T_current := T_next in
      emit (PushBack T_current) ;;
      let T_history := T_history ++ [T_current] in
      (if progress_due t num_t_steps
       then emit (Stdout (StepCompleted (t + 1) num_t_steps))
       else ret tt) ;;
      time_loop k' (t + 1) num_t_steps RHS solver T_current T_history
  end.

(** *** Output (lines 218-242) *)

Definition step_rows (num_x : Z) (dx : K) (T : vec) : list (K * K) :=
  map (fun i => (position dx (Z.of_nat i), nth i T (of_int 0))) (seq 0 (Z.to_nat num_x)).

Fixpoint step_files (prefix : string) (num_x : Z) (dx : K) (t : nat)
    (T_history : list vec) : prog unit :=
  match T_history with
  | [] => ret tt
  | T :: rest =>
      emit (StepFile prefix t (step_rows num_x dx T)) ;;
      step_files prefix num_x dx (S t) rest
  end.

Fixpoint all_rows (num_x : Z) (dx dt : K) (t : nat) (T_history : list vec) : list (K * K * K) :=
  match T_history with
  | [] => []
  | T :: rest =>
      map (fun r => (of_int (Z.of_nat t) * dt, fst r, snd r)) (step_rows num_x dx T)
        ++ all_rows num_x dx dt (S t) rest
  end.

Definition output_results (p : params) (num_x : Z) (dx : K) (T_history : list vec) : prog unit :=
  emit (Stdout WritingResults) ;;
  step_files (output_prefix p) num_x dx O T_history ;;
  emit (AllTimestepsFile (output_prefix p) (all_rows num_x dx (dt p) O T_history)) ;;
  emit (Stdout SimulationCompleted).

(** *** The simulation (lines 98-215): returns the state history. *)

Definition simulate (p : params) (num_x : Z) : prog (list vec) :=
  if INT_MAX <=? num_x then halt Undefined else
  let dx := spacing num_x in
  match step_count (total_time p) (dt p) with
  | None => halt Undefined
  | Some num_t_steps =>
      emit (Stdout (Banner num_x (alpha p) dx (dt p) (total_time p) num_t_steps
                      (output_prefix p))) ;;
      let courant_number := courant (alpha p) (dt p) dx in
      emit (Stdout (CourantNumber courant_number)) ;;
      (if courant_warns courant_number then emit (Stderr CourantWarning) else ret tt) ;;
      emit (Allocate num_x 1) ;;
      let T_current := initial_conditions num_x dx in
      emit (Stdout (InitialProfile T_current)) ;;
      emit MakeDirectory ;;
      emit (Allocate num_x num_x) ;;
      emit (Allocate num_x num_x) ;;
      ' (A, B) <- checked (assemble num_x dx) ;;
      emit (Allocate num_x num_x) ;;
      let factor := cn_factor (alpha p) (dt p) in
      emit (Allocate num_x num_x) ;;
      let LHS := LHS_of A B factor in
      emit (Allocate num_x num_x) ;;
      let RHS := RHS_of A B factor in
      emit (Factorization LHS) ;;
      let solver := factorize LHS in
      emit (Allocate num_x 1) ;;
      emit (PushBack T_current) ;;
      let T_history := [T_current] in
      ' (_, T_history) <- time_loop (Z.to_nat num_t_steps) 0 num_t_steps RHS solver
                            T_current T_history ;;
      ret T_history
  end.

Definition main (cl : cmdline) : list event * termination :=
  run (
    p <- getopt_loop (options cl) defaults ;;
    num_x <- cell_count (positional cl) ;;
    if num_x <=? 0 then emit (Stderr CellsPositive) ;; halt (Exit 1) else
    T_history <- simulate p num_x ;;
    output_results p num_x (spacing num_x) T_history ;;
    ret 0).

End Program.

Arguments vec K : clear implicits.
Arguments matrix K : clear implicits.
Arguments lu_stage K : clear implicits.
Arguments PartialPivLU K : clear implicits.
Arguments out_msg K : clear implicits.
Arguments event K : clear implicits.
Arguments prog K X : clear implicits.
Arguments option_token K : clear implicits.
Arguments cmdline K : clear implicits.
Arguments params K : clear implicits.

(** * Vocabulary of the claims *)

Section Vocabulary.

Context {K : Type} `{Scalar K}.
Local Open Scope scalar_scope.

(** The matrix with [n] rows and columns whose coefficient [(i, j)] is
    [f i j]. *)
Definition tab (n : nat) (f : Z -> Z -> K) : matrix K :=
  map (fun i => map (fun j => f (Z.of_nat i) (Z.of_nat j)) (seq 0 n)) (seq 0 n).

(** [f] with the coefficient [(i, j)] replaced by [v]. *)
Definition upd (f : Z -> Z -> K) (i j : Z) (v : K) : Z -> Z -> K :=
  fun i' j' => if (i' =? i) && (j' =? j) then v else f i' j'.

(** Rows [i0 .. i0 + k - 1] overwritten on the three diagonals. *)
Definition banded (lo diag up : K) (f : Z -> Z -> K) (i0 k : Z) : Z -> Z -> K :=
  fun i j =>
    if (i0 <=? i) && (i <? i0 + k) then
      if j =? i - 1 then lo else if j =? i then diag else if j =? i + 1 then up else f i j
    else f i j.

(** The averaging operator as the specification words it: rows
    [1/6, 4/6, 1/6] inside, [4/6, 2/6] at the first cell, [2/6, 4/6] at the
    last, zero elsewhere. *)
Definition averaging (num_x i j : Z) : K :=
  if i =? 0 then
    if j =? 0 then lit 4 6 else if j =? 1 then lit 2 6 else of_int 0
  else if i =? num_x - 1 then
    if j =? num_x - 2 then lit 2 6 else if j =? num_x - 1 then lit 4 6 else of_int 0
  else
    if j =? i - 1 then lit 1 6 else if j =? i then lit 4 6
    else if j =? i + 1 then lit 1 6 else of_int 0.

(** The undivided second difference as the specification words it: rows
    [1, -2, 1] inside, [-2, 2] at the first cell, [2, -2] at the last. *)
Definition second_difference (num_x i j : Z) : K :=
  if i =? 0 then
    if j =? 0 then of_int (-2) else if j =? 1 then of_int 2 else of_int 0
  else if i =? num_x - 1 then
    if j =? num_x - 2 then of_int 2 else if j =? num_x - 1 then of_int (-2) else of_int 0
  else
    if j =? i - 1 then of_int 1 else if j =? i then of_int (-2)
    else if j =? i + 1 then of_int 1 else of_int 0.

(** The diffusion operator: the second difference divided by [dx * dx]. *)
Definition diffusion (num_x : Z) (dx : K) (i j : Z) : K :=
  second_difference num_x i j / (dx * dx).

(** The system operators as the specification words them. *)
Definition left_hand (num_x : Z) (dx factor : K) (i j : Z) : K :=
  averaging num_x i j - factor * diffusion num_x dx i j.

Definition right_hand (num_x : Z) (dx factor : K) (i j : Z) : K :=
  averaging num_x i j + factor * diffusion num_x dx i j.

(** [n] rows of [n] coefficients. *)
Definition square (n : nat) (M : matrix K) : Prop :=
  List.length M = n /\ forall row, In row M -> List.length row = n.

(** The stages of a factorization of dimension [n]: stage [k] keeps a
    pivot row of [n - k] coefficients and [n - k - 1] multipliers. *)
Fixpoint lu_shape (n : nat) (lu : PartialPivLU K) : Prop :=
  match n, lu with
  | O, [] => True
  | S m, st :: lu' =>
      List.length (urow st) = S m /\ List.length (lcol st) = m /\ lu_shape m lu'
  | _, _ => False
  end.

(** The states after steps [1 .. k], each the solve of the one before. *)
Fixpoint states (k : nat) (RHS : matrix K) (solver : PartialPivLU K) (T : vec K)
    : list (vec K) :=
  match k with
  | O => []
  | S k' => step RHS solver T :: states k' RHS solver (step RHS solver T)
  end.

(** The state after [k] steps. *)
Fixpoint state_after (k : nat) (RHS : matrix K) (solver : PartialPivLU K) (T : vec K)
    : vec K :=
  match k with
  | O => T
  | S k' => state_after k' RHS solver (step RHS solver T)
  end.

(** The events of the loop: per step a solve, an append and, when due, a
    progress line. *)
Definition progress (t num_t_steps : Z) : list (event K) :=
  if progress_due t num_t_steps then [Stdout (StepCompleted (t + 1) num_t_steps)] else [].

Fixpoint loop_trace (k : nat) (t num_t_steps : Z) (RHS : matrix K)
    (solver : PartialPivLU K) (T : vec K) : list (event K) :=
  match k with
  | O => []
  | S k' =>
      Solve solver (mat_vec RHS T) :: PushBack (step RHS solver T)
        :: progress t num_t_steps
        ++ loop_trace k' (t + 1) num_t_steps RHS solver (step RHS solver T)
  end.

(** The advisory of the stability check. *)
Definition warning (courant_number : K) : list (event K) :=
  if courant_warns courant_number then [Stderr CourantWarning] else [].

(** What a run does before the loop, once its parameters are accepted. *)
Definition setup_trace (p : params K) (num_x num_t_steps : Z) : list (event K) :=
  let dx := spacing num_x in
  let factor := cn_factor (alpha p) (dt p) in
  [Stdout (Banner num_x (alpha p) dx (dt p) (total_time p) num_t_steps (output_prefix p));
   Stdout (CourantNumber (courant (alpha p) (dt p) dx))]
  ++ warning (courant (alpha p) (dt p) dx)
  ++ [Allocate num_x 1;
      Stdout (InitialProfile (initial_conditions num_x dx));
      MakeDirectory;
      Allocate num_x num_x; Allocate num_x num_x; Allocate num_x num_x;
      Allocate num_x num_x; Allocate num_x num_x;
      Factorization (tab (Z.to_nat num_x) (left_hand num_x dx factor));
      Allocate num_x 1;
      PushBack (initial_conditions num_x dx)].

(** The operators, the loop and the history of an accepted run. *)
Definition run_LHS (p : params K) (num_x : Z) : matrix K :=
  tab (Z.to_nat num_x) (left_hand num_x (spacing num_x) (cn_factor (alpha p) (dt p))).

Definition run_RHS (p : params K) (num_x : Z) : matrix K :=
  tab (Z.to_nat num_x) (right_hand num_x (spacing num_x) (cn_factor (alpha p) (dt p))).

Definition run_loop_trace (p : params K) (num_x num_t_steps : Z) : list (event K) :=
  loop_trace (Z.to_nat num_t_steps) 0 num_t_steps (run_RHS p num_x)
    (factorize (run_LHS p num_x)) (initial_conditions num_x (spacing num_x)).

Definition run_history (p : params K) (num_x num_t_steps : Z) : list (vec K) :=
  initial_conditions num_x (spacing num_x)
    :: states (Z.to_nat num_t_steps) (run_RHS p num_x) (factorize (run_LHS p num_x))
         (initial_conditions num_x (spacing num_x)).

(** What the output block writes. *)
Fixpoint step_file_events (prefix : string) (num_x : Z) (dx : K) (t : nat)
    (T_history : list (vec K)) : list (event K) :=
  match T_history with
  | [] => []
  | T :: rest =>
      StepFile prefix t (step_rows num_x dx T)
        :: step_file_events prefix num_x dx (S t) rest
  end.

Definition output_trace (p : params K) (num_x : Z) (T_history : list (vec K))
    : list (event K) :=
  Stdout WritingResults
    :: step_file_events (output_prefix p) num_x (spacing num_x) O T_history
    ++ [AllTimestepsFile (output_prefix p)
          (all_rows num_x (spacing num_x) (dt p) O T_history);
        Stdout SimulationCompleted].

(** The command lines [main] accepts: every option converts, none is
    [--help] or unknown; [p] is what the options leave of the defaults. *)
Definition accepted (cl : cmdline K) (p : params K) (num_x : Z) : Prop :=
  getopt_loop (options cl) defaults = ret p /\
  exists rest, positional cl = Some num_x :: rest.

(** Readings of a trace: the messages on the error stream, the matrices
    factorized, the factorization of each solve, the vectors appended to
    the history, the stability ratios printed. *)
Definition stderr_of (tr : list (event K)) : list err_msg :=
  flat_map (fun e => match e with Stderr m => [m] | _ => [] end) tr.

Definition factorizations (tr : list (event K)) : list (matrix K) :=
  flat_map (fun e => match e with Factorization M => [M] | _ => [] end) tr.

Definition solvers (tr : list (event K)) : list (PartialPivLU K) :=
  flat_map (fun e => match e with Solve s _ => [s] | _ => [] end) tr.

Definition pushed (tr : list (event K)) : list (vec K) :=
  flat_map (fun e => match e with PushBack T => [T] | _ => [] end) tr.

Definition courant_numbers (tr : list (event K)) : list K :=
  flat_map (fun e => match e with Stdout (CourantNumber c) => [c] | _ => [] end) tr.

(** Only messages on the error stream: nothing printed on the output
    stream, allocated, computed or written. *)
Definition is_stderr (e : event K) : bool :=
  match e with Stderr _ => true | _ => false end.

(** A numeric option whose argument [std::stod] does not convert. *)
Definition unparsable (opts : list (option_token K)) : Prop :=
  In (OptAlpha None) opts \/ In (OptDt None) opts \/ In (OptTime None) opts.

(** The invalid configurations: the cell count is missing, or is not
    positive, or a numeric option does not convert. *)
Definition invalid (cl : cmdline K) : Prop :=
  positional cl = [] \/
  (exists num_x rest, positional cl = Some num_x :: rest /\ num_x <= 0) \/
  unparsable (options cl).





End Vocabulary.

(** ** Exact arithmetic *)

(** [M] sends no two vectors of [n] entries to the same image. *)
Definition regular (n : nat) (M : matrix Qc) : Prop :=
  forall x y : vec Qc, List.length x = n -> List.length y = n ->
    mat_vec M x = mat_vec M y -> x = y.

(** The entry of [x] at index [j], zero outside the vector. *)
Definition xat (x : vec Qc) (j : Z) : Qc :=
  if j <? 0 then of_int 0 else nth (Z.to_nat j) x (of_int 0).

(** [h lo + h (lo + 1) + ... + h (lo + m - 1)]. *)
Fixpoint zsum (h : Z -> Qc) (lo : Z) (m : nat) : Qc :=
  match m with
  | O => of_int 0
  | S m' => (h lo + zsum h (lo + 1) m')%Qc
  end.

(** Rows [lo, dg, up] inside, [d0, u0] first, [l1, d1] last. *)
Definition tri (lo dg up d0 u0 l1 d1 : Qc) (num_x i j : Z) : Qc :=
  if i =? 0 then
    if j =? 0 then d0 else if j =? 1 then u0 else of_int 0
  else if i =? num_x - 1 then
    if j =? num_x - 2 then l1 else if j =? num_x - 1 then d1 else of_int 0
  else
    if j =? i - 1 then lo else if j =? i then dg
    else if j =? i + 1 then up else of_int 0.

(** Row [i] of such a matrix applied to [x]. *)
Definition tri_apply (lo dg up d0 u0 l1 d1 : Qc) (num_x : Z) (x : vec Qc) (i : Z) : Qc :=
  if i =? 0 then (d0 * xat x 0 + u0 * xat x 1)%Qc
  else if i =? num_x - 1 then
    (l1 * xat x (num_x - 2) + d1 * xat x (num_x - 1))%Qc
  else (lo * xat x (i - 1) + dg * xat x i + up * xat x (i + 1))%Qc.

(** [averaging + g * diffusion], by diagonals. *)
Definition system (dx g : Qc) (num_x : Z) : Z -> Z -> Qc :=
  tri (sadd (lit 1 6) (smul g (sdiv (of_int 1) (smul dx dx))))
      (sadd (lit 4 6) (smul g (sdiv (of_int (-2)) (smul dx dx))))
      (sadd (lit 1 6) (smul g (sdiv (of_int 1) (smul dx dx))))
      (sadd (lit 4 6) (smul g (sdiv (of_int (-2)) (smul dx dx))))
      (sadd (lit 2 6) (smul g (sdiv (of_int 2) (smul dx dx))))
      (sadd (lit 2 6) (smul g (sdiv (of_int 2) (smul dx dx))))
      (sadd (lit 4 6) (smul g (sdiv (of_int (-2)) (smul dx dx))))
      num_x.

(** ** Example inputs *)

(** An accepted command line for the examples: [--time 0.03 3], in exact
    arithmetic. *)
Definition example_cmdline : cmdline Qc :=
  {| options := [OptTime (Some (lit 3 100))]; positional := [Some 3] |}.

Definition example_params : params Qc :=
  {| alpha := lit 1 100; dt := lit 1 100; total_time := lit 3 100;
     output_prefix := "results/temperature" |}.

(** * The text of a run *)

(** What the program writes, character by character: the two print
    functions ([printVector], [printUsage]), the lines [main] sends to
    the output and error streams, and the files of the output block.
    The events of a run carry the values; here they get their text. *)

(** ** Streams *)

Definition newline : string := String (ascii_of_nat 10) EmptyString.

(** The formatting state of a [std::ostream] that the program touches:
    the notation of floating-point numbers ([std::fixed] or the default)
    and the precision ([std::setprecision]). *)
Inductive floatfield : Type :=
| general
| fixed.

Record ostream : Type := {
  text : string;
  notation : floatfield;
  precision : nat
}.

(** A stream as it is constructed. *)
Definition opened : ostream :=
  {| text := EmptyString; notation := general; precision := 6%nat |}.

(** [operator<<] on a [double]: its characters, given the notation and
    the precision of the stream (the conversion is the library's). *)
Class Printed (K : Type) : Type := {
  num_put : floatfield -> nat -> K -> string
}.

(** [operator<<] on an [int], and [std::to_string] on a [size_t]. *)
Definition string_of_Z (z : Z) : string := NilZero.string_of_int (Z.to_int z).

Definition to_string (t : nat) : string := NilZero.string_of_uint (Nat.to_uint t).

Definition manipulator : Type := ostream -> ostream.

Class Inserted (A : Type) : Type := insert : ostream -> A -> ostream.

#[export] Instance insert_string : Inserted string := fun os s =>
  {| text := text os ++ s; notation := notation os; precision := precision os |}.

#[export] Instance insert_int : Inserted Z := fun os z =>
  insert_string os (string_of_Z z).

#[export] Instance insert_manipulator : Inserted manipulator := fun os m => m os.

#[export] Instance insert_double {K : Type} `{Printed K} : Inserted K := fun os x =>
  insert_string os (num_put (notation os) (precision os) x).

Declare Scope stream_scope.
Delimit Scope stream_scope with os.
Notation "os << x" := (insert os x) (at level 50, left associativity) : stream_scope.

Definition std_fixed : manipulator := fun os =>
  {| text := text os; notation := fixed; precision := precision os |}.

Definition setprecision (n : nat) : manipulator := fun os =>
  {| text := text os; notation := notation os; precision := n |}.

(** [std::endl]: a newline (and a flush, which no one observes). *)
Definition endl : manipulator := fun os => insert_string os newline.

Section Text.

Context {K : Type} `{Scalar K} `{Printed K}.
Local Open Scope stream_scope.
Local Open Scope string_scope.

(** ** [printVector] (lines 10-17) *)

(** [vec(i)]. *)
Definition entry (vec : vec K) (i : Z) : access K :=
  match list_get vec i with
  | Some x => Done x
  | None => OutOfRange i 0
  end.

(** The loop [for (i = ...; i < vec.size(); ++i)], [k] iterations left. *)
Fixpoint printVector_loop (k : nat) (i : Z) (vec : vec K) (os : ostream) : access ostream :=
  match k with
  | O => Done os
  | S k' =>
      x <~ entry vec i ;;
      printVector_loop k' (i + 1)%Z vec
        (os << std_fixed << setprecision 6 << x
            << (if (i =? Z.of_nat (List.length vec) - 1)%Z then "" else ", "))
  end.

Definition printVector (vec : vec K) (os : ostream) : access ostream :=
  os <~ printVector_loop (List.length vec) 0 vec os ;;
  Done (os << endl).

(** ** [printUsage] (lines 19-28) *)

Definition printUsage (programName : string) (cerr : ostream) : ostream :=
  let cerr := cerr << "Usage: " << programName << " [options] <num_cells>" << endl in
  let cerr := cerr << "Options:" << endl in
  let cerr := cerr << "  --alpha <value>     Thermal diffusivity (default: 0.01)" << endl in
  let cerr := cerr << "  --dt <value>        Time step size (default: 0.01)" << endl in
  let cerr := cerr << "  --time <value>      Total simulation time (default: 1.0)" << endl in
  let cerr := cerr << "  --output <prefix>   Output file prefix (default: results/temperature)" << endl in
  cerr << "  --help              Display this help message" << endl.

(** ** The lines of [main] *)

(** What [main] sends to [std::cout] at each of its messages (lines
    101-109, 113, 139-140, 213, 218, 242). *)
Definition print_out (m : out_msg K) (cout : ostream) : access ostream :=
  match m with
  | Banner num_x alpha dx dt total_time num_t_steps output_prefix =>
      let cout := cout << "--- 1D Heat Conduction Simulation ---" << endl in
      let cout := cout << "Number of spatial cells (num_x): " << num_x << endl in
      let cout := cout << "Thermal diffusivity (alpha): " << alpha << endl in
      let cout := cout << "Spatial step (dx): " << dx << endl in
      let cout := cout << "Time step (dt): " << dt << endl in
      let cout := cout << "Total time: " << total_time << endl in
      let cout := cout << "Number of time steps: " << num_t_steps << endl in
      let cout := cout << "Domain length (L): " << (L : K) << endl in
      Done (cout << "Output file prefix: " << output_prefix << endl)
  | CourantNumber courant_number =>
      Done (cout << "Courant number (alpha * dt / dx^2): " << courant_number << endl)
  | InitialProfile T_current =>
      printVector T_current (cout << (newline ++ "Initial Temperature Profile:") << endl)
  | StepCompleted t num_t_steps =>
      Done (cout << "Time step " << t << "/" << num_t_steps << " completed." << endl)
  | WritingResults =>
      Done (cout << (newline ++ "Writing results to files...") << endl)
  | SimulationCompleted =>
      Done (cout << "Simulation completed successfully." << endl)
  end.

(** What [main] sends to [std::cerr] (lines 69, 72, 86-87, 93, 116). *)
Definition print_err (programName : string) (m : err_msg) (cerr : ostream) : ostream :=
  match m with
  | Usage => printUsage programName cerr
  | CellsRequired => cerr << "Error: Number of cells is required." << endl
  | CellsPositive => cerr << "Error: Number of cells must be positive." << endl
  | CourantWarning =>
      cerr << "Warning: Courant number > 0.5. The explicit scheme might be unstable."
           << endl
  end.

(** The two streams after a trace. *)
Fixpoint cout_after (tr : list (event K)) (cout : ostream) : access ostream :=
  match tr with
  | [] => Done cout
  | Stdout m :: tr' => cout <~ print_out m cout ;; cout_after tr' cout
  | _ :: tr' => cout_after tr' cout
  end.

Fixpoint cerr_after (programName : string) (tr : list (event K)) (cerr : ostream) : ostream :=
  match tr with
  | [] => cerr
  | Stderr m :: tr' => cerr_after programName tr' (print_err programName m cerr)
  | _ :: tr' => cerr_after programName tr' cerr
  end.

(** ** The files of the output block (lines 219-240) *)

Definition step_file_name (output_prefix : string) (t : nat) : string :=
  output_prefix ++ "_t_" ++ to_string t ++ ".csv".

Definition all_timesteps_name (output_prefix : string) : string :=
  output_prefix ++ "_all_timesteps.csv".

Definition step_file_text (rows : list (K * K)) : string :=
  text (fold_left (fun outfile r => outfile << fst r << "," << snd r << newline) rows
          (opened << ("x,Temperature" ++ newline))).

Definition all_timesteps_text (rows : list (K * K * K)) : string :=
  text (fold_left
          (fun all_timesteps r =>
             all_timesteps << fst (fst r) << "," << snd (fst r) << "," << snd r << newline)
          rows (opened << ("t,x,Temperature" ++ newline))).

(** The files a trace opens, in order, each with the text written to it. *)
Definition files_written (tr : list (event K)) : list (string * string) :=
  flat_map (fun e =>
    match e with
    | StepFile output_prefix t rows => [(step_file_name output_prefix t, step_file_text rows)]
    | AllTimestepsFile output_prefix rows =>
        [(all_timesteps_name output_prefix, all_timesteps_text rows)]
    | _ => []
    end) tr.

End Text.

(** ** Decimal conversion of exact and binary64 values

    The conversion of [operator<<] as the C and C++ standards define it
    ([%f] with [std::fixed], [%g] otherwise), rounding the exact value
    to nearest, ties to even. *)

Fixpoint zeros (k : nat) : string :=
  match k with
  | O => EmptyString
  | S k' => String "0" (zeros k')
  end.

Definition pad (width : nat) (s : string) : string :=
  (zeros (width - String.length s) ++ s)%string.

Fixpoint strip_zeros (s : string) : string :=
  match s with
  | EmptyString => EmptyString
  | String c s' =>
      match strip_zeros s' with
      | EmptyString => if Ascii.eqb c "0" then EmptyString else String c EmptyString
      | t => String c t
      end
  end.

(** The decimal point and the digits after it, when there are any. *)
Definition point (frac : string) : string :=
  match frac with
  | EmptyString => EmptyString
  | _ => ("." ++ frac)%string
  end.

(** The integer nearest to [q >= 0], the even one of two. *)
Definition round_half_even (q : Q) : Z :=
  let n := Qnum q in
  let d := Z.pos (Qden q) in
  let f := n / d in
  match 2 * (n mod d) ?= d with
  | Lt => f
  | Gt => f + 1
  | Eq => if Z.even f then f else f + 1
  end.

(** [q * 10 ^ k]. *)
Definition scale10 (q : Q) (k : Z) : Q :=
  if 0 <=? k then (q * inject_Z (10 ^ k))%Q else (q / inject_Z (10 ^ (- k)))%Q.

Definition ndigits (n : Z) : Z := Z.of_nat (String.length (string_of_Z n)).

(** The decimal exponent of [q > 0]: [10 ^ e <= q < 10 ^ (e + 1)]. *)
Definition exponent10 (q : Q) : Z :=
  let e := ndigits (Qnum q) - ndigits (Z.pos (Qden q)) in
  if Qle_bool (scale10 1 e) q then e else e - 1.

(** [%.pf] of [q >= 0]. *)
Definition fixed_text (q : Q) (p : nat) : string :=
  let m := round_half_even (scale10 q (Z.of_nat p)) in
  let unit := 10 ^ Z.of_nat p in
  (string_of_Z (m / unit)
     ++ match p with
        | O => EmptyString
        | _ => "." ++ pad p (string_of_Z (m mod unit))
        end)%string.

(** [%.pg] of [q >= 0]: [p] significant digits, in scientific notation
    when the decimal exponent is below [-4] or not below [p], trailing
    zeros removed. *)
Definition general_text (q : Q) (p : nat) : string :=
  let P := match p with O => 1%nat | _ => p end in
  if Qeq_bool q 0 then "0"%string else
  let e := exponent10 q in
  let m := round_half_even (scale10 q (Z.of_nat P - 1 - e)) in
  let '(m, X) := if 10 ^ Z.of_nat P <=? m then (m / 10, e + 1) else (m, e) in
  if (X <? -4) || (Z.of_nat P <=? X) then
    (string_of_Z (m / 10 ^ (Z.of_nat P - 1))
       ++ point (strip_zeros (pad (P - 1) (string_of_Z (m mod 10 ^ (Z.of_nat P - 1)))))
       ++ "e" ++ (if (X <? 0)%Z then "-" else "+") ++ pad 2 (string_of_Z (Z.abs X)))%string
  else
    let f := Z.of_nat P - 1 - X in
    (string_of_Z (m / 10 ^ f)
       ++ point (strip_zeros (pad (Z.to_nat f) (string_of_Z (m mod 10 ^ f)))))%string.

(** A sign and a magnitude. *)
Definition Q_put (neg : bool) (q : Q) (ff : floatfield) (p : nat) : string :=
  ((if neg then "-" else "")
     ++ match ff with
        | general => general_text q p
        | fixed => fixed_text q p
        end)%string.

#[export] Instance Qc_Printed : Printed Qc := {
  num_put ff p x := Q_put (negb (Qle_bool 0 x)) (Qabs x) ff p
}.

#[export] Instance float_Printed : Printed float := {
  num_put ff p x :=
    match Prim2SF x with
    | S754_zero s => Q_put s 0 ff p
    | S754_finite s m e =>
        Q_put s (if 0 <=? e then inject_Z (Z.pos m * 2 ^ e)
                 else (Z.pos m # Pos.pow 2 (Z.to_pos (- e)))) ff p
    | S754_infinity s => if s then "-inf"%string else "inf"%string
    | S754_nan => "nan"%string
    end
}.

(** ** Vocabulary of the further properties *)

Section Readings.

Context {K : Type} `{Scalar K}.

(** An option that lets the option loop go on: one with an argument that
    converts, or an output prefix. *)
Definition plain (o : option_token K) : bool :=
  match o with
  | OptAlpha (Some _) | OptDt (Some _) | OptTime (Some _) | OptOutput _ => true
  | _ => false
  end.

Definition sets_alpha (o : option_token K) : bool :=
  match o with OptAlpha _ => true | _ => false end.

Definition sets_dt (o : option_token K) : bool :=
  match o with OptDt _ => true | _ => false end.

Definition sets_time (o : option_token K) : bool :=
  match o with OptTime _ => true | _ => false end.

Definition sets_output (o : option_token K) : bool :=
  match o with OptOutput _ => true | _ => false end.

(** The progress lines of a trace: the step each one reports, with the
    number of steps it is printed against. *)
Definition completed (tr : list (event K)) : list (Z * Z) :=
  flat_map (fun e =>
    match e with
    | Stdout (StepCompleted t num_t_steps) => [(t, num_t_steps)]
    | _ => []
    end) tr.

(** The step files and the combined files of a trace. *)
Definition step_files_of (tr : list (event K)) : list (string * nat * list (K * K)) :=
  flat_map (fun e =>
    match e with
    | StepFile output_prefix t rows => [(output_prefix, t, rows)]
    | _ => []
    end) tr.

Definition all_timesteps_of (tr : list (event K)) : list (string * list (K * K * K)) :=
  flat_map (fun e =>
    match e with
    | AllTimestepsFile output_prefix rows => [(output_prefix, rows)]
    | _ => []
    end) tr.

(** The state of an accepted run after [t] steps. *)
Definition run_state (p : params K) (num_x : Z) (t : nat) : vec K :=
  state_after t (run_RHS p num_x) (factorize (run_LHS p num_x))
    (initial_conditions num_x (spacing num_x)).

End Readings.

(** Reading a text back: the pieces between the occurrences of a
    separator, and the lines (each ended by a newline). *)
Fixpoint split_at (sep : ascii) (s : string) : list string :=
  match s with
  | EmptyString => [EmptyString]
  | String c s' =>
      if Ascii.eqb c sep then EmptyString :: split_at sep s'
      else
        match split_at sep s' with
        | piece :: pieces => String c piece :: pieces
        | [] => [String c EmptyString]
        end
  end.

Definition lines (s : string) : list string :=
  removelast (split_at (ascii_of_nat 10) s).

(** The rows of a comma-separated text. *)
Definition csv_rows (s : string) : list (list string) :=
  map (split_at ",") (lines s).

Fixpoint avoids (c : ascii) (s : string) : bool :=
  match s with
  | EmptyString => true
  | String a s' => negb (Ascii.eqb a c) && avoids c s'
  end.

(** A text that can stand as one field of a row. *)
Definition is_field (s : string) : bool :=
  avoids "," s && avoids (ascii_of_nat 10) s.

(** Lines, each ended by a newline, one after the other. *)
Fixpoint unlines (ls : list string) : string :=
  match ls with
  | [] => EmptyString
  | l :: ls' => (l ++ newline ++ unlines ls')%string
  end.

(** Numbers whose default text can stand as a field. *)
Definition printed_as_fields {K : Type} `{Printed K} (xs : list K) : Prop :=
  Forall (fun x => is_field (num_put general 6 x) = true) xs.

(** ** Further example inputs *)

(** [--alpha 0.5 --dt 0.001 --alpha 0.25 3]: an option given twice. *)
Definition repeated_option_cmdline : cmdline Qc :=
  {| options := [OptAlpha (Some (lit 5 10)); OptDt (Some (lit 1 1000));
                 OptAlpha (Some (lit 25 100))];
     positional := [Some 3] |}.

Definition repeated_option_params : params Qc :=
  {| alpha := lit 25 100; dt := lit 1 1000; total_time := of_int 1;
     output_prefix := "results/temperature" |}.

(** [--dt 0.001 --help --alpha abc], without a cell count. *)
Definition help_cmdline : cmdline Qc :=
  {| options := [OptDt (Some (lit 1 1000)); OptHelp; OptAlpha None];
     positional := [] |}.

(** [--time 0.03 3] in binary64. *)
Definition example_cmdline_binary64 : cmdline float :=
  {| options := [OptTime (Some (lit 3 100))]; positional := [Some 3] |}.

(** ** Binary64 against exact arithmetic *)

(** Which cells start hot. *)
Definition hot_cells {K : Type} `{Scalar K} (num_x : Z) : list bool :=
  map (fun i => hot (position (spacing num_x) (Z.of_nat i))) (seq 0 (Z.to_nat num_x)).

(** The same cells start hot in binary64 and in exact arithmetic. *)
Definition same_hot_cells (num_x : nat) : bool :=
  if list_eq_dec Bool.bool_dec (hot_cells (K := float) (Z.of_nat num_x))
       (hot_cells (K := Qc) (Z.of_nat num_x))
  then true else false.

(** The step count in binary64 for a total time of [k] hundredths and
    the default time step: whether it is [n]. *)
Definition hundredths_give (k : nat) (n : Z) : bool :=
  match step_count (K := float) (lit (Z.of_nat k) 100) (dt defaults) with
  | Some num_t_steps => num_t_steps =? n
  | None => false
  end.

(** * Binary64: the doubles of a run

    The program computes in [double]: what a claim says about the values
    of a run is settled on the binary64 instance.  Where a statement
    ranges over cell counts or parameters and depends on how the
    operations round, it is evaluated over an explicit range. *)

(** The real number a finite double holds: [m * 2^e], with its sign. *)
Definition float_value (f : float) : option Q :=
  match Prim2SF f with
  | S754_zero _ => Some 0%Q
  | S754_finite s m e =>
      let v := if 0 <=? e then inject_Z (Z.pos m * 2 ^ e)
               else (Z.pos m # Z.to_pos (2 ^ (- e)))%Q in
      Some (if s then Qopp v else v)
  | S754_infinity _ => None
  | S754_nan => None
  end.

(** A double that is a number: neither an infinity nor a NaN. *)
Definition finite_double (f : float) : bool :=
  match Prim2SF f with
  | S754_zero _ => true
  | S754_finite _ _ _ => true
  | S754_infinity _ => false
  | S754_nan => false
  end.

(** Truncation toward zero of a real number. *)
Definition truncate (q : Q) : Z := Z.quot (Qnum q) (Z.pos (Qden q)).

(** [f lo && f (lo + 1) && ... && f (lo + count - 1)]. *)
Fixpoint all_from (f : Z -> bool) (lo : Z) (count : nat) : bool :=
  match count with
  | O => true
  | S count' => f lo && all_from f (lo + 1) count'
  end.

(** [f] on every integer from [lo] to [hi]. *)
Definition all_between (f : Z -> bool) (lo hi : Z) : bool :=
  all_from f lo (Z.to_nat (hi + 1 - lo)).

(** ** Rounding (the IEEE operations of [SpecFloat]) *)

(** What a shifted record knows of the number [N / D] it stands for:
    its mantissa is below, and the round bit is set only from the half
    on. *)
Definition shr_inv (mrs : shr_record) (N D : Z) : Prop :=
  0 <= shr_m mrs /\ shr_m mrs * D <= N /\
  (shr_r mrs = true -> (2 * shr_m mrs + 1) * D <= 2 * N).

(** The mantissa of a shifted record is the floor of the number [N / D]
    it stands for. *)
Definition shr_floor (mrs : shr_record) (N D : Z) : Prop :=
  0 <= shr_m mrs /\ shr_m mrs * D <= N < (shr_m mrs + 1) * D.

(** A normal double: a mantissa of 53 digits, with its exponent between
    [lo] and [hi]. *)
Definition normal (x : spec_float) (lo hi : Z) : Prop :=
  exists s m e, x = S754_finite s m e /\ 2 ^ 52 <= Z.pos m < 2 ^ 53 /\ lo <= e <= hi.

(** The scale of the hot band: [2 ^ 52], [2 ^ 105], and the doubles [0.4]
    and [0.6] on the scale [2 ^ 105]. *)
Definition two_52 : Z := 4503599627370496.
Definition two_105 : Z := 40564819207303340847894502572032.
Definition edge_04 : Z := 16225927682921337239877726502912.
Definition edge_06 : Z := 24338891524382003608016776069120.

(** ** The hot band (lines 120-133) *)

(** The position of cell [i] of [num_x] as a real number,
    [(i + 1) / (num_x + 1)] for the domain length 1. *)
Definition exact_position (num_x i : Z) : Q := (i + 1) # Z.to_pos (num_x + 1).

(** Whether cell [i] starts hot in binary64. *)
Definition starts_hot (num_x i : Z) : bool :=
  hot (K := float) (position (spacing num_x) i).

(** ** Runs evaluated *)

(** [--alpha a --dt d --time t]. *)
Definition run_with (a d t : float) : params float :=
  {| alpha := a; dt := d; total_time := t;
     output_prefix := "results/temperature" |}.

(** A half step of simulated time, in binary64: [--time 0.005]. *)
Definition half_step_binary64 : params float :=
  run_with (lit 1 100) (lit 1 100) (lit 5 1000).

(** No diffusion, in binary64: [--alpha 0 --time 0.03]. *)
Definition zero_alpha_binary64 : params float :=
  run_with (of_int 0) (lit 1 100) (lit 3 100).

(** No diffusion over a hundred steps: [--alpha 0]. *)
Definition zero_alpha_long_binary64 : params float :=
  run_with (of_int 0) (lit 1 100) (of_int 1).

(** No diffusion with an infinite time step: [--alpha 0 --dt inf]
    ([std::stod] converts [inf] to the infinity of doubles). *)
Definition zero_alpha_infinite_step : params float :=
  run_with (of_int 0) PrimFloat.infinity (of_int 1).


(** [| a - b | <= tol] on doubles. *)
Definition within (tol a b : float) : bool :=
  PrimFloat.leb (PrimFloat.abs (PrimFloat.sub a b)) tol.

(** Every entry of [T] within [tol] of the entry of [T0] at its place. *)
Definition entries_within (tol : float) (T0 T : vec float) : bool :=
  Nat.eqb (List.length T) (List.length T0)
  && forallb (fun ab => within tol (fst ab) (snd ab)) (combine T T0).

(** The history of the run when it completes its loop. *)
Definition history_of (p : params float) (num_x : Z) : option (list (vec float)) :=
  match snd (simulate p num_x) with
  | inl T_history => Some T_history
  | inr _ => None
  end.


(** The run with [num_x] cells completes and every state of its history
    is within [tol] of the initial state, entry by entry. *)
Definition state_kept (tol : float) (p : params float) (num_x : Z) : bool :=
  match history_of p num_x with
  | Some T_history =>
      forallb (entries_within tol (initial_conditions num_x (spacing num_x))) T_history
  | None => false
  end.

(** The coefficients of the diffusion operator are the quotients of 1,
    -2, 2 and 0 by [dx * dx]: whether all four are numbers. *)
Definition diffusion_finite (num_x : Z) : bool :=
  let dx := spacing (K := float) num_x in
  forallb (fun c => finite_double (PrimFloat.div (of_int c) (PrimFloat.mul dx dx)))
    [1; -2; 2; 0].

(** ** Stability check (lines 112-117) *)

(** With [alpha = a / 100] and [dt = d / 100] the ratio
    [alpha * dt / (dx * dx)] is [a * d * (num_x + 1)^2 / 10000] as a real
    number: unless that is 1/2 exactly, the warning is printed in
    binary64 exactly when it is above 1/2. *)
Definition warning_decided (a d num_x : Z) : bool :=
  let r := 2 * a * d * (num_x + 1) * (num_x + 1) in
  (r =? 10000)
  || Bool.eqb (courant_warns (K := float)
                 (courant (lit a 100) (lit d 100) (spacing num_x)))
              (10000 <? r).

(** With the default parameters the warning is printed exactly from 70
    cells on. *)
Definition default_warning_decided (num_x : Z) : bool :=
  Bool.eqb (courant_warns (K := float)
              (courant (alpha defaults) (dt defaults) (spacing num_x)))
           (70 <=? num_x).

(** * Proofs *)

(** ** Facts about indexed lists *)

Section ListFacts.

Context {X : Type}.

Lemma nth_error_map_seq (g : nat -> X) (n s k : nat) :
  (k < n)%nat -> nth_error (map g (seq s n)) k = Some (g (s + k)%nat).
Proof.
  revert s k. induction n as [|n IH]; intros s k Hk; [lia|].
  destruct k as [|k]; simpl.
  - now rewrite Nat.add_0_r.
  - rewrite IH by lia. f_equal. f_equal. lia.
Qed.

Lemma set_nth_map_seq (g : nat -> X) (n s k : nat) (v : X) :
  (k < n)%nat ->
  set_nth (map g (seq s n)) k v =
  Some (map (fun i => if Nat.eqb i (s + k) then v else g i) (seq s n)).
Proof.
  revert s k. induction n as [|n IH]; intros s k Hk; [lia|].
  destruct k as [|k]; simpl.
  - rewrite Nat.add_0_r, Nat.eqb_refl. do 2 f_equal.
    apply map_ext_in. intros i Hi. apply in_seq in Hi.
    destruct (Nat.eqb_spec i s); [lia|reflexivity].
  - rewrite IH by lia. simpl.
    destruct (Nat.eqb_spec s (s + S k)); [lia|].
    do 2 f_equal. apply map_ext_in. intros i Hi.
    replace (S (s + k))%nat with (s + S k)%nat by lia. reflexivity.
Qed.

Lemma set_nth_beyond (l : list X) (k : nat) (v : X) :
  (List.length l <= k)%nat -> set_nth l k v = None.
Proof.
  revert k. induction l as [|x l IH]; intros k Hk; [destruct k; reflexivity|].
  destruct k as [|k]; simpl in *; [lia|]. now rewrite IH by lia.
Qed.

Lemma set_nth_length (l l' : list X) (k : nat) (v : X) :
  set_nth l k v = Some l' -> List.length l' = List.length l.
Proof.
  revert k l'. induction l as [|x l IH]; intros k l' E; [destruct k; discriminate|].
  destruct k as [|k]; simpl in E.
  - injection E as <-. reflexivity.
  - destruct (set_nth l k v) eqn:E'; [|discriminate].
    injection E as <-. simpl. f_equal. eauto.
Qed.

Lemma set_nth_In (l l' : list X) (k : nat) (v x : X) :
  set_nth l k v = Some l' -> In x l' -> x = v \/ In x l.
Proof.
  revert k l'. induction l as [|y l IH]; intros k l' E Hx; [destruct k; discriminate|].
  destruct k as [|k]; simpl in E.
  - injection E as <-. destruct Hx as [->|Hx]; [now left|right; now right].
  - destruct (set_nth l k v) eqn:E'; [|discriminate].
    injection E as <-. destruct Hx as [->|Hx]; [right; now left|].
    destruct (IH _ _ E' Hx); [now left|right; now right].
Qed.

Lemma swap_front_length (l : list X) (p : nat) :
  List.length (swap_front l p) = List.length l.
Proof.
  destruct l as [|x t]; [reflexivity|]. destruct p as [|p]; [reflexivity|]. simpl.
  destruct (nth_error t p); [|reflexivity].
  destruct (set_nth t p x) eqn:E; [|reflexivity].
  simpl. f_equal. eapply set_nth_length; eauto.
Qed.

Lemma swap_front_In (l : list X) (p : nat) (x : X) :
  In x (swap_front l p) -> In x l.
Proof.
  destruct l as [|y t]; [easy|]. destruct p as [|p]; [easy|]. simpl.
  destruct (nth_error t p) as [z|] eqn:Ez; [|easy].
  destruct (set_nth t p y) eqn:E; [|easy].
  intros [<-|Hx].
  - right. eapply nth_error_In; eauto.
  - destruct (set_nth_In _ _ _ _ _ E Hx) as [->|]; [now left|now right].
Qed.

Lemma map2_length {Y W : Type} (f : X -> Y -> W) (l : list X) (m : list Y) :
  List.length (map2 f l m) = Nat.min (List.length l) (List.length m).
Proof.
  revert m. induction l as [|x l IH]; intros [|y m]; simpl; auto.
Qed.

End ListFacts.

(** ** Operator assembly *)

Section Assembly.

Context {K : Type} `{Scalar K}.
Local Open Scope scalar_scope.

Lemma tab_ext (n : nat) (f g : Z -> Z -> K) :
  (forall i j, 0 <= i < Z.of_nat n -> 0 <= j < Z.of_nat n -> f i j = g i j) ->
  tab n f = tab n g.
Proof.
  intros E. unfold tab. apply map_ext_in. intros i Hi. apply in_seq in Hi.
  apply map_ext_in. intros j Hj. apply in_seq in Hj. apply E; lia.
Qed.

Lemma tab_length (n : nat) (f : Z -> Z -> K) : List.length (tab n f) = n.
Proof. unfold tab. now rewrite length_map, length_seq. Qed.

Lemma tab_row_length (n : nat) (f : Z -> Z -> K) (row : list K) :
  In row (tab n f) -> List.length row = n.
Proof.
  unfold tab. intros Hr. apply in_map_iff in Hr. destruct Hr as [i [<- _]].
  now rewrite length_map, length_seq.
Qed.

Lemma list_get_tab (n : nat) (f : Z -> Z -> K) (i : Z) :
  0 <= i < Z.of_nat n ->
  list_get (tab n f) i = Some (map (fun j => f i (Z.of_nat j)) (seq 0 n)).
Proof.
  intros Hi. unfold list_get, tab.
  destruct (Z.ltb_spec i 0); [lia|].
  rewrite nth_error_map_seq by lia. simpl. now rewrite Z2Nat.id by lia.
Qed.

Lemma coeff_tab (n : nat) (f : Z -> Z -> K) (i j : Z) :
  0 <= i < Z.of_nat n -> 0 <= j < Z.of_nat n ->
  coeff (tab n f) i j = Some (f i j).
Proof.
  intros Hi Hj. unfold coeff. rewrite list_get_tab by assumption.
  unfold list_get. destruct (Z.ltb_spec j 0); [lia|].
  rewrite nth_error_map_seq by lia. simpl. now rewrite Z2Nat.id by lia.
Qed.

Lemma assign_tab (n : nat) (f : Z -> Z -> K) (i j : Z) (v : K) :
  0 <= i < Z.of_nat n -> 0 <= j < Z.of_nat n ->
  assign (tab n f) i j v = Done (tab n (upd f i j v)).
Proof.
  intros Hi Hj. unfold assign. rewrite list_get_tab by assumption.
  unfold list_set.
  destruct (Z.ltb_spec j 0); [lia|]. destruct (Z.ltb_spec i 0); [lia|].
  rewrite set_nth_map_seq by lia.
  unfold tab at 1. rewrite set_nth_map_seq by lia.
  f_equal. unfold tab. apply map_ext_in. intros a Ha. apply in_seq in Ha. simpl.
  destruct (Nat.eqb_spec a (Z.to_nat i)) as [->|Ne].
  - apply map_ext_in. intros b Hb. apply in_seq in Hb. unfold upd.
    rewrite Z2Nat.id by lia. rewrite Z.eqb_refl. simpl.
    destruct (Nat.eqb_spec b (Z.to_nat j)) as [->|Nb].
    + rewrite Z2Nat.id by lia. now rewrite Z.eqb_refl.
    + destruct (Z.eqb_spec (Z.of_nat b) j); [lia|reflexivity].
  - apply map_ext_in. intros b Hb. unfold upd.
    destruct (Z.eqb_spec (Z.of_nat a) i); [lia|reflexivity].
Qed.

Lemma assign_tab_outside (n : nat) (f : Z -> Z -> K) (i j : Z) (v : K) :
  ~ (0 <= i < Z.of_nat n /\ 0 <= j < Z.of_nat n) ->
  assign (tab n f) i j v = OutOfRange i j.
Proof.
  intros Hout. unfold assign.
  destruct (list_get (tab n f) i) as [row|] eqn:Er; [|reflexivity].
  assert (Hi : 0 <= i < Z.of_nat n).
  { unfold list_get in Er. destruct (Z.ltb_spec i 0); [discriminate|].
    assert (Hlt : (Z.to_nat i < List.length (tab n f))%nat)
      by (apply nth_error_Some; congruence).
    rewrite tab_length in Hlt. lia. }
  rewrite list_get_tab in Er by assumption. injection Er as <-.
  unfold list_set at 1. destruct (Z.ltb_spec j 0); [reflexivity|].
  rewrite set_nth_beyond; [reflexivity|].
  rewrite length_map, length_seq. lia.
Qed.

Lemma Zero_tab (n : Z) :
  Zero n n = tab (Z.to_nat n) (fun _ _ => of_int 0).
Proof.
  unfold Zero, tab. set (m := Z.to_nat n).
  assert (R : forall (X Y : Type) (y : Y) (g : X -> Y) (l : list X),
             (forall x, g x = y) -> map g l = repeat y (List.length l)).
  { intros X Y y g l E. induction l; simpl; [reflexivity|]. now rewrite E, IHl. }
  rewrite (R _ _ (repeat (of_int 0) m) _ (seq 0 m)).
  - now rewrite length_seq.
  - intros x. rewrite (R _ _ (of_int 0) _ (seq 0 m)); [now rewrite length_seq|reflexivity].
Qed.

Lemma interior_rows_tab (n : nat) (k : nat) (i : Z) (fA fB : Z -> Z -> K) :
  1 <= i -> i + Z.of_nat k <= Z.of_nat n - 1 ->
  interior_rows k i (tab n fA) (tab n fB) =
  Done (tab n (banded (lit 1 6) (lit 4 6) (lit 1 6) fA i (Z.of_nat k)),
        tab n (banded (of_int 1) (of_int (-2)) (of_int 1) fB i (Z.of_nat k))).
Proof.
  revert i fA fB. induction k as [|k IH]; intros i fA fB Hi Hk.
  - simpl. f_equal. f_equal; apply tab_ext; intros a b _ _; unfold banded;
      destruct (Z.leb_spec i a), (Z.ltb_spec a (i + 0)); simpl; try reflexivity; lia.
  - cbn [interior_rows].
    repeat (rewrite assign_tab by lia; cbn [access_bind]).
    rewrite IH by lia. f_equal. f_equal; apply tab_ext; intros a b _ _;
      unfold banded, upd;
      repeat match goal with
        | |- context [Z.leb ?x ?y] => destruct (Z.leb_spec x y)
        | |- context [Z.ltb ?x ?y] => destruct (Z.ltb_spec x y)
        | |- context [Z.eqb ?x ?y] => destruct (Z.eqb_spec x y)
        end; simpl; try reflexivity; lia.
Qed.

(** The loop and the boundary writes stay inside an [n x n] matrix, for
    [n >= 2], and leave the stencils of the specification. *)
Lemma stencils_closed (num_x : Z) :
  2 <= num_x ->
  stencils num_x =
  Done (tab (Z.to_nat num_x) (averaging num_x),
        tab (Z.to_nat num_x) (second_difference num_x)).
Proof.
  intros Hn. unfold stencils. rewrite Zero_tab.
  rewrite interior_rows_tab by lia. cbn [access_bind].
  unfold boundary_rows.
  repeat (rewrite assign_tab by lia; cbn [access_bind]).
  f_equal. f_equal; apply tab_ext; intros a b Ha Hb;
    unfold banded, upd, averaging, second_difference;
    repeat match goal with
      | |- context [Z.leb ?x ?y] => destruct (Z.leb_spec x y)
      | |- context [Z.ltb ?x ?y] => destruct (Z.ltb_spec x y)
      | |- context [Z.eqb ?x ?y] => destruct (Z.eqb_spec x y)
      end; simpl; try reflexivity; lia.
Qed.

Lemma mat_div_tab (n : nat) (f : Z -> Z -> K) (s : K) :
  mat_div (tab n f) s = tab n (fun i j => f i j / s).
Proof.
  unfold mat_div, tab. rewrite map_map. apply map_ext. intros i.
  now rewrite map_map.
Qed.

Lemma mat_scale_tab (n : nat) (f : Z -> Z -> K) (s : K) :
  mat_scale s (tab n f) = tab n (fun i j => s * f i j).
Proof.
  unfold mat_scale, tab. rewrite map_map. apply map_ext. intros i.
  now rewrite map_map.
Qed.

Lemma map2_map_same {X Y Z' W : Type} (op : Y -> Z' -> W) (g : X -> Y) (h : X -> Z')
    (l : list X) :
  map2 op (map g l) (map h l) = map (fun x => op (g x) (h x)) l.
Proof. induction l; simpl; [reflexivity|]. now rewrite IHl. Qed.

Lemma map2_tab (op : K -> K -> K) (n : nat) (f g : Z -> Z -> K) :
  map2 (map2 op) (tab n f) (tab n g) = tab n (fun i j => op (f i j) (g i j)).
Proof.
  unfold tab. rewrite map2_map_same. apply map_ext. intros i.
  now rewrite map2_map_same.
Qed.

Lemma assemble_closed (num_x : Z) (dx : K) :
  2 <= num_x ->
  assemble num_x dx =
  Done (tab (Z.to_nat num_x) (averaging num_x),
        tab (Z.to_nat num_x) (diffusion num_x dx)).
Proof.
  intros Hn. unfold assemble. rewrite stencils_closed by assumption.
  cbn [access_bind]. now rewrite mat_div_tab.
Qed.

Lemma LHS_closed (num_x : Z) (dx factor : K) :
  LHS_of (tab (Z.to_nat num_x) (averaging num_x))
         (tab (Z.to_nat num_x) (diffusion num_x dx)) factor =
  tab (Z.to_nat num_x) (left_hand num_x dx factor).
Proof. unfold LHS_of, mat_sub. now rewrite mat_scale_tab, map2_tab. Qed.

Lemma RHS_closed (num_x : Z) (dx factor : K) :
  RHS_of (tab (Z.to_nat num_x) (averaging num_x))
         (tab (Z.to_nat num_x) (diffusion num_x dx)) factor =
  tab (Z.to_nat num_x) (right_hand num_x dx factor).
Proof. unfold RHS_of, mat_add. now rewrite mat_scale_tab, map2_tab. Qed.

End Assembly.

(** ** Shapes: the factorization and the solves keep the dimension *)

Section Shapes.

Context {K : Type} `{Scalar K}.
Local Open Scope scalar_scope.

Lemma tab_square (n : nat) (f : Z -> Z -> K) : square n (tab n f).
Proof. split; [apply tab_length|apply tab_row_length]. Qed.

Lemma swap_front_square (n : nat) (M : matrix K) (p : nat) :
  square n M -> square n (swap_front M p).
Proof.
  intros [Hl Hr]. split; [now rewrite swap_front_length|].
  intros row Hin. apply Hr. eapply swap_front_In; eauto.
Qed.

Lemma In_map2 {X Y W : Type} (f : X -> Y -> W) (l : list X) (m : list Y) (w : W) :
  In w (map2 f l m) -> exists x y, In x l /\ In y m /\ w = f x y.
Proof.
  revert m. induction l as [|x l IH]; intros [|y m] Hw; simpl in Hw; try easy.
  destruct Hw as [<-|Hw].
  - exists x, y. simpl. auto.
  - destruct (IH _ Hw) as [x' [y' [? [? ?]]]]. exists x', y'. simpl. auto.
Qed.

Lemma schur_square (n : nat) (r : list K) (l : list K) (rest : matrix K) :
  List.length r = n -> List.length l = n -> List.length rest = n ->
  (forall row, In row rest -> List.length row = S n) ->
  square n (map2 (eliminate r) l rest).
Proof.
  intros Hr Hl Hrest Hrows. split.
  - rewrite map2_length. lia.
  - intros row Hin. apply In_map2 in Hin. destruct Hin as [li [row' [_ [Hin ->]]]].
    unfold eliminate. rewrite map2_length.
    specialize (Hrows _ Hin). destruct row'; simpl in *; lia.
Qed.

Lemma lu_factor_shape (n : nat) (M : matrix K) :
  square n M -> lu_shape n (lu_factor n M).
Proof.
  revert M. induction n as [|n IH]; intros M HM; [exact I|].
  cbn [lu_factor].
  destruct (swap_front_square _ _ (row_of_biggest (map head0 M)) HM) as [Hl Hr].
  destruct (swap_front M (row_of_biggest (map head0 M))) as [|row0 rest]; [discriminate|].
  assert (H0 : List.length row0 = S n) by (apply Hr; now left).
  destruct row0 as [|a r]; [discriminate|].
  simpl in Hl, H0. cbn [lu_shape urow lcol]. repeat split.
  - simpl. lia.
  - rewrite length_map. lia.
  - apply IH. apply schur_square; try lia.
    + rewrite length_map. lia.
    + intros row Hin. apply Hr. now right.
Qed.

Lemma factorize_shape (n : nat) (M : matrix K) :
  square n M -> lu_shape n (factorize M).
Proof.
  intros HM. unfold factorize. destruct HM as [Hl Hr]. rewrite Hl.
  apply lu_factor_shape. now split.
Qed.

Lemma solve_length (n : nat) (lu : PartialPivLU K) (b : vec K) :
  lu_shape n lu -> List.length b = n -> List.length (solve lu b) = n.
Proof.
  revert n b. induction lu as [|st lu IH]; intros n b Hs Hb.
  - destruct n; [reflexivity|destruct Hs].
  - destruct n as [|m]; [destruct Hs|]. destruct Hs as [Hu [Hc Hs]].
    cbn [solve]. pose proof (swap_front_length b (pivot st)) as Hsw.
    destruct (swap_front b (pivot st)) as [|beta bs]; [simpl in Hsw; lia|].
    destruct (urow st) as [|a r]; [discriminate|].
    simpl. f_equal. apply IH; [assumption|].
    rewrite map2_length. simpl in Hsw. lia.
Qed.

Lemma mat_vec_length (M : matrix K) (x : vec K) :
  List.length (mat_vec M x) = List.length M.
Proof. unfold mat_vec. apply length_map. Qed.

Lemma step_length (n : nat) (RHS LHS : matrix K) (T : vec K) :
  square n LHS -> List.length RHS = n ->
  List.length (step RHS (factorize LHS) T) = n.
Proof.
  intros HL HR. unfold step. apply solve_length.
  - now apply factorize_shape.
  - now rewrite mat_vec_length.
Qed.

Lemma initial_conditions_length (num_x : Z) (dx : K) :
  List.length (initial_conditions num_x dx) = Z.to_nat num_x.
Proof. unfold initial_conditions. now rewrite length_map, length_seq. Qed.

End Shapes.

(** ** The time-stepping loop *)

Section TimeStepping.

Context {K : Type} `{Scalar K}.
Local Open Scope scalar_scope.

Lemma time_loop_closed (k : nat) (t num_t_steps : Z) (RHS : matrix K)
    (solver : PartialPivLU K) (T : vec K) (T_history : list (vec K)) :
  time_loop k t num_t_steps RHS solver T T_history =
  (loop_trace k t num_t_steps RHS solver T,
   inl (state_after k RHS solver T, T_history ++ states k RHS solver T)).
Proof.
  revert t T T_history. induction k as [|k IH]; intros t T T_history.
  - simpl. unfold ret. now rewrite app_nil_r.
  - cbn [time_loop loop_trace states state_after].
    fold (step RHS solver T).
    unfold bind at 1. cbn [emit]. unfold bind at 1. cbn [emit].
    unfold bind at 1.
    rewrite IH. unfold progress.
    destruct (progress_due t num_t_steps); cbn [emit ret app];
      rewrite <- app_assoc; reflexivity.
Qed.

Lemma states_length (k : nat) (RHS : matrix K) (solver : PartialPivLU K) (T : vec K) :
  List.length (states k RHS solver T) = k.
Proof. revert T. induction k; intros T; simpl; auto. Qed.

Lemma nth_states (k j : nat) (RHS : matrix K) (solver : PartialPivLU K) (T d : vec K) :
  (j < k)%nat ->
  nth j (states k RHS solver T) d = state_after (S j) RHS solver T.
Proof.
  revert j T. induction k as [|k IH]; intros j T Hj; [lia|].
  destruct j as [|j]; [reflexivity|]. simpl. apply IH. lia.
Qed.

Lemma state_after_S (k : nat) (RHS : matrix K) (solver : PartialPivLU K) (T : vec K) :
  state_after (S k) RHS solver T = step RHS solver (state_after k RHS solver T).
Proof. revert T. induction k as [|k IH]; intros T; [reflexivity|]. simpl. apply IH. Qed.

Lemma firstn_states (k j : nat) (RHS : matrix K) (solver : PartialPivLU K) (T : vec K) :
  (j <= k)%nat ->
  firstn j (states k RHS solver T) = states j RHS solver T.
Proof.
  revert j T. induction k as [|k IH]; intros j T Hj.
  - replace j with O by lia. reflexivity.
  - destruct j as [|j]; [reflexivity|]. simpl. f_equal. apply IH. lia.
Qed.

End TimeStepping.

(** ** A whole run, in closed form *)

Section Run.

Context {K : Type} `{Scalar K}.
Local Open Scope scalar_scope.

Lemma simulate_closed (p : params K) (num_x num_t_steps : Z) :
  2 <= num_x < INT_MAX ->
  step_count (total_time p) (dt p) = Some num_t_steps ->
  simulate p num_x =
  (setup_trace p num_x num_t_steps ++ run_loop_trace p num_x num_t_steps,
   inl (run_history p num_x num_t_steps)).
Proof.
  intros Hn Hs. unfold simulate.
  destruct (Z.leb_spec INT_MAX num_x); [lia|].
  rewrite Hs. rewrite assemble_closed by lia.
  unfold setup_trace, warning, run_loop_trace, run_history, run_LHS, run_RHS.
  destruct (courant_warns (courant (alpha p) (dt p) (spacing num_x)));
    cbn [bind emit ret checked app];
    rewrite LHS_closed, RHS_closed, time_loop_closed;
    cbn [bind ret app]; rewrite ?app_nil_r; reflexivity.
Qed.

Lemma step_files_closed (prefix : string) (num_x : Z) (dx : K) (t : nat)
    (T_history : list (vec K)) :
  step_files prefix num_x dx t T_history =
  (step_file_events prefix num_x dx t T_history, inl tt).
Proof.
  revert t. induction T_history as [|T rest IH]; intros t; [reflexivity|].
  cbn [step_files step_file_events]. unfold bind, emit. now rewrite IH.
Qed.

Lemma output_results_closed (p : params K) (num_x : Z) (T_history : list (vec K)) :
  output_results p num_x (spacing num_x) T_history =
  (output_trace p num_x T_history, inl tt).
Proof.
  unfold output_results, output_trace. unfold bind at 1. cbn [emit].
  unfold bind at 1. rewrite step_files_closed. reflexivity.
Qed.

Lemma main_closed (cl : cmdline K) (p : params K) (num_x num_t_steps : Z) :
  accepted cl p num_x ->
  2 <= num_x < INT_MAX ->
  step_count (total_time p) (dt p) = Some num_t_steps ->
  main cl =
  (setup_trace p num_x num_t_steps ++ run_loop_trace p num_x num_t_steps
     ++ output_trace p num_x (run_history p num_x num_t_steps),
   Exit 0).
Proof.
  intros [Hopt [rest Hpos]] Hn Hs. unfold main. rewrite Hopt, Hpos.
  unfold bind at 1. cbn [ret cell_count]. unfold bind at 1. cbn [ret].
  destruct (Z.leb_spec num_x 0); [lia|].
  rewrite (simulate_closed _ _ _ Hn Hs). unfold bind at 1.
  rewrite output_results_closed. unfold bind. cbn [ret run].
  cbn [app]. now rewrite app_nil_r, <- app_assoc.
Qed.

End Run.

(** ** Operator assembly: the claims *)

Section AssemblyClaims.

Context {K : Type} `{Scalar K}.
Local Open Scope scalar_scope.

(** C2. For every cell count of at least 2, assembly stays in bounds and
    returns two [num_x x num_x] matrices: the averaging operator has rows
    [1/6, 4/6, 1/6] at columns [(i-1, i, i+1)] for [1 <= i <= num_x-2],
    [4/6, 2/6] at columns [(0, 1)] of row 0, [2/6, 4/6] at columns
    [(num_x-2, num_x-1)] of the last row; the diffusion operator before
    scaling has [1, -2, 1], [-2, 2] and [2, -2] at the same places; every
    other coefficient is zero; and each coefficient of the diffusion
    operator is then divided by [dx * dx]. *)
Theorem operator_assembly (num_x : Z) (dx : K) :
  2 <= num_x ->
  exists A B0 B : matrix K,
    stencils num_x = Done (A, B0) /\
    assemble num_x dx = Done (A, B) /\
    square (Z.to_nat num_x) A /\ square (Z.to_nat num_x) B /\
    (forall i, 1 <= i <= num_x - 2 ->
       coeff A i (i - 1) = Some (lit 1 6) /\
       coeff A i i = Some (lit 4 6) /\
       coeff A i (i + 1) = Some (lit 1 6) /\
       coeff B0 i (i - 1) = Some (of_int 1) /\
       coeff B0 i i = Some (of_int (-2)) /\
       coeff B0 i (i + 1) = Some (of_int 1)) /\
    (coeff A 0 0 = Some (lit 4 6) /\ coeff A 0 1 = Some (lit 2 6) /\
     coeff B0 0 0 = Some (of_int (-2)) /\ coeff B0 0 1 = Some (of_int 2)) /\
    (coeff A (num_x - 1) (num_x - 2) = Some (lit 2 6) /\
     coeff A (num_x - 1) (num_x - 1) = Some (lit 4 6) /\
     coeff B0 (num_x - 1) (num_x - 2) = Some (of_int 2) /\
     coeff B0 (num_x - 1) (num_x - 1) = Some (of_int (-2))) /\
    (forall i j, 0 <= i < num_x -> 0 <= j < num_x ->
       coeff A i j = Some (averaging num_x i j) /\
       coeff B0 i j = Some (second_difference num_x i j) /\
       coeff B i j = Some (second_difference num_x i j / (dx * dx))) /\
    (forall i j, 0 <= i < num_x -> 0 <= j < num_x ->
       (j < i - 1 \/ i + 1 < j) ->
       coeff A i j = Some (of_int 0) /\ coeff B0 i j = Some (of_int 0)).
Proof.
  intros Hn.
  exists (tab (Z.to_nat num_x) (averaging num_x)),
         (tab (Z.to_nat num_x) (second_difference num_x)),
         (tab (Z.to_nat num_x) (diffusion num_x dx)).
  assert (E : forall (f : Z -> Z -> K) i j, 0 <= i < num_x -> 0 <= j < num_x ->
            coeff (tab (Z.to_nat num_x) f) i j = Some (f i j)).
  { intros f i j Hi Hj. apply coeff_tab; lia. }
  split; [now apply stencils_closed|].
  split; [now apply assemble_closed|].
  split; [apply tab_square|]. split; [apply tab_square|].
  split; [|split; [|split; [|split]]].
  - intros i Hi. rewrite !E by lia. unfold averaging, second_difference.
    repeat match goal with
      | |- context [Z.eqb ?x ?y] => destruct (Z.eqb_spec x y); try lia
      end. repeat split.
  - rewrite !E by lia. unfold averaging, second_difference. simpl. repeat split.
  - rewrite !E by lia. unfold averaging, second_difference.
    repeat match goal with
      | |- context [Z.eqb ?x ?y] => destruct (Z.eqb_spec x y); try lia
      end; repeat split.
  - intros i j Hi Hj. rewrite !E by lia. repeat split.
  - intros i j Hi Hj Hfar. rewrite !E by lia. unfold averaging, second_difference.
    repeat match goal with
      | |- context [Z.eqb ?x ?y] => destruct (Z.eqb_spec x y); try lia
      end; repeat split.
Qed.

(** C6. With one cell the assembly does not stay in bounds: after
    [A(0, 0)] the write [A(0, 1)] addresses column 1 of a [1 x 1] matrix,
    and the run stops there. *)
Theorem single_cell_assembly_out_of_range (dx : K) :
  stencils (K := K) 1 = OutOfRange 0 1 /\
  assemble 1 dx = OutOfRange 0 1 /\
  (forall p : params K,
     step_count (total_time p) (dt p) <> None ->
     snd (simulate p 1) = inr (IndexOutOfRange 0 1)).
Proof.
  assert (E : stencils (K := K) 1 = OutOfRange 0 1).
  { unfold stencils. rewrite Zero_tab. cbn [Z.sub Z.to_nat Z.add Z.opp Z.pos_sub
      interior_rows access_bind]. unfold boundary_rows.
    rewrite assign_tab by (simpl; lia). cbn [access_bind].
    rewrite assign_tab_outside by (simpl; lia). reflexivity. }
  split; [exact E|]. split; [unfold assemble; now rewrite E|].
  intros p Hs. unfold simulate. change (INT_MAX <=? 1) with false. cbv iota.
  destruct (step_count (total_time p) (dt p)); [|congruence].
  unfold assemble. rewrite E. cbn [access_bind checked].
  destruct (courant_warns _); reflexivity.
Qed.

End AssemblyClaims.

Lemma operator_assembly_witness :
  2 <= 3 /\
  exists A B0 B : matrix Qc,
    stencils 3 = Done (A, B0) /\ assemble 3 (spacing 3) = Done (A, B) /\
    coeff A 0 1 = Some (lit 2 6) /\ coeff B0 1 1 = Some (of_int (-2)).
Proof.
  split; [lia|].
  destruct (operator_assembly (K := Qc) 3 (spacing 3) ltac:(lia))
    as [A [B0 [B [E1 [E2 [_ [_ [Hint [Hfirst _]]]]]]]]].
  exists A, B0, B. repeat split; try assumption.
  - apply Hfirst.
  - apply (Hint 1). lia.
Defined.

Lemma initial_conditions_get {K : Type} `{Scalar K} (num_x : Z) (dx : K) (i : Z) :
  0 <= i < num_x ->
  list_get (initial_conditions num_x dx) i = Some (initial_temperature dx i).
Proof.
  intros Hi. unfold list_get, initial_conditions.
  destruct (Z.ltb_spec i 0); [lia|].
  rewrite nth_error_map_seq by lia. simpl. now rewrite Z2Nat.id by lia.
Qed.

(** ** Reading a trace *)

Section Traces.

Context {K : Type}.

Lemma stderr_of_app (a b : list (event K)) :
  stderr_of (a ++ b) = stderr_of a ++ stderr_of b.
Proof. apply flat_map_app. Qed.

Lemma factorizations_app (a b : list (event K)) :
  factorizations (a ++ b) = factorizations a ++ factorizations b.
Proof. apply flat_map_app. Qed.

Lemma solvers_app (a b : list (event K)) :
  solvers (a ++ b) = solvers a ++ solvers b.
Proof. apply flat_map_app. Qed.

Lemma pushed_app (a b : list (event K)) :
  pushed (a ++ b) = pushed a ++ pushed b.
Proof. apply flat_map_app. Qed.

Lemma courant_numbers_app (a b : list (event K)) :
  courant_numbers (a ++ b) = courant_numbers a ++ courant_numbers b.
Proof. apply flat_map_app. Qed.

End Traces.

Section TraceFacts.

Context {K : Type} `{Scalar K}.
Local Open Scope scalar_scope.

Variables (RHS : matrix K) (solver : PartialPivLU K) (num_t_steps : Z).

Lemma progress_quiet (t : Z) :
  factorizations (progress (K := K) t num_t_steps) = [] /\
  solvers (progress (K := K) t num_t_steps) = [] /\
  pushed (progress (K := K) t num_t_steps) = [] /\
  stderr_of (progress (K := K) t num_t_steps) = [] /\
  courant_numbers (progress (K := K) t num_t_steps) = [].
Proof. unfold progress. destruct (progress_due t num_t_steps); repeat split. Qed.

Lemma loop_trace_unfold (k : nat) (t : Z) (T : vec K) :
  loop_trace (S k) t num_t_steps RHS solver T =
  [Solve solver (mat_vec RHS T); PushBack (step RHS solver T)]
    ++ progress t num_t_steps
    ++ loop_trace k (t + 1) num_t_steps RHS solver (step RHS solver T).
Proof. reflexivity. Qed.

Lemma loop_trace_factorizations (k : nat) (t : Z) (T : vec K) :
  factorizations (loop_trace k t num_t_steps RHS solver T) = [].
Proof.
  revert t T. induction k as [|k IH]; intros t T; [reflexivity|].
  rewrite loop_trace_unfold, !factorizations_app, IH.
  now rewrite (proj1 (progress_quiet t)).
Qed.

Lemma loop_trace_solvers (k : nat) (t : Z) (T : vec K) :
  solvers (loop_trace k t num_t_steps RHS solver T) = repeat solver k.
Proof.
  revert t T. induction k as [|k IH]; intros t T; [reflexivity|].
  rewrite loop_trace_unfold, !solvers_app, IH.
  now rewrite (proj1 (proj2 (progress_quiet t))).
Qed.

Lemma loop_trace_pushed (k : nat) (t : Z) (T : vec K) :
  pushed (loop_trace k t num_t_steps RHS solver T) = states k RHS solver T.
Proof.
  revert t T. induction k as [|k IH]; intros t T; [reflexivity|].
  rewrite loop_trace_unfold, !pushed_app, IH.
  now rewrite (proj1 (proj2 (proj2 (progress_quiet t)))).
Qed.

Lemma loop_trace_stderr (k : nat) (t : Z) (T : vec K) :
  stderr_of (loop_trace k t num_t_steps RHS solver T) = [].
Proof.
  revert t T. induction k as [|k IH]; intros t T; [reflexivity|].
  rewrite loop_trace_unfold, !stderr_of_app, IH.
  now rewrite (proj1 (proj2 (proj2 (proj2 (progress_quiet t))))).
Qed.

Lemma loop_trace_courant (k : nat) (t : Z) (T : vec K) :
  courant_numbers (loop_trace k t num_t_steps RHS solver T) = [].
Proof.
  revert t T. induction k as [|k IH]; intros t T; [reflexivity|].
  rewrite loop_trace_unfold, !courant_numbers_app, IH.
  now rewrite (proj2 (proj2 (proj2 (proj2 (progress_quiet t))))).
Qed.

Lemma step_file_events_quiet (prefix : string) (num_x : Z) (dx : K) (t : nat)
    (h : list (vec K)) :
  stderr_of (step_file_events prefix num_x dx t h) = [] /\
  pushed (step_file_events prefix num_x dx t h) = [] /\
  courant_numbers (step_file_events prefix num_x dx t h) = [] /\
  solvers (step_file_events prefix num_x dx t h) = [].
Proof.
  revert t. induction h as [|T h IH]; intros t; [repeat split|].
  destruct (IH (S t)) as [E1 [E2 [E3 E4]]]. repeat split; assumption.
Qed.

Lemma output_trace_quiet (p : params K) (num_x : Z) (h : list (vec K)) :
  stderr_of (output_trace p num_x h) = [] /\
  pushed (output_trace p num_x h) = [] /\
  courant_numbers (output_trace p num_x h) = [] /\
  solvers (output_trace p num_x h) = [].
Proof.
  destruct (step_file_events_quiet (output_prefix p) num_x (spacing num_x) O h)
    as [E1 [E2 [E3 E4]]].
  unfold output_trace.
  change (Stdout WritingResults :: ?l) with ([Stdout (K := K) WritingResults] ++ l).
  rewrite !stderr_of_app, !pushed_app, !courant_numbers_app, !solvers_app.
  rewrite E1, E2, E3, E4. repeat split.
Qed.

End TraceFacts.

Section SetupFacts.

Context {K : Type} `{Scalar K}.
Local Open Scope scalar_scope.

Lemma setup_trace_split (p : params K) (num_x num_t_steps : Z) :
  exists pre post,
    setup_trace p num_x num_t_steps =
      pre ++ [Factorization (run_LHS p num_x)] ++ post /\
    solvers pre = [] /\ factorizations pre = [] /\
    solvers post = [] /\ factorizations post = [] /\
    pushed pre = [] /\ pushed post = [initial_conditions num_x (spacing num_x)] /\
    stderr_of (pre ++ [Factorization (run_LHS p num_x)] ++ post) =
      (if courant_warns (courant (alpha p) (dt p) (spacing num_x))
       then [CourantWarning] else []) /\
    courant_numbers (pre ++ [Factorization (run_LHS p num_x)] ++ post) =
      [courant (alpha p) (dt p) (spacing num_x)].
Proof.
  unfold setup_trace, warning, run_LHS.
  destruct (courant_warns (courant (alpha p) (dt p) (spacing num_x))).
  - eexists (_ :: _ :: _ :: _ :: _ :: _ :: _ :: _ :: _ :: _ :: _ :: nil), _.
    split; [reflexivity|]. repeat split.
  - eexists (_ :: _ :: _ :: _ :: _ :: _ :: _ :: _ :: _ :: _ :: nil), _.
    split; [reflexivity|]. repeat split.
Qed.

End SetupFacts.

(** ** System, stepping, stability check: the claims *)

Section RunClaims.

Context {K : Type} `{Scalar K}.
Local Open Scope scalar_scope.

(** C1. In every run with at least 2 cells, with
    [factor = alpha * dt / 2]: each coefficient of the left-hand
    operator is that of the averaging operator minus [factor] times that
    of the (scaled) diffusion operator, each coefficient of the
    right-hand operator is the same with plus; the run factorizes once,
    the left-hand operator, before its first solve, and every solve of
    the loop is made with that factorization. *)
Theorem crank_nicolson_system (p : params K) (num_x num_t_steps : Z) :
  2 <= num_x < INT_MAX ->
  step_count (total_time p) (dt p) = Some num_t_steps ->
  let dx := spacing num_x in
  let factor := cn_factor (alpha p) (dt p) in
  factor = alpha p * dt p / of_int 2 /\
  exists A B : matrix K,
    assemble num_x dx = Done (A, B) /\
    (forall i j, 0 <= i < num_x -> 0 <= j < num_x ->
       exists a b,
         coeff A i j = Some a /\ coeff B i j = Some b /\
         coeff (LHS_of A B factor) i j = Some (a - factor * b) /\
         coeff (RHS_of A B factor) i j = Some (a + factor * b)) /\
    factorizations (fst (simulate p num_x)) = [LHS_of A B factor] /\
    solvers (fst (simulate p num_x)) =
      repeat (factorize (LHS_of A B factor)) (Z.to_nat num_t_steps) /\
    exists pre post,
      fst (simulate p num_x) = pre ++ Factorization (LHS_of A B factor) :: post /\
      solvers pre = [] /\ factorizations pre = [] /\ factorizations post = [].
Proof.
  intros Hn Hs dx factor. split; [reflexivity|].
  exists (tab (Z.to_nat num_x) (averaging num_x)),
         (tab (Z.to_nat num_x) (diffusion num_x dx)).
  split; [apply assemble_closed; lia|].
  rewrite LHS_closed, RHS_closed. rewrite (simulate_closed _ _ _ Hn Hs). cbn [fst].
  destruct (setup_trace_split p num_x num_t_steps)
    as [pre [post [E [Sp [Fp [Sq [Fq _]]]]]]].
  rewrite E. unfold run_loop_trace.
  change (run_LHS p num_x) with (tab (Z.to_nat num_x) (left_hand num_x dx factor)) in *.
  change (run_RHS p num_x) with (tab (Z.to_nat num_x) (right_hand num_x dx factor)).
  split; [|split; [|split]].
  - intros i j Hi Hj. exists (averaging num_x i j), (diffusion num_x dx i j).
    rewrite !coeff_tab by lia. repeat split.
  - rewrite !factorizations_app, Fp, Fq, loop_trace_factorizations. reflexivity.
  - rewrite !solvers_app, Sp, Sq, loop_trace_solvers. reflexivity.
  - exists pre, (post ++ loop_trace (Z.to_nat num_t_steps) 0 num_t_steps
                   (tab (Z.to_nat num_x) (right_hand num_x dx factor))
                   (factorize (tab (Z.to_nat num_x) (left_hand num_x dx factor)))
                   (initial_conditions num_x dx)).
    split; [now rewrite <- !app_assoc|]. split; [assumption|]. split; [assumption|].
    now rewrite factorizations_app, Fq, loop_trace_factorizations.
Qed.

(** C7. The history is append-only.  In a run with at least 2 cells and
    [num_t_steps >= 0] steps the vectors appended are, in order, the
    history the loop ends with; the first is the initial state, entry
    [t + 1] is the solve made at step [t] from entry [t]; the history
    after [t] steps is the first [t + 1] entries of the final one (no
    entry changes once appended); it ends with [num_t_steps + 1]
    vectors, each with [num_x] entries. *)
Theorem history_append_only (p : params K) (num_x num_t_steps : Z) :
  2 <= num_x < INT_MAX ->
  step_count (total_time p) (dt p) = Some num_t_steps ->
  0 <= num_t_steps ->
  let dx := spacing num_x in
  let factor := cn_factor (alpha p) (dt p) in
  exists (A B : matrix K) (T_history : list (vec K)),
    assemble num_x dx = Done (A, B) /\
    snd (simulate p num_x) = inl T_history /\
    pushed (fst (simulate p num_x)) = T_history /\
    Z.of_nat (List.length T_history) = (num_t_steps + 1)%Z /\
    (forall T, In T T_history -> Z.of_nat (List.length T) = num_x) /\
    list_get T_history 0 = Some (initial_conditions num_x dx) /\
    (forall t, 0 <= t < num_t_steps ->
       exists T_current T_next,
         list_get T_history t = Some T_current /\
         list_get T_history (t + 1) = Some T_next /\
         T_next = solve (factorize (LHS_of A B factor))
                    (mat_vec (RHS_of A B factor) T_current)) /\
    (forall t, 0 <= t <= num_t_steps ->
       exists T_current,
         snd (time_loop (Z.to_nat t) 0 num_t_steps (RHS_of A B factor)
                (factorize (LHS_of A B factor)) (initial_conditions num_x dx)
                [initial_conditions num_x dx]) =
         inl (T_current, firstn (Z.to_nat t + 1) T_history)).
Proof.
  intros Hn Hs Hsteps dx factor.
  exists (tab (Z.to_nat num_x) (averaging num_x)),
         (tab (Z.to_nat num_x) (diffusion num_x dx)),
         (run_history p num_x num_t_steps).
  rewrite LHS_closed, RHS_closed. rewrite (simulate_closed _ _ _ Hn Hs). cbn [fst snd].
  unfold run_history, run_loop_trace.
  change (run_LHS p num_x) with (tab (Z.to_nat num_x) (left_hand num_x dx factor)).
  change (run_RHS p num_x) with (tab (Z.to_nat num_x) (right_hand num_x dx factor)).
  change (spacing num_x) with dx.
  set (LHS := tab (Z.to_nat num_x) (left_hand num_x dx factor)).
  set (RHS := tab (Z.to_nat num_x) (right_hand num_x dx factor)).
  set (T0 := initial_conditions num_x dx).
  assert (HL : square (Z.to_nat num_x) LHS) by apply tab_square.
  assert (HR : List.length RHS = Z.to_nat num_x) by apply tab_length.
  assert (Hlen : forall k T, List.length T = Z.to_nat num_x ->
            forall T', In T' (states k RHS (factorize LHS) T) ->
                       List.length T' = Z.to_nat num_x).
  { induction k as [|k IH]; intros T HT T' Hin; [destruct Hin|].
    destruct Hin as [<-|Hin]; [now apply step_length|].
    eapply IH; [|exact Hin]. now apply step_length. }
  split; [apply assemble_closed; lia|]. split; [reflexivity|].
  split; [|split; [|split; [|split; [|split]]]].
  - destruct (setup_trace_split p num_x num_t_steps)
      as [pre [post [E [_ [_ [_ [_ [Pp [Pq _]]]]]]]]].
    rewrite E. rewrite !pushed_app, Pp, Pq, loop_trace_pushed. reflexivity.
  - cbn [List.length]. rewrite states_length. lia.
  - intros T [<-|Hin].
    + unfold T0. rewrite initial_conditions_length. lia.
    + rewrite (Hlen (Z.to_nat num_t_steps) T0 (initial_conditions_length _ _) T Hin).
      lia.
  - reflexivity.
  - intros t Ht.
    exists (state_after (Z.to_nat t) RHS (factorize LHS) T0),
           (state_after (S (Z.to_nat t)) RHS (factorize LHS) T0).
    split; [|split].
    + unfold list_get. destruct (Z.ltb_spec t 0); [lia|].
      destruct (Z.to_nat t) as [|j] eqn:Ej; [reflexivity|].
      cbn [nth_error]. rewrite (nth_error_nth' _ T0) by (rewrite states_length; lia).
      f_equal. apply nth_states. lia.
    + unfold list_get. destruct (Z.ltb_spec (t + 1) 0); [lia|].
      replace (Z.to_nat (t + 1)) with (S (Z.to_nat t)) by lia.
      cbn [nth_error]. rewrite (nth_error_nth' _ T0) by (rewrite states_length; lia).
      f_equal. apply nth_states. lia.
    + apply state_after_S.
  - intros t Ht. rewrite time_loop_closed. cbn [snd].
    eexists. f_equal. f_equal.
    replace (Z.to_nat t + 1)%nat with (S (Z.to_nat t)) by lia.
    cbn [app firstn]. f_equal. symmetry. apply firstn_states. lia.
Qed.

(** C8. The stability ratio [alpha * dt / (dx * dx)] is computed and
    printed once, before stepping; the warning is written if and only if
    the ratio exceeds 0.5; and with or without it the run goes through
    every time step and exits with status 0. *)
Theorem stability_advisory (cl : cmdline K) (p : params K) (num_x num_t_steps : Z) :
  accepted cl p num_x ->
  2 <= num_x < INT_MAX ->
  step_count (total_time p) (dt p) = Some num_t_steps ->
  let dx := spacing num_x in
  let courant_number := smul (alpha p) (dt p) / (dx * dx) in
  courant_numbers (fst (main cl)) = [courant_number] /\
  stderr_of (fst (main cl)) =
    (if sltb (lit 5 10) courant_number then [CourantWarning] else []) /\
  (In (Stderr CourantWarning) (fst (main cl)) <->
     sltb (lit 5 10) courant_number = true) /\
  (exists pre post,
     fst (main cl) = pre ++ Stdout (CourantNumber courant_number) :: post /\
     solvers pre = []) /\
  List.length (solvers (fst (main cl))) = Z.to_nat num_t_steps /\
  List.length (pushed (fst (main cl))) = S (Z.to_nat num_t_steps) /\
  snd (main cl) = Exit 0.
Proof.
  intros Hacc Hn Hs dx courant_number.
  rewrite (main_closed _ _ _ _ Hacc Hn Hs). cbn [fst snd].
  destruct (setup_trace_split p num_x num_t_steps)
    as [pre [post [E [Sp [_ [Sq [_ [Pp [Pq [Ee Ec]]]]]]]]]].
  destruct (output_trace_quiet p num_x (run_history p num_x num_t_steps))
    as [Oe [Op [Oc Os]]].
  assert (Herr : stderr_of
            (setup_trace p num_x num_t_steps ++ run_loop_trace p num_x num_t_steps
               ++ output_trace p num_x (run_history p num_x num_t_steps)) =
            (if sltb (lit 5 10) courant_number then [CourantWarning] else [])).
  { rewrite E, stderr_of_app, Ee, stderr_of_app, Oe.
    unfold run_loop_trace. rewrite loop_trace_stderr. now rewrite !app_nil_r. }
  split; [|split; [|split; [|split; [|split; [|split]]]]].
  - rewrite E, courant_numbers_app, Ec, courant_numbers_app, Oc.
    unfold run_loop_trace. now rewrite loop_trace_courant.
  - exact Herr.
  - assert (Hin : forall tr : list (event K),
              In (Stderr CourantWarning) tr <-> In CourantWarning (stderr_of tr)).
    { intros tr. unfold stderr_of. rewrite in_flat_map. split.
      - intros Hin. exists (Stderr CourantWarning). split; [assumption|now left].
      - intros [e [Hin He]]. destruct e; try destruct He.
        + now subst.
        + destruct H0. }
    rewrite Hin, Herr.
    destruct (sltb (lit 5 10) courant_number); split; intros Hx;
      try reflexivity; try discriminate; try (now left); destruct Hx.
  - unfold setup_trace. exists [Stdout (Banner num_x (alpha p) (spacing num_x) (dt p)
                                        (total_time p) num_t_steps (output_prefix p))].
    eexists. split; [reflexivity|reflexivity].
  - rewrite E, !solvers_app, Sp, Sq, Os.
    unfold run_loop_trace. rewrite loop_trace_solvers.
    cbn [app solvers flat_map]. rewrite app_nil_r. apply repeat_length.
  - rewrite E, !pushed_app, Pp, Pq, Op.
    unfold run_loop_trace. rewrite loop_trace_pushed.
    cbn [app pushed flat_map List.length]. rewrite app_nil_r, states_length.
    reflexivity.
  - reflexivity.
Qed.

End RunClaims.

Lemma example_accepted : accepted example_cmdline example_params 3.
Proof. split; [reflexivity|]. exists []. reflexivity. Qed.

Lemma example_step_count :
  step_count (total_time example_params) (dt example_params) = Some 3.
Proof. vm_compute. reflexivity. Qed.

Lemma example_cells : 2 <= 3 < INT_MAX.
Proof. unfold INT_MAX. lia. Qed.

Lemma crank_nicolson_system_witness :
  2 <= 3 < INT_MAX /\
  step_count (total_time example_params) (dt example_params) = Some 3 /\
  exists A B : matrix Qc,
    assemble 3 (spacing 3) = Done (A, B) /\
    factorizations (fst (simulate example_params 3)) =
      [LHS_of A B (cn_factor (alpha example_params) (dt example_params))] /\
    solvers (fst (simulate example_params 3)) =
      repeat (factorize (LHS_of A B (cn_factor (alpha example_params)
                                       (dt example_params)))) 3.
Proof.
  split; [exact example_cells|]. split; [exact example_step_count|].
  destruct (crank_nicolson_system example_params 3 3 example_cells example_step_count)
    as [_ [A [B [E [_ [F [S _]]]]]]].
  exists A, B. repeat split; assumption.
Defined.

Lemma history_append_only_witness :
  2 <= 3 < INT_MAX /\
  step_count (total_time example_params) (dt example_params) = Some 3 /\
  0 <= 3 /\
  exists T_history : list (vec Qc),
    snd (simulate example_params 3) = inl T_history /\
    pushed (fst (simulate example_params 3)) = T_history /\
    Z.of_nat (List.length T_history) = 3 + 1 /\
    (forall T, In T T_history -> Z.of_nat (List.length T) = 3).
Proof.
  split; [exact example_cells|]. split; [exact example_step_count|].
  split; [lia|].
  destruct (history_append_only example_params 3 3 example_cells example_step_count
              ltac:(lia))
    as [A [B [h [_ [E [P [L' [R _]]]]]]]].
  exists h. repeat split; assumption.
Defined.

Lemma stability_advisory_witness :
  accepted example_cmdline example_params 3 /\
  2 <= 3 < INT_MAX /\
  step_count (total_time example_params) (dt example_params) = Some 3 /\
  stderr_of (fst (main example_cmdline)) =
    (if sltb (lit 5 10)
          (sdiv (smul (alpha example_params) (dt example_params))
                (smul (spacing 3) (spacing 3)))
     then [CourantWarning] else []) /\
  snd (main example_cmdline) = Exit 0.
Proof.
  split; [exact example_accepted|]. split; [exact example_cells|].
  split; [exact example_step_count|].
  destruct (stability_advisory example_cmdline example_params 3 3 example_accepted
              example_cells example_step_count)
    as [_ [E [_ [_ [_ [_ X]]]]]].
  split; assumption.
Defined.

(** ** Invalid configurations *)

Section CommandLine.

Context {K : Type} `{Scalar K}.

Lemma bind_ret (X Y : Type) (x : X) (k : X -> prog K Y) : bind (ret x) k = k x.
Proof. unfold bind, ret. destruct (k x). reflexivity. Qed.

Lemma getopt_loop_outcome (opts : list (option_token K)) (p : params K) :
  (exists p', getopt_loop opts p = ret p' /\ ~ unparsable opts) \/
  getopt_loop opts p = ([], inr (Terminate stod_failure)) \/
  (getopt_loop opts p = ([Stderr Usage], inr (Exit 0)) /\ In OptHelp opts) \/
  (getopt_loop opts p = ([Stderr Usage], inr (Exit 1)) /\ In OptUnknown opts).
Proof.
  revert p. induction opts as [|o opts IH]; intros p.
  - left. exists p. split; [reflexivity|]. unfold unparsable. simpl. tauto.
  - assert (Hstep : forall q,
      (exists p', getopt_loop opts q = ret p' /\ ~ unparsable opts) \/
      getopt_loop opts q = ([], inr (Terminate stod_failure)) \/
      (getopt_loop opts q = ([Stderr Usage], inr (Exit 0)) /\ In OptHelp (o :: opts)) \/
      (getopt_loop opts q = ([Stderr Usage], inr (Exit 1)) /\ In OptUnknown (o :: opts))).
    { intros q. destruct (IH q) as [?|[?|[[? ?]|[? ?]]]]; simpl; tauto. }
    assert (Hkeep : forall q,
      (forall x, o <> OptAlpha x) -> (forall x, o <> OptDt x) ->
      (forall x, o <> OptTime x) ->
      (exists p', getopt_loop opts q = ret p' /\ ~ unparsable opts) ->
      exists p', getopt_loop opts q = ret p' /\ ~ unparsable (o :: opts)).
    { intros q Ha Hd Ht [p' [E Hu]]. exists p'. split; [exact E|].
      unfold unparsable in *. simpl. intros [[?|?]|[[?|?]|[?|?]]];
        try tauto; subst o; [eapply Ha|eapply Hd|eapply Ht]; reflexivity. }
    assert (Hsome : forall q o',
      o' = o -> (exists v, o = OptAlpha (Some v) \/ o = OptDt (Some v)
                           \/ o = OptTime (Some v)) ->
      (exists p', getopt_loop opts q = ret p' /\ ~ unparsable opts) ->
      exists p', getopt_loop opts q = ret p' /\ ~ unparsable (o :: opts)).
    { intros q o' _ [v Hv] [p' [E Hu]]. exists p'. split; [exact E|].
      unfold unparsable in *. simpl.
      intros [[?|?]|[[?|?]|[?|?]]]; try tauto;
        destruct Hv as [?|[?|?]]; congruence. }
    destruct o as [[v|]|[v|]|[v|]|s| |]; cbn [getopt_loop stod];
      rewrite ?bind_ret.
    + destruct (Hstep {| alpha := v; dt := dt p; total_time := total_time p;
                         output_prefix := output_prefix p |}) as [Hok|Hbad];
        [left; eapply Hsome; eauto|right; exact Hbad].
    + right. left. reflexivity.
    + destruct (Hstep {| alpha := alpha p; dt := v; total_time := total_time p;
                         output_prefix := output_prefix p |}) as [Hok|Hbad];
        [left; eapply Hsome; eauto|right; exact Hbad].
    + right. left. reflexivity.
    + destruct (Hstep {| alpha := alpha p; dt := dt p; total_time := v;
                         output_prefix := output_prefix p |}) as [Hok|Hbad];
        [left; eapply Hsome; eauto|right; exact Hbad].
    + right. left. reflexivity.
    + destruct (Hstep {| alpha := alpha p; dt := dt p; total_time := total_time p;
                         output_prefix := s |}) as [Hok|Hbad];
        [left; apply Hkeep; try discriminate; exact Hok|right; exact Hbad].
    + right. right. left. split; [reflexivity|now left].
    + right. right. right. split; [reflexivity|now left].
Qed.

End CommandLine.

Section InvalidConfiguration.

Context {K : Type} `{Scalar K}.

(** What the invalid configurations do (a cell count that is missing or
    not positive, a numeric option that does not convert): the run writes
    nothing but messages on the error stream.  A missing cell count
    prints the error and the usage and exits with status 1; a cell count
    of 0 or less prints the error and exits with status 1; an argument
    that does not convert ends the run by the uncaught exception of the
    conversion, with no message of the program; when [--help] or an
    unknown option comes first, the usage text is printed and the run
    exits with status 0 or 1. *)
Lemma invalid_runs_write_errors_only (cl : cmdline K) :
  invalid cl ->
  forallb is_stderr (fst (main cl)) = true /\
  (fst (main cl) <> [] \/ snd (main cl) = Terminate stod_failure) /\
  (snd (main cl) = Exit 1 \/ snd (main cl) = Terminate stod_failure \/
   (snd (main cl) = Exit 0 /\ In OptHelp (options cl))) /\
  (forall p, getopt_loop (options cl) defaults = ret p ->
     positional cl = [] ->
     main cl = ([Stderr CellsRequired; Stderr Usage], Exit 1)) /\
  (forall p num_x rest, getopt_loop (options cl) defaults = ret p ->
     positional cl = Some num_x :: rest -> num_x <= 0 ->
     main cl = ([Stderr CellsPositive], Exit 1)) /\
  (unparsable (options cl) ->
     ~ In OptHelp (options cl) -> ~ In OptUnknown (options cl) ->
     main cl = ([], Terminate stod_failure)).
Proof.
  intros Hinv.
  assert (Hmissing : forall p, getopt_loop (options cl) defaults = ret p ->
            positional cl = [] ->
            main cl = ([Stderr CellsRequired; Stderr Usage], Exit 1)).
  { intros p Ho Hp. unfold main. rewrite Ho, Hp, bind_ret. reflexivity. }
  assert (Hnonpos : forall p num_x rest,
            getopt_loop (options cl) defaults = ret p ->
            positional cl = Some num_x :: rest -> num_x <= 0 ->
            main cl = ([Stderr CellsPositive], Exit 1)).
  { intros p num_x rest Ho Hp Hle. unfold main. rewrite Ho, Hp, bind_ret.
    cbn [cell_count]. rewrite bind_ret.
    destruct (Z.leb_spec num_x 0); [reflexivity|lia]. }
  assert (Hstop : forall tr t, getopt_loop (options cl) defaults = (tr, inr t) ->
            main cl = (tr, t)).
  { intros tr t Ho. unfold main. rewrite Ho. reflexivity. }
  destruct (getopt_loop_outcome (options cl) defaults)
    as [[p [Ho Hu]]|[Ho|[[Ho Hh]|[Ho Hk]]]].
  - assert (E : main cl = ([Stderr CellsRequired; Stderr Usage], Exit 1) \/
                main cl = ([Stderr CellsPositive], Exit 1)).
    { destruct Hinv as [Hp|[[num_x [rest [Hp Hle]]]|Hbad]].
      - left. eapply Hmissing; eauto.
      - right. eapply Hnonpos; eauto.
      - contradiction. }
    repeat split.
    + destruct E as [-> | ->]; reflexivity.
    + left. destruct E as [-> | ->]; discriminate.
    + left. destruct E as [-> | ->]; reflexivity.
    + exact Hmissing.
    + exact Hnonpos.
    + intros Hbad. contradiction.
  - rewrite (Hstop _ _ Ho). repeat split.
    + now right.
    + right. now left.
    + intros p Hp. rewrite Ho in Hp. discriminate Hp.
    + intros p num_x rest Hp. rewrite Ho in Hp. discriminate Hp.
  - rewrite (Hstop _ _ Ho). repeat split.
    + left. discriminate.
    + right. right. split; [reflexivity|assumption].
    + intros p Hp. rewrite Ho in Hp. discriminate Hp.
    + intros p num_x rest Hp. rewrite Ho in Hp. discriminate Hp.
    + intros _ Hnh. contradiction.
  - rewrite (Hstop _ _ Ho). repeat split.
    + left. discriminate.
    + now left.
    + intros p Hp. rewrite Ho in Hp. discriminate Hp.
    + intros p num_x rest Hp. rewrite Ho in Hp. discriminate Hp.
    + intros _ _ Hnk. contradiction.
Qed.

End InvalidConfiguration.

(** C9.  The code misses the case of an argument that does not
    convert.  On [--alpha abc 3] (and the same with [--dt] or [--time])
    [std::stod] throws, [main] has no handler and the run ends through
    [std::terminate]: the program prints no error message and returns no
    exit status, where the sibling cases (no cell count, a cell count of
    0) print an error message and return 1. *)
Theorem unparsable_argument_uncaught :
  forall (K : Type) (H : Scalar K),
    main (K := K) {| options := [OptAlpha None]; positional := [Some 3] |} =
      ([], Terminate stod_failure) /\
    main (K := K) {| options := [OptDt None]; positional := [Some 3] |} =
      ([], Terminate stod_failure) /\
    main (K := K) {| options := [OptTime None]; positional := [Some 3] |} =
      ([], Terminate stod_failure) /\
    main (K := K) {| options := []; positional := [] |} =
      ([Stderr CellsRequired; Stderr Usage], Exit 1) /\
    main (K := K) {| options := []; positional := [Some 0] |} =
      ([Stderr CellsPositive], Exit 1).
Proof. intros K H. repeat split. Qed.

(** * Exact arithmetic

    What the solves return is decided where the arithmetic is exact: the
    program instantiated at the rationals [Qc]. *)

(** ** From [Qc] to its values in [Q] *)

Lemma Qc_eq_Qeq (a b : Qc) : a = b <-> (this a == this b)%Q.
Proof. split; [intros ->; reflexivity|apply Qc_is_canon]. Qed.

Ltac exact_ops :=
  cbn [sadd ssub smul sdiv sabs of_int sleb sltb to_int Qc_Scalar] in *.

Lemma this_plus (a b : Qc) : (this (a + b)%Qc == this a + this b)%Q.
Proof. apply Qred_correct. Qed.

Lemma this_minus (a b : Qc) : (this (a - b)%Qc == this a - this b)%Q.
Proof. unfold Qcminus, Qcplus, Qcopp, Q2Qc. cbn [this]. now rewrite !Qred_correct. Qed.

Lemma this_mult (a b : Qc) : (this (a * b)%Qc == this a * this b)%Q.
Proof. apply Qred_correct. Qed.

Lemma this_div (a b : Qc) : (this (a / b)%Qc == this a / this b)%Q.
Proof. unfold Qcdiv, Qcmult, Qcinv, Q2Qc. cbn [this]. now rewrite !Qred_correct. Qed.

Lemma this_opp (a : Qc) : (this (- a)%Qc == - this a)%Q.
Proof. apply Qred_correct. Qed.

Lemma this_abs (a : Qc) : (this (Qcabs.Qcabs a) == Qabs (this a))%Q.
Proof. reflexivity. Qed.

Lemma this_of_int (z : Z) : (this (Qc_of_int z) == inject_Z z)%Q.
Proof. unfold Qc_of_int, Q2Qc. cbn [this]. apply Qred_correct. Qed.

Ltac this_step :=
  first [ rewrite this_plus | rewrite this_minus | rewrite this_mult
        | rewrite this_div | rewrite this_abs | rewrite this_of_int
        | rewrite this_opp ].

Ltac this_step_in H :=
  first [ rewrite this_plus in H | rewrite this_minus in H | rewrite this_mult in H
        | rewrite this_div in H | rewrite this_abs in H | rewrite this_of_int in H
        | rewrite this_opp in H ].

(** From statements on [Qc] to statements on the values in [Q], where
    [lra] and [field] apply. *)
Ltac to_Q :=
  exact_ops; unfold lit in *; exact_ops;
  repeat match goal with
  | H : @eq Qc _ _ |- _ => apply Qc_eq_Qeq in H
  | H : ~ @eq Qc _ _ |- _ => rewrite Qc_eq_Qeq in H
  | |- @eq Qc _ _ => apply Qc_eq_Qeq
  | |- ~ @eq Qc _ _ => rewrite Qc_eq_Qeq
  end;
  unfold Qcle, Qclt in *;
  repeat this_step;
  repeat match goal with
  | H : Qeq _ _ |- _ => progress (repeat this_step_in H)
  | H : ~ Qeq _ _ |- _ => progress (repeat this_step_in H)
  | H : Qle _ _ |- _ => progress (repeat this_step_in H)
  | H : Qlt _ _ |- _ => progress (repeat this_step_in H)
  end;
  unfold inject_Z in *.

(** ** The factorization solves regular systems *)

Section DotProducts.
Local Open Scope scalar_scope.

Lemma dot_eliminate (l : Qc) (t r y : vec Qc) :
  List.length t = List.length r -> List.length r = List.length y ->
  dot (map2 (fun x u => x - l * u) t r) y = dot t y - l * dot r y.
Proof.
  revert r y. induction t as [|a t IH]; intros [|b r] [|c y] Ht Hr;
    try discriminate; cbn [map2 dot].
  - to_Q. ring.
  - rewrite IH by (simpl in *; lia). to_Q. ring.
Qed.

End DotProducts.

Lemma set_nth_get {X : Type} (l l' : list X) (k : nat) (v : X) :
  set_nth l k v = Some l' -> nth_error l' k = Some v.
Proof.
  revert k l'. induction l as [|x l IH]; intros k l' E; [destruct k; discriminate|].
  destruct k as [|k]; simpl in E.
  - injection E as <-. reflexivity.
  - destruct (set_nth l k v) eqn:E'; [|discriminate]. injection E as <-.
    simpl. eauto.
Qed.

Lemma set_nth_back {X : Type} (l l' : list X) (k : nat) (v y : X) :
  set_nth l k v = Some l' -> nth_error l k = Some y -> set_nth l' k y = Some l.
Proof.
  revert k l'. induction l as [|x l IH]; intros k l' E Hy; [destruct k; discriminate|].
  destruct k as [|k]; simpl in E, Hy.
  - injection E as <-. injection Hy as <-. reflexivity.
  - destruct (set_nth l k v) eqn:E'; [|discriminate]. injection E as <-.
    simpl. now rewrite (IH _ _ E' Hy).
Qed.

Lemma swap_front_involutive {X : Type} (l : list X) (p : nat) :
  swap_front (swap_front l p) p = l.
Proof.
  destruct l as [|x t]; [reflexivity|]. destruct p as [|p]; [reflexivity|].
  cbn [swap_front]. destruct (nth_error t p) as [y|] eqn:Ey.
  - destruct (set_nth t p x) as [t'|] eqn:Et.
    + cbn [swap_front]. rewrite (set_nth_get _ _ _ _ Et), (set_nth_back _ _ _ _ _ Et Ey).
      reflexivity.
    + cbn [swap_front]. now rewrite Ey, Et.
  - cbn [swap_front]. now rewrite Ey.
Qed.

Lemma set_nth_map {X Y : Type} (f : X -> Y) (l : list X) (k : nat) (v : X) :
  set_nth (map f l) k (f v) = option_map (map f) (set_nth l k v).
Proof.
  revert k. induction l as [|x l IH]; intros k; [destruct k; reflexivity|].
  destruct k as [|k]; simpl; [reflexivity|]. rewrite IH.
  destruct (set_nth l k v); reflexivity.
Qed.

Lemma swap_front_map {X Y : Type} (f : X -> Y) (l : list X) (p : nat) :
  swap_front (map f l) p = map f (swap_front l p).
Proof.
  destruct l as [|x t]; [reflexivity|]. destruct p as [|p]; [reflexivity|].
  cbn [map swap_front]. rewrite nth_error_map, set_nth_map.
  destruct (nth_error t p); [|reflexivity]. cbn [option_map].
  destruct (set_nth t p x); reflexivity.
Qed.

Lemma swap_front_head {X : Type} (l : list X) (p : nat) (d : X) :
  (p < List.length l)%nat -> hd d (swap_front l p) = nth p l d.
Proof.
  destruct l as [|x t]; [simpl; lia|]. destruct p as [|p]; [reflexivity|].
  intros Hp. simpl in Hp. cbn [swap_front nth].
  destruct (nth_error t p) as [y|] eqn:Ey.
  - destruct (set_nth t p x) as [t'|] eqn:Et.
    + simpl. symmetry. now apply nth_error_nth.
    + exfalso. assert (Hn : set_nth t p x <> None).
      { clear Et Ey. revert p Hp. induction t as [|z t IH]; intros p Hp; [simpl in Hp; lia|].
        destruct p; simpl; [discriminate|]. simpl in Hp.
        specialize (IH p ltac:(lia)). destruct (set_nth t p x); [discriminate|tauto]. }
      contradiction.
  - exfalso. apply nth_error_None in Ey. lia.
Qed.

Section Factorization.
Local Open Scope scalar_scope.

Lemma mat_vec_swap (M : matrix Qc) (x : vec Qc) (p : nat) :
  mat_vec (swap_front M p) x = swap_front (mat_vec M x) p.
Proof. unfold mat_vec. symmetry. apply swap_front_map. Qed.

Lemma regular_swap (n : nat) (M : matrix Qc) (p : nat) :
  regular n M -> regular n (swap_front M p).
Proof.
  intros HM x y Hx Hy E. apply HM; try assumption.
  rewrite !mat_vec_swap in E.
  rewrite <- (swap_front_involutive (mat_vec M x) p), E.
  apply swap_front_involutive.
Qed.

(** One stage of the elimination, read backwards: a solution of the
    reduced system extends to one of the system before the stage. *)
Lemma elimination_step (a beta : Qc) (r y : vec Qc) (rest : matrix Qc) (bs : vec Qc) :
  a <> of_int 0 ->
  List.length r = List.length y ->
  (forall row, In row rest -> List.length row = S (List.length r)) ->
  List.length bs = List.length rest ->
  mat_vec (map2 (eliminate r) (map (fun row => multiplier a (head0 row)) rest) rest) y =
    map2 (fun l bi => bi - l * beta) (map (fun row => multiplier a (head0 row)) rest) bs ->
  mat_vec ((a :: r) :: rest) ((beta - dot r y) / a :: y) = beta :: bs.
Proof.
  intros Ha Hr Hrows Hbs E. unfold mat_vec. cbn [map dot]. f_equal.
  - to_Q. field. exact Ha.
  - revert bs Hbs E Hrows. induction rest as [|row rest IH]; intros bs Hbs E Hrows.
    + destruct bs; [reflexivity|discriminate].
    + destruct bs as [|b bs]; [discriminate|].
      cbn [map map2 mat_vec] in E. injection E as E1 E2.
      cbn [map]. f_equal.
      * assert (Hl : List.length row = S (List.length r)) by (apply Hrows; now left).
        destruct row as [|c t]; [discriminate|]. simpl in Hl.
        unfold eliminate in E1. cbn [tl head0 hd] in E1.
        rewrite dot_eliminate in E1 by lia.
        cbn [dot]. unfold multiplier in E1.
        assert (Hz : seqb (sabs a) (of_int 0) = false).
        { unfold seqb. exact_ops. unfold Qc_leb.
          destruct (Qle_bool (Qcabs.Qcabs a) (Qc_of_int 0)) eqn:E0; [|reflexivity].
          exfalso. apply Ha. apply Qle_bool_iff in E0.
          apply Qcabs.Qcabs_null. apply Qcle_antisym; [exact E0|apply Qcabs.Qcabs_nonneg]. }
        rewrite Hz in E1. to_Q. unfold Qdiv in *. lra.
      * apply IH; [simpl in Hbs; lia|exact E2|].
        intros row' Hin. apply Hrows. now right.
Qed.


Lemma Qc_ltb_true (a b : Qc) : Qc_ltb a b = true <-> (a < b)%Qc.
Proof.
  unfold Qc_ltb. rewrite negb_true_iff. split.
  - intros E. apply Qcnot_le_lt. intros Hle. apply Qle_bool_iff in Hle. congruence.
  - intros Hlt. destruct (Qle_bool b a) eqn:E; [|reflexivity].
    apply Qle_bool_iff in E. exfalso. apply (Qclt_not_le _ _ Hlt). exact E.
Qed.

Lemma Qc_ltb_false (a b : Qc) : Qc_ltb a b = false <-> (b <= a)%Qc.
Proof.
  unfold Qc_ltb. rewrite negb_false_iff. apply Qle_bool_iff.
Qed.

Lemma biggest_spec (col pre : list Qc) (best : nat) (score : Qc) :
  (best < List.length pre)%nat ->
  score = sabs (nth best pre (of_int 0)) ->
  (forall c, In c pre -> (sabs c <= score)%Qc) ->
  (biggest col (List.length pre) best score < List.length (pre ++ col))%nat /\
  forall c, In c (pre ++ col) ->
    (sabs c <= sabs (nth (biggest col (List.length pre) best score) (pre ++ col) (of_int 0)))%Qc.
Proof.
  revert pre best score. induction col as [|c col IH]; intros pre best score Hb Hs Hmax.
  - cbn [biggest]. rewrite app_nil_r. split; [assumption|]. now rewrite <- Hs.
  - cbn [biggest]. replace (pre ++ c :: col) with ((pre ++ [c]) ++ col)
      by (now rewrite <- app_assoc).
    replace (S (List.length pre)) with (List.length (pre ++ [c]))
      by (rewrite length_app; simpl; lia).
    destruct (sltb score (sabs c)) eqn:E.
    + apply Qc_ltb_true in E. apply IH.
      * rewrite length_app. simpl. lia.
      * rewrite app_nth2 by lia. now rewrite Nat.sub_diag.
      * intros x Hx. apply in_app_or in Hx. destruct Hx as [Hx|[<-|[]]].
        -- apply Qclt_le_weak. eapply Qcle_lt_trans; [apply Hmax, Hx|exact E].
        -- apply Qcle_refl.
    + apply Qc_ltb_false in E. apply IH.
      * rewrite length_app. simpl. lia.
      * now rewrite app_nth1 by lia.
      * intros x Hx. apply in_app_or in Hx. destruct Hx as [Hx|[<-|[]]].
        -- now apply Hmax.
        -- exact E.
Qed.

Lemma row_of_biggest_spec (col : list Qc) :
  col <> [] ->
  (row_of_biggest col < List.length col)%nat /\
  forall c, In c col -> (sabs c <= sabs (nth (row_of_biggest col) col (of_int 0)))%Qc.
Proof.
  destruct col as [|c col]; [congruence|]. intros _.
  apply (biggest_spec col [c] 0 (sabs c)).
  - simpl. lia.
  - reflexivity.
  - intros x [<-|[]]. apply Qcle_refl.
Qed.

(** The pivot of a stage: the head of the row swapped to the top bounds
    the head of every row. *)
Lemma pivot_bounds (M : matrix Qc) (a : Qc) (r : list Qc) (rest : matrix Qc) :
  M <> [] ->
  swap_front M (row_of_biggest (map head0 M)) = (a :: r) :: rest ->
  forall row, In row rest -> (sabs (head0 row) <= sabs a)%Qc.
Proof.
  intros HM E row Hin.
  assert (Hcol : map head0 M <> []) by (destruct M; [congruence|discriminate]).
  destruct (row_of_biggest_spec _ Hcol) as [Hp Hmax].
  pose proof (swap_front_head (map head0 M) (row_of_biggest (map head0 M)) (of_int 0) Hp)
    as Hh.
  rewrite swap_front_map, E in Hh. cbn [map hd] in Hh.
  change (head0 (a :: r)) with a in Hh. rewrite Hh.
  apply Hmax. apply in_map.
  eapply swap_front_In. rewrite E. now right.
Qed.

Lemma regular_pivot (m : nat) (a : Qc) (r : list Qc) (rest : matrix Qc) :
  regular (S m) ((a :: r) :: rest) ->
  (forall row, In row rest -> (sabs (head0 row) <= sabs a)%Qc) ->
  a <> of_int 0.
Proof.
  intros Hreg Hmax Ha.
  assert (Hz : forall row, In row ((a :: r) :: rest) -> head0 row = of_int 0).
  { intros row [<-|Hin]; [exact Ha|].
    specialize (Hmax _ Hin). rewrite Ha in Hmax.
    apply Qcabs.Qcabs_null. apply Qcle_antisym; [exact Hmax|apply Qcabs.Qcabs_nonneg]. }
  assert (E : of_int (K := Qc) 1 :: repeat (of_int 0) m = of_int 0 :: repeat (of_int 0) m).
  { apply Hreg; try (simpl; now rewrite repeat_length).
    unfold mat_vec. apply map_ext_in. intros row Hin. specialize (Hz _ Hin).
    destruct row as [|c t]; [reflexivity|]. cbn [head0 hd] in Hz. subst c.
    cbn [dot]. to_Q. ring. }
  injection E as E. discriminate E.
Qed.

Lemma map2_sub_zero (l bs : vec Qc) :
  List.length l = List.length bs ->
  map2 (fun li bi => bi - li * of_int 0) l bs = bs.
Proof.
  revert bs. induction l as [|a l IH]; intros [|b bs] Hl; try discriminate; [reflexivity|].
  cbn [map2]. rewrite IH by (simpl in Hl; lia). f_equal. to_Q. ring.
Qed.

Lemma regular_schur (m : nat) (a : Qc) (r : list Qc) (rest : matrix Qc) :
  a <> of_int 0 ->
  List.length r = m -> List.length rest = m ->
  (forall row, In row rest -> List.length row = S m) ->
  regular (S m) ((a :: r) :: rest) ->
  regular m (map2 (eliminate r) (map (fun row => multiplier a (head0 row)) rest) rest).
Proof.
  intros Ha Hr Hrest Hrows Hreg y1 y2 Hy1 Hy2 E.
  set (l := map (fun row => multiplier a (head0 row)) rest) in *.
  set (bs := mat_vec (map2 (eliminate r) l rest) y1).
  assert (Hbs : List.length bs = List.length rest).
  { unfold bs. rewrite mat_vec_length, map2_length. unfold l. rewrite length_map. lia. }
  assert (Hl : List.length l = List.length bs) by (unfold l; rewrite length_map; lia).
  assert (E1 : mat_vec ((a :: r) :: rest) ((of_int 0 - dot r y1) / a :: y1) = of_int 0 :: bs).
  { apply elimination_step; try assumption; try lia.
    - intros row Hin. rewrite Hr. now apply Hrows.
    - fold l. now rewrite map2_sub_zero. }
  assert (E2 : mat_vec ((a :: r) :: rest) ((of_int 0 - dot r y2) / a :: y2) = of_int 0 :: bs).
  { apply elimination_step; try assumption; try lia.
    - intros row Hin. rewrite Hr. now apply Hrows.
    - fold l. rewrite map2_sub_zero by assumption. now rewrite <- E. }
  assert (X : (of_int 0 - dot r y1) / a :: y1 = (of_int 0 - dot r y2) / a :: y2).
  { apply Hreg; [simpl; lia|simpl; lia|]. now rewrite E1, E2. }
  now injection X.
Qed.

(** The factorization solves every regular system exactly. *)
Theorem lu_solve_exact (n : nat) (M : matrix Qc) (b : vec Qc) :
  square n M -> regular n M -> List.length b = n ->
  mat_vec M (solve (lu_factor n M) b) = b.
Proof.
  revert M b. induction n as [|m IH]; intros M b HM Hreg Hb.
  - destruct HM as [HM _]. destruct M; [|discriminate]. destruct b; [|discriminate].
    reflexivity.
  - cbn [lu_factor].
    set (p := row_of_biggest (map head0 M)).
    assert (HM0 : M <> []) by (destruct HM as [HM _]; destruct M; [discriminate|congruence]).
    pose proof (swap_front_square _ _ p HM) as [Hl Hrows].
    pose proof (regular_swap _ _ p Hreg) as Hreg'.
    pose proof (pivot_bounds M) as Hpiv. fold p in Hpiv.
    destruct (swap_front M p) as [|row0 rest] eqn:EM; [discriminate|].
    assert (H0 : List.length row0 = S m) by (apply Hrows; now left).
    destruct row0 as [|a r]; [discriminate|].
    specialize (Hpiv a r rest HM0 eq_refl).
    assert (Ha : a <> of_int 0) by (eapply regular_pivot; eauto).
    simpl in Hl, H0.
    assert (Hrest : forall row, In row rest -> List.length row = S m)
      by (intros row Hin; apply Hrows; now right).
    cbn [solve pivot urow lcol].
    pose proof (swap_front_length b p) as Hsw.
    destruct (swap_front b p) as [|beta bs] eqn:Eb; [simpl in Hsw; lia|].
    simpl in Hsw.
    set (l := map (fun row => multiplier a (head0 row)) rest).
    set (Sc := map2 (eliminate r) l rest).
    set (c := map2 (fun l0 bi => bi - l0 * beta) l bs).
    assert (HS : square m Sc).
    { apply schur_square; try lia; [unfold l; rewrite length_map; lia|assumption]. }
    assert (Hc : List.length c = m).
    { unfold c. rewrite map2_length. unfold l. rewrite length_map. lia. }
    assert (Hy : List.length (solve (lu_factor m Sc) c) = m).
    { apply solve_length; [now apply lu_factor_shape|assumption]. }
    assert (E : mat_vec ((a :: r) :: rest)
                  ((beta - dot r (solve (lu_factor m Sc) c)) / a
                     :: solve (lu_factor m Sc) c) = beta :: bs).
    { apply elimination_step; try assumption; try lia.
      - intros row Hin. rewrite Hrest by assumption. lia.
      - fold l. fold Sc. fold c. apply IH; try assumption.
        apply regular_schur; try assumption; lia. }
    rewrite <- EM, mat_vec_swap in E. rewrite <- Eb in E.
    rewrite <- (swap_front_involutive (mat_vec M _) p), E.
    apply swap_front_involutive.
Qed.

End Factorization.

(** ** Sums over a range of indices *)

Section Sums.


Lemma zsum_ext (h1 h2 : Z -> Qc) (lo : Z) (m : nat) :
  (forall j, lo <= j < lo + Z.of_nat m -> h1 j = h2 j) ->
  zsum h1 lo m = zsum h2 lo m.
Proof.
  revert lo. induction m as [|m IH]; intros lo E; [reflexivity|].
  cbn [zsum]. rewrite E by lia. f_equal. apply IH. intros j Hj. apply E. lia.
Qed.

Lemma zsum_zero (h : Z -> Qc) (lo : Z) (m : nat) :
  (forall j, lo <= j < lo + Z.of_nat m -> h j = of_int 0) ->
  zsum h lo m = of_int 0.
Proof.
  revert lo. induction m as [|m IH]; intros lo E; [reflexivity|].
  cbn [zsum]. rewrite E by lia. rewrite IH by (intros j Hj; apply E; lia).
  to_Q. ring.
Qed.

Lemma zsum_single (h : Z -> Qc) (lo : Z) (m : nat) (k : Z) :
  lo <= k < lo + Z.of_nat m ->
  (forall j, lo <= j < lo + Z.of_nat m -> j <> k -> h j = of_int 0) ->
  zsum h lo m = h k.
Proof.
  revert lo. induction m as [|m IH]; intros lo Hk E; [lia|].
  cbn [zsum]. destruct (Z.eq_dec lo k) as [->|Ne].
  - rewrite zsum_zero by (intros j Hj; apply E; lia). to_Q. ring.
  - rewrite (E lo) by lia. rewrite IH; [to_Q; ring|lia|].
    intros j Hj Hn. apply E; lia.
Qed.

Lemma zsum_add (h1 h2 : Z -> Qc) (lo : Z) (m : nat) :
  zsum (fun j => h1 j + h2 j)%Qc lo m = (zsum h1 lo m + zsum h2 lo m)%Qc.
Proof.
  revert lo. induction m as [|m IH]; intros lo; cbn [zsum].
  - to_Q. ring.
  - rewrite IH. to_Q. ring.
Qed.




Lemma xat_nth (x : vec Qc) (j : nat) : xat x (Z.of_nat j) = nth j x (of_int 0).
Proof.
  unfold xat. destruct (Z.ltb_spec (Z.of_nat j) 0); [lia|]. now rewrite Nat2Z.id.
Qed.

Lemma xat_outside (x : vec Qc) (j : Z) :
  j < 0 \/ Z.of_nat (List.length x) <= j -> xat x j = of_int 0.
Proof.
  intros Hj. unfold xat. destruct (Z.ltb_spec j 0); [reflexivity|].
  apply nth_overflow. lia.
Qed.

Lemma skipn_nth_cons (x : vec Qc) (s : nat) :
  (s < List.length x)%nat ->
  skipn s x = nth s x (of_int 0) :: skipn (S s) x.
Proof.
  revert s. induction x as [|a x IH]; intros s Hs; [simpl in Hs; lia|].
  destruct s as [|s]; [reflexivity|]. simpl in Hs. cbn [skipn nth]. apply IH. lia.
Qed.

Lemma dot_zsum (g : Z -> Qc) (x : vec Qc) (s m : nat) :
  (s + m <= List.length x)%nat ->
  dot (map (fun j => g (Z.of_nat j)) (seq s m)) (skipn s x) =
  zsum (fun j => g j * xat x j)%Qc (Z.of_nat s) m.
Proof.
  revert s. induction m as [|m IH]; intros s Hs; [reflexivity|].
  cbn [seq map zsum]. rewrite skipn_nth_cons by lia. cbn [dot].
  rewrite IH by lia. rewrite xat_nth.
  replace (Z.of_nat s + 1) with (Z.of_nat (S s)) by lia. reflexivity.
Qed.

Lemma mat_vec_tab (n : nat) (f : Z -> Z -> Qc) (x : vec Qc) :
  List.length x = n ->
  mat_vec (tab n f) x =
  map (fun i => zsum (fun j => f (Z.of_nat i) j * xat x j)%Qc 0 n) (seq 0 n).
Proof.
  intros Hx. unfold mat_vec, tab. rewrite map_map. apply map_ext. intros i.
  pose proof (dot_zsum (f (Z.of_nat i)) x 0 n ltac:(lia)) as E.
  cbn [skipn] in E. exact E.
Qed.

(** A row with three diagonals applied to a vector. *)
Lemma zsum_three (h : Z -> Qc) (n : nat) (k : Z) :
  0 <= k < Z.of_nat n ->
  (forall j, 0 <= j < Z.of_nat n -> j <> k - 1 -> j <> k -> j <> k + 1 ->
     h j = of_int 0) ->
  (k - 1 < 0 -> h (k - 1) = of_int 0) ->
  (Z.of_nat n <= k + 1 -> h (k + 1) = of_int 0) ->
  zsum h 0 n = (h (k - 1)%Z + h k + h (k + 1)%Z)%Qc.
Proof.
  intros Hk Hband Hlo Hhi.
  set (h1 := fun j => if j =? k - 1 then h j else of_int 0).
  set (h2 := fun j => if j =? k then h j else of_int 0).
  set (h3 := fun j => if j =? k + 1 then h j else of_int 0).
  rewrite (zsum_ext h (fun j => (h1 j + (h2 j + h3 j))%Qc)).
  - rewrite !zsum_add.
    assert (E1 : zsum h1 0 n = h (k - 1)).
    { unfold h1. destruct (Z_lt_dec (k - 1) 0).
      - rewrite Hlo by lia. apply zsum_zero. intros j Hj.
        destruct (Z.eqb_spec j (k - 1)); [lia|reflexivity].
      - rewrite (zsum_single _ 0 n (k - 1));
          [now rewrite Z.eqb_refl|lia|].
        intros j Hj Hn. destruct (Z.eqb_spec j (k - 1)); [lia|reflexivity]. }
    assert (E2 : zsum h2 0 n = h k).
    { unfold h2. rewrite (zsum_single _ 0 n k);
          [now rewrite Z.eqb_refl|lia|].
        intros j Hj Hn. destruct (Z.eqb_spec j k); [lia|reflexivity]. }
    assert (E3 : zsum h3 0 n = h (k + 1)).
    { unfold h3. destruct (Z_le_dec (Z.of_nat n) (k + 1)).
      - rewrite Hhi by lia. apply zsum_zero. intros j Hj.
        destruct (Z.eqb_spec j (k + 1)); [lia|reflexivity].
      - rewrite (zsum_single _ 0 n (k + 1));
          [now rewrite Z.eqb_refl|lia|].
        intros j Hj Hn. destruct (Z.eqb_spec j (k + 1)); [lia|reflexivity]. }
    rewrite E1, E2, E3. to_Q. ring.
  - intros j Hj. unfold h1, h2, h3.
    destruct (Z.eqb_spec j (k - 1)), (Z.eqb_spec j k), (Z.eqb_spec j (k + 1));
      try lia; try (to_Q; ring).
    rewrite Hband by lia. to_Q. ring.
Qed.

End Sums.

(** ** Matrices with three diagonals *)

Section Tridiagonal.

Variables (lo dg up d0 u0 l1 d1 : Qc).

Lemma tri_row (n : nat) (x : vec Qc) (i : Z) :
  List.length x = n -> (2 <= n)%nat -> 0 <= i < Z.of_nat n ->
  zsum (fun j => tri lo dg up d0 u0 l1 d1 (Z.of_nat n) i j * xat x j)%Qc 0 n = tri_apply lo dg up d0 u0 l1 d1 (Z.of_nat n) x i.
Proof.
  intros Hx Hn Hi.
  rewrite (zsum_three _ n i Hi).
  - unfold tri, tri_apply.
    repeat match goal with
      | |- context [Z.eqb ?a ?b] => destruct (Z.eqb_spec a b); try lia
      end.
    + subst i. change (0 - 1) with (-1). change (0 + 1) with 1.
      rewrite (xat_outside x (-1)) by lia. to_Q. ring.
    + subst i.
      replace (Z.of_nat n - 1 - 1) with (Z.of_nat n - 2) by lia.
      rewrite (xat_outside x (Z.of_nat n - 1 + 1)) by lia. to_Q. ring.
    + reflexivity.
  - intros j Hj N1 N2 N3. unfold tri.
    repeat match goal with
      | |- context [Z.eqb ?a ?b] => destruct (Z.eqb_spec a b); try lia
      end; to_Q; ring.
  - intros Hlt. rewrite (xat_outside x (i - 1)) by lia. to_Q. ring.
  - intros Hge. rewrite (xat_outside x (i + 1)) by lia. to_Q. ring.
Qed.

Lemma mat_vec_tri (n : nat) (x : vec Qc) :
  List.length x = n -> (2 <= n)%nat ->
  mat_vec (tab n (tri lo dg up d0 u0 l1 d1 (Z.of_nat n))) x =
  map (fun i => tri_apply lo dg up d0 u0 l1 d1 (Z.of_nat n) x (Z.of_nat i)) (seq 0 n).
Proof.
  intros Hx Hn. rewrite mat_vec_tab by assumption.
  apply map_ext_in. intros i Hi. apply in_seq in Hi.
  apply tri_row; try assumption. lia.
Qed.


Lemma abs_dominance (p q r u v w : Qc) :
  (p * u + q * v + r * w = of_int 0)%Qc ->
  (sabs u <= sabs v)%Qc -> (sabs w <= sabs v)%Qc ->
  (sabs p + sabs r < sabs q)%Qc ->
  v = of_int 0.
Proof.
  intros E Hu Hw Hdom. to_Q.
  assert (E1 : (Qabs (this q) * Qabs (this v)
                <= Qabs (this p) * Qabs (this u) + Qabs (this r) * Qabs (this w))%Q).
  { rewrite <- !Qabs_Qmult.
    setoid_replace (this q * this v)%Q with (- (this p * this u + this r * this w))%Q
      by lra.
    rewrite Qabs_opp. apply Qabs_triangle. }
  pose proof (Qabs_nonneg (this p)). pose proof (Qabs_nonneg (this r)).
  pose proof (Qabs_nonneg (this u)). pose proof (Qabs_nonneg (this w)).
  pose proof (Qabs_nonneg (this v)) as Hv.
  assert (E2 : (Qabs (this p) * Qabs (this u) <= Qabs (this p) * Qabs (this v))%Q).
  { rewrite !(Qmult_comm (Qabs (this p))). now apply Qmult_le_compat_r. }
  assert (E3 : (Qabs (this r) * Qabs (this w) <= Qabs (this r) * Qabs (this v))%Q).
  { rewrite !(Qmult_comm (Qabs (this r))). now apply Qmult_le_compat_r. }
  assert (Hz : (Qabs (this v) <= 0)%Q).
  { apply Qnot_lt_le. intros Hpos.
    assert (E4 : ((Qabs (this p) + Qabs (this r)) * Qabs (this v)
                  < Qabs (this q) * Qabs (this v))%Q)
      by (apply Qmult_lt_compat_r; assumption).
    lra. }
  pose proof (Qle_Qabs (this v)). pose proof (Qle_Qabs (- this v)) as Hn.
  rewrite Qabs_opp in Hn. lra.
Qed.

Lemma argmax_abs (d : Z -> Qc) (n : nat) :
  (0 < n)%nat ->
  exists k, 0 <= k < Z.of_nat n /\
    forall j, 0 <= j < Z.of_nat n -> (sabs (d j) <= sabs (d k))%Qc.
Proof.
  induction n as [|n IH]; [lia|]. intros _.
  destruct n as [|n].
  - exists 0. split; [lia|]. intros j Hj. replace j with 0 by lia. apply Qcle_refl.
  - destruct (IH ltac:(lia)) as [k [Hk Hmax]].
    destruct (Qclt_le_dec (sabs (d k)) (sabs (d (Z.of_nat (S n))))) as [Hlt|Hle].
    + exists (Z.of_nat (S n)). split; [lia|]. intros j Hj.
      destruct (Z.eq_dec j (Z.of_nat (S n))) as [->|Hne]; [apply Qcle_refl|].
      apply Qclt_le_weak. eapply Qcle_lt_trans; [apply Hmax; lia|exact Hlt].
    + exists k. split; [lia|]. intros j Hj.
      destruct (Z.eq_dec j (Z.of_nat (S n))) as [->|Hne]; [exact Hle|].
      apply Hmax. lia.
Qed.

Lemma map_seq_inj (X : Type) (g g' : nat -> X) (n i : nat) :
  map g (seq 0 n) = map g' (seq 0 n) -> (i < n)%nat -> g i = g' i.
Proof.
  intros E Hi. apply (f_equal (fun l => nth_error l i)) in E.
  rewrite !nth_error_map_seq in E by assumption. now injection E.
Qed.

(** A matrix of this shape whose diagonal dominates each row sends no two
    vectors to the same image. *)
Lemma regular_tri (n : nat) :
  (2 <= n)%nat ->
  (sabs u0 < sabs d0)%Qc -> (sabs l1 < sabs d1)%Qc ->
  (sabs lo + sabs up < sabs dg)%Qc ->
  regular n (tab n (tri lo dg up d0 u0 l1 d1 (Z.of_nat n))).
Proof.
  intros Hn Hfirst Hlast Hin x y Hx Hy E.
  rewrite !mat_vec_tri in E by assumption.
  assert (Hrow : forall i, 0 <= i < Z.of_nat n ->
            tri_apply lo dg up d0 u0 l1 d1 (Z.of_nat n) x i = tri_apply lo dg up d0 u0 l1 d1 (Z.of_nat n) y i).
  { intros i Hi. pose proof (map_seq_inj _ _ _ n (Z.to_nat i) E ltac:(lia)) as Ei.
    cbn beta in Ei. now rewrite Z2Nat.id in Ei by lia. }
  set (d := fun j => (xat x j - xat y j)%Qc).
  destruct (argmax_abs d n ltac:(lia)) as [k [Hk Hmax]].
  assert (Hdk : d k = of_int 0).
  { pose proof (Hrow k Hk) as Ek. unfold tri_apply in Ek.
    destruct (Z.eqb_spec k 0) as [K0|K0].
    - apply (abs_dominance (of_int 0) d0 u0 (d k) (d k) (d 1)).
      + subst k. unfold d. to_Q. lra.
      + apply Qcle_refl.
      + subst k. apply Hmax. lia.
      + replace (sabs (of_int 0) + sabs u0)%Qc with (sabs u0); [subst; assumption|].
        to_Q. change (Qabs (0 # 1)) with 0%Q. ring.
    - destruct (Z.eqb_spec k (Z.of_nat n - 1)) as [K1|K1].
      + apply (abs_dominance l1 d1 (of_int 0) (d (k - 1)) (d k) (d k)).
        * subst k. unfold d.
          replace (Z.of_nat n - 1 - 1) with (Z.of_nat n - 2) by lia. to_Q. lra.
        * apply Hmax. lia.
        * apply Qcle_refl.
        * replace (sabs l1 + sabs (of_int 0))%Qc with (sabs l1); [assumption|].
          to_Q. change (Qabs (0 # 1)) with 0%Q. ring.
      + apply (abs_dominance lo dg up (d (k - 1)) (d k) (d (k + 1))).
        * unfold d. to_Q. lra.
        * apply Hmax. lia.
        * apply Hmax. lia.
        * assumption. }
  apply (nth_ext x y (of_int 0) (of_int 0)); [lia|].
  intros j Hj. rewrite <- !xat_nth.
  assert (Hj' : 0 <= Z.of_nat j < Z.of_nat n) by lia.
  pose proof (Hmax _ Hj') as Hle. rewrite Hdk in Hle. unfold d in Hle.
  assert (Hz : (xat x (Z.of_nat j) - xat y (Z.of_nat j))%Qc = of_int 0).
  { apply Qcabs.Qcabs_null. apply Qcle_antisym; [exact Hle|apply Qcabs.Qcabs_nonneg]. }
  to_Q. lra.
Qed.

End Tridiagonal.

(** ** The sum of a state with its end cells counted half *)

Section Conservation.







Variables (lo dg up d0 u0 l1 d1 : Qc).


End Conservation.

(** ** The Crank-Nicolson operators in exact arithmetic *)

Section ExactSystem.

Variable dx : Qc.


Lemma left_hand_system (num_x : Z) (factor : Qc) :
  tab (Z.to_nat num_x) (left_hand num_x dx factor) =
  tab (Z.to_nat num_x) (system dx (Qcopp factor) num_x).
Proof.
  apply tab_ext. intros i j Hi Hj.
  unfold left_hand, diffusion, averaging, second_difference, system, tri.
  repeat match goal with
    | |- context [Z.eqb ?a ?b] => destruct (Z.eqb_spec a b); try lia
    end; to_Q; unfold Qdiv; ring.
Qed.


Lemma dominance_Q (phi : Q) :
  (0 <= phi)%Q ->
  (Qabs ((2 # 6) - (2 # 1) * phi) < Qabs ((4 # 6) + (2 # 1) * phi))%Q /\
  (Qabs ((1 # 6) - phi) + Qabs ((1 # 6) - phi) < Qabs ((4 # 6) + (2 # 1) * phi))%Q.
Proof.
  intros Hphi. rewrite (Qabs_pos ((4 # 6) + (2 # 1) * phi)) by lra. split.
  - apply Qabs_case; intros; lra.
  - apply Qabs_case; intros; lra.
Qed.

Lemma regular_system (g : Qc) (n : nat) :
  (g <= of_int 0)%Qc -> (2 <= n)%nat ->
  regular n (tab n (system dx g (Z.of_nat n))).
Proof.
  intros Hg Hn. unfold system.
  assert (Hi : (0 <= / (this dx * this dx))%Q).
  { apply Qinv_le_0_compat.
    destruct (Qlt_le_dec (this dx) 0) as [Hneg|Hpos]; nra. }
  assert (Hphi : (0 <= (- this g) * / (this dx * this dx))%Q).
  { apply Qmult_le_0_compat; [|exact Hi]. to_Q. lra. }
  destruct (dominance_Q _ Hphi) as [D1 D2].
  apply regular_tri; try assumption; to_Q; unfold Qdiv in *.
  - setoid_replace ((2 # 1) * / (6 # 1) + this g * ((2 # 1) * / (this dx * this dx)))%Q
      with ((2 # 6) - (2 # 1) * (- this g * / (this dx * this dx)))%Q
      by (generalize (/ (this dx * this dx))%Q; intros iota; field).
    setoid_replace ((4 # 1) * / (6 # 1) + this g * ((-2 # 1) * / (this dx * this dx)))%Q
      with ((4 # 6) + (2 # 1) * (- this g * / (this dx * this dx)))%Q
      by (generalize (/ (this dx * this dx))%Q; intros iota; field).
    exact D1.
  - setoid_replace ((2 # 1) * / (6 # 1) + this g * ((2 # 1) * / (this dx * this dx)))%Q
      with ((2 # 6) - (2 # 1) * (- this g * / (this dx * this dx)))%Q
      by (generalize (/ (this dx * this dx))%Q; intros iota; field).
    setoid_replace ((4 # 1) * / (6 # 1) + this g * ((-2 # 1) * / (this dx * this dx)))%Q
      with ((4 # 6) + (2 # 1) * (- this g * / (this dx * this dx)))%Q
      by (generalize (/ (this dx * this dx))%Q; intros iota; field).
    exact D1.
  - setoid_replace ((1 # 1) * / (6 # 1) + this g * ((1 # 1) * / (this dx * this dx)))%Q
      with ((1 # 6) - (- this g * / (this dx * this dx)))%Q
      by (generalize (/ (this dx * this dx))%Q; intros iota; field).
    setoid_replace ((4 # 1) * / (6 # 1) + this g * ((-2 # 1) * / (this dx * this dx)))%Q
      with ((4 # 6) + (2 # 1) * (- this g * / (this dx * this dx)))%Q
      by (generalize (/ (this dx * this dx))%Q; intros iota; field).
    exact D2.
Qed.

End ExactSystem.

(** ** The solves of a run *)

Section ExactRun.


(** Every solve of a run is exact when [alpha * dt >= 0]: the left-hand
    operator is strictly diagonally dominant. *)
Lemma solve_left_hand_exact (num_x : Z) (dx factor : Qc) (b : vec Qc) :
  2 <= num_x -> (Qcopp factor <= of_int 0)%Qc ->
  List.length b = Z.to_nat num_x ->
  mat_vec (tab (Z.to_nat num_x) (left_hand num_x dx factor))
    (solve (factorize (tab (Z.to_nat num_x) (left_hand num_x dx factor))) b) = b.
Proof.
  intros Hn Hf Hb. rewrite left_hand_system.
  unfold factorize. rewrite tab_length.
  apply lu_solve_exact; [apply tab_square| |assumption].
  replace (system dx (- factor) num_x)
    with (system dx (- factor) (Z.of_nat (Z.to_nat num_x)))
    by (now rewrite Z2Nat.id by lia).
  apply regular_system; [assumption|lia].
Qed.


End ExactRun.

(** ** Step count in binary64 *)

(** [0.005 / 0.01] is [0.5], which truncates to 0, [1.0 / 0.01] is
    [100], and a zero time step leaves the count undefined. *)
Remark step_count_binary64 :
  step_count (K := float) (lit 5 1000) (lit 1 100) = Some 0 /\
  step_count (K := float) (of_int 1) (lit 1 100) = Some 100 /\
  step_count (K := float) (of_int 1) (of_int 0) = None.
Proof. repeat split; vm_compute; reflexivity. Qed.

(** ** Conservation and the zero-diffusivity run: the claims *)

Section ExactClaims.

Lemma states_fixed (k : nat) (RHS : matrix Qc) (solver : PartialPivLU Qc) (T : vec Qc) :
  step RHS solver T = T ->
  forall T', In T' (states k RHS solver T) -> T' = T.
Proof.
  intros E. induction k as [|k IH]; intros T' Hin; [destruct Hin|].
  cbn [states] in Hin. rewrite E in Hin. destruct Hin as [<-|Hin]; [reflexivity|].
  now apply IH.
Qed.


(** In exact arithmetic, with zero diffusivity and any time step, both
    system operators are the averaging operator, every solve returns the
    state it was given, and every entry of the history of a run is the
    initial state. *)
Lemma zero_diffusivity_identity_exact (p : params Qc) (num_x : Z) :
  2 <= num_x < INT_MAX ->
  alpha p = of_int 0 ->
  let dx := spacing num_x in
  let factor := cn_factor (alpha p) (dt p) in
  exists A B : matrix Qc,
    assemble num_x dx = Done (A, B) /\
    LHS_of A B factor = A /\
    RHS_of A B factor = A /\
    (forall T : vec Qc, Z.of_nat (List.length T) = num_x ->
       solve (factorize (LHS_of A B factor)) (mat_vec (RHS_of A B factor) T) = T) /\
    (forall num_t_steps, step_count (total_time p) (dt p) = Some num_t_steps ->
       exists T_history,
         snd (simulate p num_x) = inl T_history /\
         pushed (fst (simulate p num_x)) = T_history /\
         forall T, In T T_history -> T = initial_conditions num_x dx).
Proof.
  intros Hn Ha dx factor.
  exists (tab (Z.to_nat num_x) (averaging num_x)),
         (tab (Z.to_nat num_x) (diffusion num_x dx)).
  rewrite LHS_closed, RHS_closed.
  assert (Hf : factor = of_int 0).
  { unfold factor, cn_factor. rewrite Ha. to_Q. unfold Qdiv. ring. }
  assert (EL : tab (Z.to_nat num_x) (left_hand num_x dx factor) =
               tab (Z.to_nat num_x) (averaging num_x)).
  { apply tab_ext. intros i j _ _. unfold left_hand. rewrite Hf. to_Q. ring. }
  assert (ER : tab (Z.to_nat num_x) (right_hand num_x dx factor) =
               tab (Z.to_nat num_x) (averaging num_x)).
  { apply tab_ext. intros i j _ _. unfold right_hand. rewrite Hf. to_Q. ring. }
  assert (Hneg : (Qcopp factor <= of_int 0)%Qc) by (rewrite Hf; to_Q; lra).
  assert (Hstep : forall T : vec Qc, List.length T = Z.to_nat num_x ->
            step (tab (Z.to_nat num_x) (right_hand num_x dx factor))
              (factorize (tab (Z.to_nat num_x) (left_hand num_x dx factor))) T = T).
  { intros T HT.
    assert (Hreg : regular (Z.to_nat num_x) (tab (Z.to_nat num_x) (left_hand num_x dx factor))).
    { rewrite left_hand_system.
      replace (system dx (- factor) num_x)
        with (system dx (- factor) (Z.of_nat (Z.to_nat num_x)))
        by (now rewrite Z2Nat.id by lia).
      apply regular_system; [exact Hneg|lia]. }
    apply Hreg; [|exact HT|].
    - apply step_length; [apply tab_square|apply tab_length].
    - unfold step. rewrite solve_left_hand_exact; try assumption; try lia.
      + now rewrite ER, EL.
      + rewrite mat_vec_length. apply tab_length. }
  split; [apply assemble_closed; lia|]. split; [exact EL|]. split; [exact ER|].
  split.
  - intros T HT. apply Hstep. lia.
  - intros N Hs. exists (run_history p num_x N).
    rewrite (simulate_closed _ _ _ Hn Hs). cbn [fst snd].
    split; [reflexivity|]. split.
    + destruct (setup_trace_split p num_x N)
        as [pre [post [E [_ [_ [_ [_ [Pp [Pq _]]]]]]]]].
      rewrite E, !pushed_app, Pp, Pq. unfold run_loop_trace.
      rewrite loop_trace_pushed. reflexivity.
    + intros T [<-|Hin]; [reflexivity|].
      eapply states_fixed; [|exact Hin].
      apply Hstep. apply initial_conditions_length.
Qed.


End ExactClaims.

(** ** Binary64 side notes *)

(** The decimal literals of the source, as [lit] renders them in
    binary64, are the doubles a C++ compiler reads. *)
Remark literals_binary64 :
  lit (K := float) 4 10 = 0x1.999999999999ap-2%float /\
  lit (K := float) 6 10 = 0x1.3333333333333p-1%float /\
  lit (K := float) 5 10 = 0x1p-1%float /\
  lit (K := float) 1 100 = 0x1.47ae147ae147bp-7%float.
Proof. repeat split; vm_compute; reflexivity. Qed.

(** With zero diffusivity both system operators are the averaging
    operator in binary64 as well (5 cells, default time step). *)
Remark zero_diffusivity_operators_binary64 :
  exists A B : matrix float,
    assemble 5 (spacing 5) = Done (A, B) /\
    LHS_of A B (cn_factor (of_int 0) (lit 1 100)) = A /\
    RHS_of A B (cn_factor (of_int 0) (lit 1 100)) = A.
Proof.
  eexists. eexists. split; [vm_compute; reflexivity|].
  split; vm_compute; reflexivity.
Qed.

(** * Further properties *)

(** ** Facts about strings *)

Lemma append_nil_r (s : string) : (s ++ "")%string = s.
Proof. induction s as [|c s IH]; simpl; [reflexivity|now rewrite IH]. Qed.

Lemma append_assoc (a b c : string) : ((a ++ b) ++ c)%string = (a ++ b ++ c)%string.
Proof. induction a as [|x a IH]; simpl; [reflexivity|now rewrite IH]. Qed.

Lemma append_length (a b : string) :
  String.length (a ++ b) = (String.length a + String.length b)%nat.
Proof. induction a as [|x a IH]; simpl; [reflexivity|now rewrite IH]. Qed.

Lemma append_inv_head (a b c : string) : (a ++ b)%string = (a ++ c)%string -> b = c.
Proof. induction a as [|x a IH]; simpl; [easy|]. intros E. injection E as E. auto. Qed.

Lemma append_inv_tail (a b c : string) : (a ++ c)%string = (b ++ c)%string -> a = b.
Proof.
  revert b. induction a as [|x a IH]; intros [|y b] E; simpl in E.
  - reflexivity.
  - apply (f_equal String.length) in E. simpl in E. rewrite append_length in E. lia.
  - apply (f_equal String.length) in E. simpl in E. rewrite append_length in E. lia.
  - injection E as -> E. f_equal. auto.
Qed.

(** ** [printVector] *)

Section PrintVector.

Context {K : Type} `{Scalar K} `{Printed K}.
Local Open Scope stream_scope.

Lemma skipn_cons_nth {X : Type} (l : list X) (i : nat) (x : X) (rest : list X) :
  skipn i l = x :: rest ->
  nth_error l i = Some x /\ skipn (S i) l = rest /\
  List.length l = (S i + List.length rest)%nat.
Proof.
  revert i. induction l as [|a l IH]; intros i E.
  - destruct i; discriminate.
  - destruct i as [|i].
    + cbn [skipn] in E. injection E as -> ->. repeat split.
    + cbn [skipn] in E. destruct (IH i E) as [E1 [E2 E3]]. repeat split.
      * exact E1.
      * exact E2.
      * simpl. lia.
Qed.

Lemma entry_skipn (vec : vec K) (i : nat) (x : K) (rest : list K) :
  skipn i vec = x :: rest ->
  entry vec (Z.of_nat i) = Done x /\ skipn (S i) vec = rest /\
  List.length vec = (S i + List.length rest)%nat.
Proof.
  intros E. destruct (skipn_cons_nth _ _ _ _ E) as [E1 [E2 E3]]. repeat split; trivial.
  unfold entry, list_get. destruct (Z.ltb_spec (Z.of_nat i) 0); [lia|].
  now rewrite Nat2Z.id, E1.
Qed.

Lemma printVector_loop_joins (vec rest : vec K) (i : nat) (os : ostream) :
  skipn i vec = rest ->
  printVector_loop (List.length rest) (Z.of_nat i) vec os =
  Done {| text := text os ++ String.concat ", " (map (num_put fixed 6) rest);
          notation := match rest with [] => notation os | _ => fixed end;
          precision := match rest with [] => precision os | _ => 6%nat end |}.
Proof.
  revert i os. induction rest as [|x rest IH]; intros i os E.
  - cbn [printVector_loop List.length map String.concat]. rewrite append_nil_r.
    now destruct os.
  - destruct (entry_skipn _ _ _ _ E) as [Ex [Es El]].
    cbn [printVector_loop List.length]. rewrite Ex. cbn [access_bind].
    replace (Z.of_nat i + 1) with (Z.of_nat (S i)) by lia.
    rewrite (IH (S i) _ Es). f_equal.
    unfold insert, insert_manipulator, insert_double, insert_string, std_fixed,
      setprecision. cbn [text notation precision].
    destruct (Z.eqb_spec (Z.of_nat i) (Z.of_nat (List.length vec) - 1)) as [Hl|Hl].
    + destruct rest as [|y rest]; [|simpl in El; lia].
      cbn [map String.concat]. now rewrite !append_nil_r.
    + destruct rest as [|y rest]; [simpl in El; lia|].
      cbn [map String.concat]. now rewrite !append_assoc.
Qed.

(** X1. [printVector] writes the entries of the vector in fixed notation
    with six decimals, separated by a comma and a space, and ends the
    line; no separator follows the last entry, an empty vector gives an
    empty line, and no entry is read outside the vector.  The stream is
    left in fixed notation with precision 6 as soon as one entry was
    written. *)
Theorem printVector_joins (vec : vec K) (os : ostream) :
  printVector vec os =
  Done {| text := text os ++ String.concat ", " (map (num_put fixed 6) vec) ++ newline;
          notation := match vec with [] => notation os | _ => fixed end;
          precision := match vec with [] => precision os | _ => 6%nat end |}.
Proof.
  unfold printVector. change 0 with (Z.of_nat 0).
  rewrite (printVector_loop_joins vec vec 0 os eq_refl). cbn [access_bind].
  unfold insert, insert_manipulator, endl, insert_string. cbn [text notation precision].
  now rewrite append_assoc.
Qed.

End PrintVector.

(** ** The option loop *)

Section OptionLoop.

Context {K : Type} `{Scalar K} `{Printed K}.

(** Over options that let it go on, the loop is a left fold. *)
Lemma getopt_loop_plain (pre rest : list (option_token K)) (p : params K) :
  forallb plain pre = true ->
  exists q, getopt_loop pre p = ret q /\
            getopt_loop (pre ++ rest) p = getopt_loop rest q.
Proof.
  revert p. induction pre as [|o pre IH]; intros p Hpre.
  - exists p. split; reflexivity.
  - cbn [forallb] in Hpre. apply andb_true_iff in Hpre. destruct Hpre as [Ho Hpre].
    destruct o as [[v|]|[v|]|[v|]|s| |]; try discriminate Ho;
      cbn [getopt_loop app stod]; rewrite ?bind_ret; apply IH; exact Hpre.
Qed.

Lemma getopt_loop_keeps {X : Type} (sel : option_token K -> bool) (get : params K -> X)
    (opts : list (option_token K)) (p p' : params K) :
  (forall o q v, sel o = false -> plain o = true ->
     getopt_loop [o] q = ret v -> get v = get q) ->
  forallb (fun o => negb (sel o)) opts = true ->
  getopt_loop opts p = ret p' -> get p' = get p.
Proof.
  intros Hsel. revert p. induction opts as [|o opts IH]; intros p Hno E.
  - cbn in E. injection E as <-. reflexivity.
  - cbn [forallb] in Hno. apply andb_true_iff in Hno. destruct Hno as [Ho Hno].
    apply negb_true_iff in Ho.
    destruct o as [[v|]|[v|]|[v|]|s| |]; cbn [getopt_loop stod] in E;
      rewrite ?bind_ret in E; try discriminate E.
    + rewrite (IH _ Hno E). eapply (Hsel (OptAlpha (Some v))); try eassumption; reflexivity.
    + rewrite (IH _ Hno E). eapply (Hsel (OptDt (Some v))); try eassumption; reflexivity.
    + rewrite (IH _ Hno E). eapply (Hsel (OptTime (Some v))); try eassumption; reflexivity.
    + rewrite (IH _ Hno E). eapply (Hsel (OptOutput s)); try eassumption; reflexivity.
Qed.

Lemma getopt_loop_ret_plain (opts : list (option_token K)) (p p' : params K) :
  getopt_loop opts p = ret p' -> forallb plain opts = true.
Proof.
  revert p. induction opts as [|o opts IH]; intros p E; [reflexivity|].
  destruct o as [[v|]|[v|]|[v|]|s| |]; cbn [getopt_loop stod] in E;
    rewrite ?bind_ret in E; try discriminate E; cbn [forallb plain]; eauto.
Qed.

Lemma getopt_loop_last {X : Type} (sel : option_token K -> bool) (get : params K -> X)
    (pre post : list (option_token K)) (o : option_token K) (p p' : params K) (x : X) :
  (forall o q v, sel o = false -> plain o = true ->
     getopt_loop [o] q = ret v -> get v = get q) ->
  (forall q v, getopt_loop [o] q = ret v -> get v = x) ->
  forallb (fun o => negb (sel o)) post = true ->
  getopt_loop (pre ++ o :: post) p = ret p' -> get p' = x.
Proof.
  intros Hsel Ho Hpost E.
  pose proof (getopt_loop_ret_plain _ _ _ E) as Hplain.
  rewrite forallb_app in Hplain. apply andb_true_iff in Hplain.
  destruct Hplain as [Hpre Hrest].
  destruct (getopt_loop_plain pre (o :: post) p Hpre) as [q [_ Eq]].
  rewrite Eq in E.
  cbn [forallb] in Hrest. apply andb_true_iff in Hrest. destruct Hrest as [Hplo _].
  destruct (getopt_loop_plain [o] post q) as [q' [Eo Eq']];
    [cbn [forallb]; now rewrite Hplo|].
  cbn [app] in Eq'. rewrite Eq' in E.
  rewrite (getopt_loop_keeps sel get post q' p' Hsel Hpost E).
  eapply Ho. exact Eo.
Qed.

(** X2. On an accepted command line every parameter has the value of the
    last option that sets it, and its default when no option does. *)
Theorem last_occurrence_wins (cl : cmdline K) (p : params K) (num_x : Z) :
  accepted cl p num_x ->
  (forall pre v post, options cl = pre ++ OptAlpha (Some v) :: post ->
     forallb (fun o => negb (sets_alpha o)) post = true -> alpha p = v) /\
  (forall pre v post, options cl = pre ++ OptDt (Some v) :: post ->
     forallb (fun o => negb (sets_dt o)) post = true -> dt p = v) /\
  (forall pre v post, options cl = pre ++ OptTime (Some v) :: post ->
     forallb (fun o => negb (sets_time o)) post = true -> total_time p = v) /\
  (forall pre s post, options cl = pre ++ OptOutput s :: post ->
     forallb (fun o => negb (sets_output o)) post = true -> output_prefix p = s) /\
  (forallb (fun o => negb (sets_alpha o)) (options cl) = true ->
     alpha p = alpha defaults) /\
  (forallb (fun o => negb (sets_dt o)) (options cl) = true -> dt p = dt defaults) /\
  (forallb (fun o => negb (sets_time o)) (options cl) = true ->
     total_time p = total_time defaults) /\
  (forallb (fun o => negb (sets_output o)) (options cl) = true ->
     output_prefix p = output_prefix defaults).
Proof.
  intros [E _].
  assert (Hone : forall (o : option_token K) q v,
            plain o = true -> getopt_loop [o] q = ret v ->
            (sets_alpha o = false -> alpha v = alpha q) /\
            (sets_dt o = false -> dt v = dt q) /\
            (sets_time o = false -> total_time v = total_time q) /\
            (sets_output o = false -> output_prefix v = output_prefix q)).
  { intros o q v Ho Ev.
    destruct o as [[x|]|[x|]|[x|]|s| |]; try discriminate Ho;
      cbn [getopt_loop stod] in Ev; rewrite ?bind_ret in Ev;
      injection Ev as <-; repeat split; intros; try discriminate; reflexivity. }
  repeat split.
  - intros pre v post Eo Hpost. rewrite Eo in E.
    apply (getopt_loop_last sets_alpha alpha pre post _ _ _ v) in E; trivial.
    + intros o q w Hs Hp Ew. now apply (Hone o q w Hp Ew).
    + intros q w Ew. cbn in Ew. injection Ew as <-. reflexivity.
  - intros pre v post Eo Hpost. rewrite Eo in E.
    apply (getopt_loop_last sets_dt dt pre post _ _ _ v) in E; trivial.
    + intros o q w Hs Hp Ew. now apply (Hone o q w Hp Ew).
    + intros q w Ew. cbn in Ew. injection Ew as <-. reflexivity.
  - intros pre v post Eo Hpost. rewrite Eo in E.
    apply (getopt_loop_last sets_time total_time pre post _ _ _ v) in E; trivial.
    + intros o q w Hs Hp Ew. now apply (Hone o q w Hp Ew).
    + intros q w Ew. cbn in Ew. injection Ew as <-. reflexivity.
  - intros pre s post Eo Hpost. rewrite Eo in E.
    apply (getopt_loop_last sets_output output_prefix pre post _ _ _ s) in E; trivial.
    + intros o q w Hs Hp Ew. now apply (Hone o q w Hp Ew).
    + intros q w Ew. cbn in Ew. injection Ew as <-. reflexivity.
  - intros Hno. apply (getopt_loop_keeps sets_alpha alpha _ _ _) with (3 := E); trivial.
    intros o q w Hs Hp Ew. now apply (Hone o q w Hp Ew).
  - intros Hno. apply (getopt_loop_keeps sets_dt dt _ _ _) with (3 := E); trivial.
    intros o q w Hs Hp Ew. now apply (Hone o q w Hp Ew).
  - intros Hno. apply (getopt_loop_keeps sets_time total_time _ _ _) with (3 := E); trivial.
    intros o q w Hs Hp Ew. now apply (Hone o q w Hp Ew).
  - intros Hno.
    apply (getopt_loop_keeps sets_output output_prefix _ _ _) with (3 := E); trivial.
    intros o q w Hs Hp Ew. now apply (Hone o q w Hp Ew).
Qed.

(** X3. The first option that is [--help], that [getopt_long] reports
    as unknown or lacking its argument, or whose argument does not
    convert decides the run, whatever follows it and whether or not a
    cell count is given: [--help] writes the usage text and ends with
    status 0, an option reported by [getopt_long] writes it and ends with
    status 1, a failed conversion ends the run by its exception.  The
    program writes the usage text to the error stream (the diagnostic of
    [getopt_long] itself is the library's) and nothing to the output
    stream. *)
Theorem first_special_option_decides (programName : string) (cl : cmdline K)
    (pre post : list (option_token K)) (o : option_token K) :
  options cl = pre ++ o :: post ->
  forallb plain pre = true ->
  plain o = false ->
  main cl =
    (match o with OptHelp | OptUnknown => [Stderr Usage] | _ => [] end,
     match o with
     | OptHelp => Exit 0
     | OptUnknown => Exit 1
     | _ => Terminate stod_failure
     end) /\
  cout_after (fst (main cl)) opened = Done opened /\
  cerr_after programName (fst (main cl)) opened =
    match o with
    | OptHelp | OptUnknown => printUsage programName opened
    | _ => opened
    end.
Proof.
  intros Eo Hpre Ho.
  destruct (getopt_loop_plain pre (o :: post) defaults Hpre) as [q [_ Eq]].
  assert (Em : main cl =
    (match o with OptHelp | OptUnknown => [Stderr Usage] | _ => [] end,
     match o with
     | OptHelp => Exit 0
     | OptUnknown => Exit 1
     | _ => Terminate stod_failure
     end)).
  { unfold main. rewrite Eo, Eq.
    destruct o as [[v|]|[v|]|[v|]|s| |]; try discriminate Ho; reflexivity. }
  rewrite Em. split; [reflexivity|].
  destruct o as [[v|]|[v|]|[v|]|s| |]; try discriminate Ho; split; reflexivity.
Qed.

End OptionLoop.

Lemma last_occurrence_wins_witness :
  accepted repeated_option_cmdline repeated_option_params 3 /\
  alpha repeated_option_params = lit 25 100 /\
  total_time repeated_option_params = total_time defaults.
Proof.
  assert (Hacc : accepted repeated_option_cmdline repeated_option_params 3)
    by (split; [reflexivity|exists []; reflexivity]).
  split; [exact Hacc|].
  destruct (last_occurrence_wins repeated_option_cmdline repeated_option_params 3 Hacc)
    as [Ha [_ [_ [_ [_ [_ [Ht _]]]]]]].
  split.
  - apply (Ha [OptAlpha (Some (lit 5 10)); OptDt (Some (lit 1 1000))] (lit 25 100) []);
      reflexivity.
  - apply Ht. reflexivity.
Defined.

Lemma first_special_option_decides_witness :
  main help_cmdline = ([Stderr Usage], Exit 0) /\
  cerr_after "heat1d" (fst (main help_cmdline)) opened = printUsage "heat1d" opened.
Proof.
  destruct (first_special_option_decides "heat1d" help_cmdline
              [OptDt (Some (lit 1 1000))] [OptAlpha None] OptHelp
              eq_refl eq_refl eq_refl) as [Em [_ Ee]].
  split; [exact Em|exact Ee].
Defined.

(** ** Progress lines *)

Section Progress.

Context {K : Type} `{Scalar K}.

Lemma completed_app (a b : list (event K)) :
  completed (a ++ b) = completed a ++ completed b.
Proof. apply flat_map_app. Qed.

Lemma completed_setup (p : params K) (num_x num_t_steps : Z) :
  completed (setup_trace p num_x num_t_steps) = [].
Proof.
  unfold setup_trace, warning.
  destruct (courant_warns (courant (alpha p) (dt p) (spacing num_x))); reflexivity.
Qed.

Lemma completed_step_files (prefix : string) (num_x : Z) (dx : K) (t : nat)
    (h : list (vec K)) :
  completed (step_file_events prefix num_x dx t h) = [].
Proof. revert t. induction h as [|T h IH]; intros t; [reflexivity|]. apply IH. Qed.

Lemma completed_output (p : params K) (num_x : Z) (h : list (vec K)) :
  completed (output_trace p num_x h) = [].
Proof.
  unfold output_trace.
  change (Stdout WritingResults :: ?l) with ([Stdout (K := K) WritingResults] ++ l).
  now rewrite !completed_app, completed_step_files.
Qed.

(** The steps the loop reports, among steps [s + 1 .. s + k]. *)
Lemma completed_loop (k s : nat) (N : Z) (RHS : matrix K) (solver : PartialPivLU K)
    (T : vec K) :
  completed (loop_trace k (Z.of_nat s) N RHS solver T) =
  map (fun i => (Z.of_nat i, N))
    (filter (fun i => progress_due (Z.of_nat i - 1) N) (seq (S s) k)).
Proof.
  revert s T. induction k as [|k IH]; intros s T; [reflexivity|].
  rewrite loop_trace_unfold, !completed_app.
  replace (Z.of_nat s + 1) with (Z.of_nat (S s)) by lia. rewrite IH.
  cbn [seq filter]. replace (Z.of_nat (S s) - 1) with (Z.of_nat s) by lia.
  unfold progress. destruct (progress_due (Z.of_nat s) N); cbn [completed flat_map app map].
  - replace (Z.of_nat s + 1) with (Z.of_nat (S s)) by lia. reflexivity.
  - reflexivity.
Qed.

Lemma multiples_below (d : Z) (k : nat) :
  0 < d ->
  List.length (filter (fun i => Z.of_nat i mod d =? 0) (seq 1 k)) =
  Z.to_nat (Z.of_nat k / d).
Proof.
  intros Hd. induction k as [|k IH].
  - now destruct d.
  - rewrite seq_S, filter_app, length_app, IH. cbn [filter Nat.add].
    destruct (Z.eqb_spec (Z.of_nat (S k) mod d) 0) as [E|E]; cbn [List.length].
    + assert (Z.of_nat (S k) / d = Z.of_nat k / d + 1).
      { pose proof (Z.div_mod (Z.of_nat (S k)) d ltac:(lia)).
        pose proof (Z.div_mod (Z.of_nat k) d ltac:(lia)).
        pose proof (Z.mod_pos_bound (Z.of_nat k) d Hd).
        nia. }
      pose proof (Z.div_pos (Z.of_nat k) d ltac:(lia) Hd). lia.
    + assert (Z.of_nat (S k) / d = Z.of_nat k / d).
      { pose proof (Z.div_mod (Z.of_nat (S k)) d ltac:(lia)).
        pose proof (Z.div_mod (Z.of_nat k) d ltac:(lia)).
        pose proof (Z.mod_pos_bound (Z.of_nat k) d Hd).
        pose proof (Z.mod_pos_bound (Z.of_nat (S k)) d Hd).
        nia. }
      lia.
Qed.

Lemma filter_length_le {X : Type} (f g : X -> bool) (l : list X) :
  (forall x, f x = true -> g x = true) ->
  (List.length (filter f l) <= List.length (filter g l))%nat.
Proof.
  intros Hfg. induction l as [|x l IH]; [reflexivity|]. cbn [filter].
  destruct (f x) eqn:Ef.
  - rewrite (Hfg _ Ef). simpl. lia.
  - destruct (g x); simpl; lia.
Qed.

Lemma filter_or_length {X : Type} (f g : X -> bool) (l : list X) :
  (List.length (filter (fun x => f x || g x) l) <=
   List.length (filter f l) + List.length (filter g l))%nat.
Proof.
  induction l as [|x l IH]; [reflexivity|]. cbn [filter].
  destruct (f x), (g x); simpl; lia.
Qed.

Lemma filter_none {X : Type} (f : X -> bool) (l : list X) :
  (forall x, In x l -> f x = false) -> filter f l = [].
Proof.
  induction l as [|x l IH]; intros Hf; [reflexivity|]. cbn [filter].
  rewrite (Hf x) by now left. apply IH. intros y Hy. apply Hf. now right.
Qed.

Lemma filter_one (N : Z) (s k : nat) :
  (List.length (filter (fun i => (Z.of_nat i =? N)%Z) (seq s k)) <= 1)%nat.
Proof.
  revert s. induction k as [|k IH]; intros s; [simpl; lia|]. cbn [seq filter].
  destruct (Z.eqb_spec (Z.of_nat s) N) as [E|E]; [|apply IH].
  cbn [List.length]. rewrite filter_none; [simpl; lia|].
  intros i Hi. apply in_seq in Hi. destruct (Z.eqb_spec (Z.of_nat i) N); [lia|reflexivity].
Qed.

(** X4. The loop reports the steps that are multiples of the stride
    [num_t_steps / 10] (1 when that quotient is 0) and the last step, in
    order and once each.  The last line reports step [num_t_steps] of
    [num_t_steps]; a run prints at least [min num_t_steps 10] and at most
    19 progress lines, however many steps it makes. *)
Theorem progress_reports (cl : cmdline K) (p : params K) (num_x num_t_steps : Z) :
  accepted cl p num_x ->
  2 <= num_x < INT_MAX ->
  step_count (total_time p) (dt p) = Some num_t_steps ->
  let stride := if Z.quot num_t_steps 10 =? 0 then 1 else Z.quot num_t_steps 10 in
  let reports := completed (fst (main cl)) in
  reports =
    map (fun i => (Z.of_nat i, num_t_steps))
      (filter (fun i => (Z.rem (Z.of_nat i) stride =? 0) || (Z.of_nat i =? num_t_steps))
         (seq 1 (Z.to_nat num_t_steps))) /\
  (1 <= num_t_steps -> last reports (0, 0) = (num_t_steps, num_t_steps)) /\
  Z.min num_t_steps 10 <= Z.of_nat (List.length reports) <= 19.
Proof.
  intros Hacc Hn Hs stride reports.
  set (N := num_t_steps) in *.
  set (due := fun i => (Z.rem (Z.of_nat i) stride =? 0) || (Z.of_nat i =? N)).
  assert (E : reports = map (fun i => (Z.of_nat i, N)) (filter due (seq 1 (Z.to_nat N)))).
  { unfold reports. rewrite (main_closed cl p num_x N Hacc Hn Hs). cbn [fst].
    rewrite !completed_app, completed_setup, completed_output, app_nil_r. cbn [app].
    unfold run_loop_trace. change 0 with (Z.of_nat 0). rewrite completed_loop.
    f_equal. apply filter_ext. intros i. unfold progress_due, due, stride.
    replace (Z.of_nat i - 1 + 1) with (Z.of_nat i) by lia. f_equal.
    destruct (Z.eqb_spec (Z.of_nat i - 1) (N - 1)), (Z.eqb_spec (Z.of_nat i) N);
      try lia; reflexivity. }
  split; [exact E|]. split.
  - intros HN. rewrite E.
    replace (Z.to_nat N) with (S (Z.to_nat N - 1)) by lia.
    rewrite seq_S, filter_app. cbn [filter].
    replace (due (1 + (Z.to_nat N - 1))%nat) with true.
    + rewrite map_app. cbn [map]. rewrite last_last. f_equal. lia.
    + unfold due. symmetry. apply orb_true_iff. right. apply Z.eqb_eq. lia.
  - rewrite E, length_map.
    destruct (Z.le_gt_cases N 0) as [HN|HN].
    { replace (Z.to_nat N) with O by lia. simpl. lia. }
    assert (Hq : Z.quot N 10 = N / 10) by (apply Z.quot_div_nonneg; lia).
    assert (Hd : 1 <= stride).
    { unfold stride. rewrite Hq. destruct (Z.eqb_spec (N / 10) 0); [lia|].
      pose proof (Z.div_pos N 10 ltac:(lia) ltac:(lia)). lia. }
    set (mult := fun i => Z.of_nat i mod stride =? 0).
    set (final := fun i => Z.of_nat i =? N).
    assert (Hmul : List.length (filter mult (seq 1 (Z.to_nat N))) = Z.to_nat (N / stride)).
    { unfold mult. rewrite multiples_below by lia. now rewrite Z2Nat.id by lia. }
    assert (Hlow : (List.length (filter mult (seq 1 (Z.to_nat N))) <=
                    List.length (filter due (seq 1 (Z.to_nat N))))%nat).
    { apply filter_length_le. intros i Hi. unfold due. apply orb_true_iff. left.
      rewrite Z.rem_mod_nonneg by lia. exact Hi. }
    assert (Hup : (List.length (filter due (seq 1 (Z.to_nat N))) <=
                   List.length (filter mult (seq 1 (Z.to_nat N))) + 1)%nat).
    { pose proof (filter_or_length mult final (seq 1 (Z.to_nat N))) as Hor.
      pose proof (filter_one N 1 (Z.to_nat N)) as Hone. fold final in Hone.
      rewrite (filter_ext due (fun i => mult i || final i)).
      - lia.
      - intros i. unfold due, mult, final. now rewrite Z.rem_mod_nonneg by lia. }
    assert (Hall : (List.length (filter due (seq 1 (Z.to_nat N))) <= Z.to_nat N)%nat).
    { pose proof (filter_length_le due (fun _ => true) (seq 1 (Z.to_nat N))
                    ltac:(reflexivity)) as Hle.
      assert (Eid : filter (fun _ : nat => true) (seq 1 (Z.to_nat N)) = seq 1 (Z.to_nat N)).
      { generalize (seq 1 (Z.to_nat N)). intros l. induction l as [|x l IHl];
          [reflexivity|]. cbn [filter]. now rewrite IHl. }
      rewrite Eid, length_seq in Hle. exact Hle. }
    rewrite Hmul in Hlow, Hup.
    assert (Hdiv0 : 0 <= N / stride) by (apply Z.div_pos; lia).
    assert (Hbounds : Z.min N 10 <= N / stride /\ (N / stride + 1 <= 19 \/ N <= 19)).
    { unfold stride in *. rewrite Hq in *.
      destruct (Z.eqb_spec (N / 10) 0) as [E0|E0].
      - rewrite Z.div_1_r.
        assert (N < 10).
        { pose proof (Z.div_mod N 10 ltac:(lia)).
          pose proof (Z.mod_pos_bound N 10 ltac:(lia)). lia. }
        lia.
      - pose proof (Z.div_mod N 10 ltac:(lia)) as Hdm.
        pose proof (Z.mod_pos_bound N 10 ltac:(lia)) as Hmb.
        split.
        + assert (10 <= N / (N / 10)) by (apply Z.div_le_lower_bound; lia). lia.
        + destruct (Z.eq_dec (N / 10) 1) as [E1|E1]; [right; lia|left].
          assert (N / (N / 10) < 15) by (apply Z.div_lt_upper_bound; lia). lia. }
    lia.
Qed.

End Progress.

Lemma progress_reports_witness :
  completed (fst (main example_cmdline)) = [(1, 3); (2, 3); (3, 3)].
Proof.
  exact (proj1 (progress_reports example_cmdline example_params 3 3
                  example_accepted example_cells example_step_count)).
Defined.


(** ** The output block *)

Section OutputBlock.

Context {K : Type} `{Scalar K}.

Lemma step_files_of_app (a b : list (event K)) :
  step_files_of (a ++ b) = step_files_of a ++ step_files_of b.
Proof. apply flat_map_app. Qed.

Lemma all_timesteps_of_app (a b : list (event K)) :
  all_timesteps_of (a ++ b) = all_timesteps_of a ++ all_timesteps_of b.
Proof. apply flat_map_app. Qed.

Lemma setup_trace_no_file (p : params K) (num_x num_t_steps : Z) :
  step_files_of (setup_trace p num_x num_t_steps) = [] /\
  all_timesteps_of (setup_trace p num_x num_t_steps) = [].
Proof.
  unfold setup_trace, warning.
  destruct (courant_warns (courant (alpha p) (dt p) (spacing num_x))); split; reflexivity.
Qed.

Lemma loop_trace_no_file (k : nat) (t N : Z) (RHS : matrix K) (solver : PartialPivLU K)
    (T : vec K) :
  step_files_of (loop_trace k t N RHS solver T) = [] /\
  all_timesteps_of (loop_trace k t N RHS solver T) = [].
Proof.
  revert t T. induction k as [|k IH]; intros t T; [split; reflexivity|].
  rewrite loop_trace_unfold, !step_files_of_app, !all_timesteps_of_app.
  destruct (IH (t + 1) (step RHS solver T)) as [-> ->].
  unfold progress. destruct (progress_due t N); split; reflexivity.
Qed.

(** The history of a run, state by state. *)
Lemma states_as_map (k : nat) (RHS : matrix K) (solver : PartialPivLU K) (T : vec K) :
  states k RHS solver T = map (fun t => state_after (S t) RHS solver T) (seq 0 k).
Proof.
  revert T. induction k as [|k IH]; intros T; [reflexivity|].
  cbn [states seq map]. f_equal. rewrite IH, <- seq_shift, map_map. reflexivity.
Qed.

Lemma run_history_as_map (p : params K) (num_x num_t_steps : Z) :
  run_history p num_x num_t_steps =
  map (run_state p num_x) (seq 0 (S (Z.to_nat num_t_steps))).
Proof.
  unfold run_history, run_state. rewrite states_as_map.
  cbn [seq map]. f_equal. now rewrite <- seq_shift, map_map.
Qed.

Lemma run_state_length (p : params K) (num_x : Z) (t : nat) :
  List.length (run_state p num_x t) = Z.to_nat num_x.
Proof.
  unfold run_state. destruct t as [|t].
  - apply initial_conditions_length.
  - rewrite state_after_S. unfold run_RHS, run_LHS.
    apply step_length; [apply tab_square|apply tab_length].
Qed.

Lemma step_file_events_as_map (prefix : string) (num_x : Z) (dx : K) (g : nat -> vec K)
    (s k : nat) :
  step_files_of (step_file_events prefix num_x dx s (map g (seq s k))) =
  map (fun t => (prefix, t, step_rows num_x dx (g t))) (seq s k).
Proof.
  revert s. induction k as [|k IH]; intros s; [reflexivity|].
  cbn [seq map step_file_events step_files_of flat_map app]. f_equal. apply IH.
Qed.

Lemma step_file_events_no_all (prefix : string) (num_x : Z) (dx : K) (s : nat)
    (h : list (vec K)) :
  all_timesteps_of (step_file_events prefix num_x dx s h) = [].
Proof. revert s. induction h as [|T h IH]; intros s; [reflexivity|]. apply IH. Qed.

Lemma all_rows_as_map (num_x : Z) (dx dt : K) (g : nat -> vec K) (s k : nat) :
  all_rows num_x dx dt s (map g (seq s k)) =
  flat_map (fun t => map (fun r => (smul (of_int (Z.of_nat t)) dt, fst r, snd r))
                       (step_rows num_x dx (g t))) (seq s k).
Proof.
  revert s. induction k as [|k IH]; intros s; [reflexivity|].
  cbn [seq map all_rows flat_map]. f_equal. apply IH.
Qed.

(** X5. The output block of an accepted run writes one step file per
    history entry, numbered from 0 in order, file [t] holding for each
    cell its position and its temperature after [t] steps; then one
    combined file with the rows of all step files in order, each
    preceded by the time [t * dt].  Every state has exactly [num_x]
    entries, so no row reads outside a state vector; and no file is
    written before the last solve. *)
Theorem output_files_hold_history (cl : cmdline K) (p : params K)
    (num_x num_t_steps : Z) :
  accepted cl p num_x ->
  2 <= num_x < INT_MAX ->
  step_count (total_time p) (dt p) = Some num_t_steps ->
  let dx := spacing num_x in
  let row := fun t i => (position dx (Z.of_nat i), nth i (run_state p num_x t) (of_int 0)) in
  let cells := seq 0 (Z.to_nat num_x) in
  let entries := seq 0 (S (Z.to_nat num_t_steps)) in
  step_files_of (fst (main cl)) =
    map (fun t => (output_prefix p, t, map (row t) cells)) entries /\
  all_timesteps_of (fst (main cl)) =
    [(output_prefix p,
      flat_map (fun t => map (fun i => (smul (of_int (Z.of_nat t)) (dt p),
                                        fst (row t i), snd (row t i))) cells) entries)] /\
  (forall t, List.length (run_state p num_x t) = Z.to_nat num_x) /\
  exists before after,
    fst (main cl) = before ++ after /\
    step_files_of before = [] /\ all_timesteps_of before = [] /\
    solvers after = [] /\ pushed after = [].
Proof.
  intros Hacc Hn Hs dx row cells entries.
  rewrite (main_closed cl p num_x num_t_steps Hacc Hn Hs). cbn [fst].
  destruct (setup_trace_no_file p num_x num_t_steps) as [S1 S2].
  destruct (loop_trace_no_file (Z.to_nat num_t_steps) 0 num_t_steps (run_RHS p num_x)
              (factorize (run_LHS p num_x)) (initial_conditions num_x (spacing num_x)))
    as [L1 L2].
  fold (run_loop_trace p num_x num_t_steps) in L1, L2.
  assert (O1 : step_files_of (output_trace p num_x (run_history p num_x num_t_steps)) =
               map (fun t => (output_prefix p, t, map (row t) cells)) entries).
  { unfold output_trace.
    change (Stdout WritingResults :: ?l) with ([Stdout (K := K) WritingResults] ++ l).
    rewrite !step_files_of_app, run_history_as_map, step_file_events_as_map.
    cbn [step_files_of flat_map app]. rewrite app_nil_r. reflexivity. }
  assert (O2 : all_timesteps_of (output_trace p num_x (run_history p num_x num_t_steps)) =
               [(output_prefix p,
                 flat_map (fun t => map (fun i => (smul (of_int (Z.of_nat t)) (dt p),
                                                   fst (row t i), snd (row t i))) cells)
                   entries)]).
  { unfold output_trace.
    change (Stdout WritingResults :: ?l) with ([Stdout (K := K) WritingResults] ++ l).
    rewrite !all_timesteps_of_app, step_file_events_no_all, run_history_as_map,
      all_rows_as_map.
    cbn [all_timesteps_of flat_map app]. do 2 f_equal.
    apply flat_map_ext. intros t. unfold step_rows. now rewrite map_map. }
  repeat split.
  - now rewrite !step_files_of_app, S1, L1, O1.
  - now rewrite !all_timesteps_of_app, S2, L2, O2.
  - intros t. apply run_state_length.
  - exists (setup_trace p num_x num_t_steps ++ run_loop_trace p num_x num_t_steps),
      (output_trace p num_x (run_history p num_x num_t_steps)).
    destruct (output_trace_quiet p num_x (run_history p num_x num_t_steps))
      as [_ [Q2 [_ Q4]]].
    repeat split.
    + now rewrite app_assoc.
    + now rewrite step_files_of_app, S1, L1.
    + now rewrite all_timesteps_of_app, S2, L2.
    + exact Q4.
    + exact Q2.
Qed.

End OutputBlock.

Lemma output_files_hold_history_witness :
  map (fun f => snd (fst f)) (step_files_of (fst (main example_cmdline))) = [0; 1; 2; 3]%nat.
Proof.
  rewrite (proj1 (output_files_hold_history example_cmdline example_params 3 3
                    example_accepted example_cells example_step_count)).
  reflexivity.
Defined.

(** ** File names *)

Lemma to_string_inj (t t' : nat) : to_string t = to_string t' -> t = t'.
Proof.
  unfold to_string. intros E.
  assert (Hn : forall n, Nat.to_uint n <> Decimal.Nil).
  { intros n. rewrite <- (DecimalNat.Unsigned.of_to n) at 1.
    rewrite DecimalNat.Unsigned.to_of. apply DecimalFacts.unorm_nonnil. }
  apply (f_equal NilZero.uint_of_string) in E.
  rewrite !NilZero.usu in E by apply Hn.
  injection E as E. now apply DecimalNat.Unsigned.to_uint_inj.
Qed.

Lemma step_file_name_inj (prefix : string) (t t' : nat) :
  step_file_name prefix t = step_file_name prefix t' -> t = t'.
Proof.
  unfold step_file_name. intros E.
  apply append_inv_head, append_inv_head, append_inv_tail in E.
  now apply to_string_inj.
Qed.

Lemma all_timesteps_name_apart (prefix : string) (t : nat) :
  step_file_name prefix t <> all_timesteps_name prefix.
Proof.
  unfold step_file_name, all_timesteps_name. intros E.
  apply append_inv_head in E. discriminate E.
Qed.

Section FileNames.

Context {K : Type} `{Scalar K} `{Printed K}.

Lemma files_written_app (a b : list (event K)) :
  files_written (a ++ b) = files_written a ++ files_written b.
Proof. apply flat_map_app. Qed.

Lemma files_written_setup (p : params K) (num_x num_t_steps : Z) :
  files_written (setup_trace p num_x num_t_steps) = [].
Proof.
  unfold setup_trace, warning.
  destruct (courant_warns (courant (alpha p) (dt p) (spacing num_x))); reflexivity.
Qed.

Lemma files_written_loop (k : nat) (t N : Z) (RHS : matrix K) (solver : PartialPivLU K)
    (T : vec K) :
  files_written (loop_trace k t N RHS solver T) = [].
Proof.
  revert t T. induction k as [|k IH]; intros t T; [reflexivity|].
  rewrite loop_trace_unfold, !files_written_app, IH.
  unfold progress. destruct (progress_due t N); reflexivity.
Qed.

Lemma files_written_step_files (prefix : string) (num_x : Z) (dx : K) (s : nat)
    (h : list (vec K)) :
  map fst (files_written (step_file_events prefix num_x dx s h)) =
  map (step_file_name prefix) (seq s (List.length h)).
Proof.
  revert s. induction h as [|T h IH]; intros s; [reflexivity|].
  cbn [step_file_events files_written flat_map app map List.length seq fst].
  f_equal. apply IH.
Qed.

(** X6. In an accepted run the files are opened under the names
    [prefix_t_0.csv], [prefix_t_1.csv], ... (one per history entry, in
    order) and then [prefix_all_timesteps.csv]; these names are pairwise
    different, so no file of a run is written over by a later one. *)
Theorem output_file_names_distinct (cl : cmdline K) (p : params K)
    (num_x num_t_steps : Z) :
  accepted cl p num_x ->
  2 <= num_x < INT_MAX ->
  step_count (total_time p) (dt p) = Some num_t_steps ->
  map fst (files_written (fst (main cl))) =
    map (step_file_name (output_prefix p)) (seq 0 (S (Z.to_nat num_t_steps)))
      ++ [all_timesteps_name (output_prefix p)] /\
  NoDup (map fst (files_written (fst (main cl)))).
Proof.
  intros Hacc Hn Hs.
  assert (E : map fst (files_written (fst (main cl))) =
              map (step_file_name (output_prefix p)) (seq 0 (S (Z.to_nat num_t_steps)))
                ++ [all_timesteps_name (output_prefix p)]).
  { rewrite (main_closed cl p num_x num_t_steps Hacc Hn Hs). cbn [fst].
    rewrite !files_written_app, files_written_setup. unfold run_loop_trace.
    rewrite files_written_loop. cbn [app]. unfold output_trace.
    change (Stdout WritingResults :: ?l) with ([Stdout (K := K) WritingResults] ++ l).
    rewrite !files_written_app, !map_app, files_written_step_files.
    unfold run_history. cbn [List.length]. rewrite states_length. reflexivity. }
  split; [exact E|]. rewrite E.
  apply NoDup_app.
  - apply NoDup_map_NoDup_ForallPairs; [|apply seq_NoDup].
    intros t t' _ _. apply step_file_name_inj.
  - constructor; [intros []|constructor].
  - intros name Hin [<-|[]]. apply in_map_iff in Hin. destruct Hin as [t [Et _]].
    exact (all_timesteps_name_apart _ _ Et).
Qed.

End FileNames.

Lemma output_file_names_distinct_witness :
  map fst (files_written (fst (main example_cmdline))) =
  ["results/temperature_t_0.csv"; "results/temperature_t_1.csv";
   "results/temperature_t_2.csv"; "results/temperature_t_3.csv";
   "results/temperature_all_timesteps.csv"]%string.
Proof.
  exact (proj1 (output_file_names_distinct example_cmdline example_params 3 3
                  example_accepted example_cells example_step_count)).
Defined.

(** ** Reading the files back *)

Lemma split_at_avoids (sep : ascii) (a : string) :
  avoids sep a = true -> split_at sep a = [a].
Proof.
  induction a as [|c a IH]; intros Ha; [reflexivity|].
  cbn [avoids] in Ha. apply andb_true_iff in Ha. destruct Ha as [Hc Ha].
  apply negb_true_iff in Hc. cbn [split_at]. now rewrite Hc, IH.
Qed.

Lemma split_at_app (sep : ascii) (a b : string) :
  avoids sep a = true ->
  split_at sep (a ++ String sep b) = a :: split_at sep b.
Proof.
  induction a as [|c a IH]; intros Ha.
  - cbn [append split_at]. now rewrite Ascii.eqb_refl.
  - cbn [avoids] in Ha. apply andb_true_iff in Ha. destruct Ha as [Hc Ha].
    apply negb_true_iff in Hc. cbn [append split_at]. now rewrite Hc, IH.
Qed.

Lemma avoids_app (sep : ascii) (a b : string) :
  avoids sep (a ++ b) = avoids sep a && avoids sep b.
Proof.
  induction a as [|c a IH]; [reflexivity|]. cbn [append avoids].
  now rewrite IH, andb_assoc.
Qed.

Lemma split_at_unlines (ls : list string) :
  Forall (fun l => avoids (ascii_of_nat 10) l = true) ls ->
  split_at (ascii_of_nat 10) (unlines ls) = ls ++ [EmptyString].
Proof.
  induction 1 as [|l ls Hl _ IH]; [reflexivity|].
  cbn [unlines app]. unfold newline. cbn [append].
  now rewrite split_at_app, IH.
Qed.

Lemma lines_unlines (ls : list string) :
  Forall (fun l => avoids (ascii_of_nat 10) l = true) ls ->
  lines (unlines ls) = ls.
Proof.
  intros Hls. unfold lines. rewrite split_at_unlines by assumption.
  apply removelast_last.
Qed.

Section Csv.

Context {K : Type} `{Scalar K} `{Printed K}.
Local Open Scope stream_scope.

Lemma fold_lines {R : Type} (line : R -> string) (f : ostream -> R -> ostream)
    (rows : list R) (s : string) :
  (forall s r, f {| text := s; notation := general; precision := 6 |} r =
     {| text := s ++ line r ++ newline; notation := general; precision := 6 |}) ->
  text (fold_left f rows {| text := s; notation := general; precision := 6 |}) =
  (s ++ unlines (map line rows))%string.
Proof.
  intros Hf. revert s. induction rows as [|r rows IH]; intros s.
  - cbn. now rewrite append_nil_r.
  - cbn [fold_left map unlines]. rewrite Hf, IH. now rewrite !append_assoc.
Qed.

Lemma step_file_text_unlines (rows : list (K * K)) :
  step_file_text rows =
  unlines ("x,Temperature"%string
             :: map (fun r => (num_put general 6 (fst r) ++ ","
                                 ++ num_put general 6 (snd r))%string) rows).
Proof.
  unfold step_file_text, opened, insert, insert_string. cbn [text notation precision].
  rewrite (fold_lines (fun r => (num_put general 6 (fst r) ++ ","
                                   ++ num_put general 6 (snd r))%string)).
  - reflexivity.
  - intros s r. unfold insert, insert_double, insert_string.
    cbn [text notation precision]. f_equal. now rewrite !append_assoc.
Qed.

Lemma all_timesteps_text_unlines (rows : list (K * K * K)) :
  all_timesteps_text rows =
  unlines ("t,x,Temperature"%string
             :: map (fun r => (num_put general 6 (fst (fst r)) ++ ","
                                 ++ num_put general 6 (snd (fst r)) ++ ","
                                 ++ num_put general 6 (snd r))%string) rows).
Proof.
  unfold all_timesteps_text, opened, insert, insert_string. cbn [text notation precision].
  rewrite (fold_lines (fun r => (num_put general 6 (fst (fst r)) ++ ","
                                   ++ num_put general 6 (snd (fst r)) ++ ","
                                   ++ num_put general 6 (snd r))%string)).
  - reflexivity.
  - intros s r. unfold insert, insert_double, insert_string.
    cbn [text notation precision]. f_equal. now rewrite !append_assoc.
Qed.

(** X7. The text of every output file reads back as comma-separated
    rows: a header row, then one row per cell with exactly the printed
    position and the printed temperature (and, in the combined file, the
    printed time before them), provided that no printed number holds a
    comma or a newline. *)
Theorem csv_text_reads_back (rows : list (K * K)) (all : list (K * K * K)) :
  printed_as_fields (flat_map (fun r => [fst r; snd r]) rows) ->
  printed_as_fields (flat_map (fun r => [fst (fst r); snd (fst r); snd r]) all) ->
  csv_rows (step_file_text rows) =
    ["x"; "Temperature"]%string
      :: map (fun r => [num_put general 6 (fst r); num_put general 6 (snd r)]) rows /\
  csv_rows (all_timesteps_text all) =
    ["t"; "x"; "Temperature"]%string
      :: map (fun r => [num_put general 6 (fst (fst r)); num_put general 6 (snd (fst r));
                        num_put general 6 (snd r)]) all.
Proof.
  intros Hrows Hall. unfold csv_rows. split.
  - rewrite step_file_text_unlines, lines_unlines.
    + cbn [map]. f_equal. rewrite map_map. apply map_ext_in. intros r Hr.
      assert (Hf : is_field (num_put general 6 (fst r)) = true /\
                   is_field (num_put general 6 (snd r)) = true).
      { unfold printed_as_fields in Hrows. rewrite Forall_forall in Hrows.
        split; apply Hrows; apply in_flat_map; exists r; (split; [exact Hr|]);
          [now left|right; now left]. }
      destruct Hf as [Hx HT]. unfold is_field in Hx, HT.
      apply andb_true_iff in Hx, HT.
      cbn [append]. rewrite split_at_app by apply Hx.
      now rewrite split_at_avoids by apply HT.
    + constructor; [reflexivity|]. apply Forall_forall. intros l Hl.
      apply in_map_iff in Hl. destruct Hl as [r [<- Hr]].
      unfold printed_as_fields in Hrows. rewrite Forall_forall in Hrows.
      rewrite !avoids_app.
      assert (Hx : is_field (num_put general 6 (fst r)) = true)
        by (apply Hrows; apply in_flat_map; exists r; split; [exact Hr|now left]).
      assert (HT : is_field (num_put general 6 (snd r)) = true)
        by (apply Hrows; apply in_flat_map; exists r; split; [exact Hr|right; now left]).
      unfold is_field in Hx, HT. apply andb_true_iff in Hx, HT.
      now rewrite (proj2 Hx), (proj2 HT).
  - rewrite all_timesteps_text_unlines, lines_unlines.
    + cbn [map]. f_equal. rewrite map_map. apply map_ext_in. intros r Hr.
      unfold printed_as_fields in Hall. rewrite Forall_forall in Hall.
      assert (Ht : is_field (num_put general 6 (fst (fst r))) = true)
        by (apply Hall; apply in_flat_map; exists r; split; [exact Hr|now left]).
      assert (Hx : is_field (num_put general 6 (snd (fst r))) = true)
        by (apply Hall; apply in_flat_map; exists r; split; [exact Hr|right; now left]).
      assert (HT : is_field (num_put general 6 (snd r)) = true)
        by (apply Hall; apply in_flat_map; exists r; split;
            [exact Hr|right; right; now left]).
      unfold is_field in Ht, Hx, HT. apply andb_true_iff in Ht, Hx, HT.
      cbn [append]. rewrite split_at_app by apply Ht.
      rewrite split_at_app by apply Hx.
      now rewrite split_at_avoids by apply HT.
    + constructor; [reflexivity|]. apply Forall_forall. intros l Hl.
      apply in_map_iff in Hl. destruct Hl as [r [<- Hr]].
      unfold printed_as_fields in Hall. rewrite Forall_forall in Hall.
      rewrite !avoids_app.
      assert (Ht : is_field (num_put general 6 (fst (fst r))) = true)
        by (apply Hall; apply in_flat_map; exists r; split; [exact Hr|now left]).
      assert (Hx : is_field (num_put general 6 (snd (fst r))) = true)
        by (apply Hall; apply in_flat_map; exists r; split; [exact Hr|right; now left]).
      assert (HT : is_field (num_put general 6 (snd r)) = true)
        by (apply Hall; apply in_flat_map; exists r; split;
            [exact Hr|right; right; now left]).
      unfold is_field in Ht, Hx, HT. apply andb_true_iff in Ht, Hx, HT.
      now rewrite (proj2 Ht), (proj2 Hx), (proj2 HT).
Qed.

End Csv.

Lemma csv_text_reads_back_witness :
  csv_rows (step_file_text
              (step_rows 3 (spacing 3) (initial_conditions (K := Qc) 3 (spacing 3)))) =
  [["x"; "Temperature"]; ["0.25"; "0"]; ["0.5"; "100"]; ["0.75"; "0"]]%string.
Proof.
  refine (proj1 (csv_text_reads_back
                   (step_rows 3 (spacing 3) (initial_conditions (K := Qc) 3 (spacing 3)))
                   [] _ _)).
  - repeat constructor.
  - constructor.
Defined.

(** ** Binary64: where rounding shows *)

(** X16. In binary64, for every cell count from 1 to 300, the cells that
    start hot are those of exact arithmetic unless [num_x + 1] is a
    multiple of 5, that is, unless a cell sits exactly on an edge of the
    hot band; for 26 of these cell counts (4, 9, 19, ...) the product
    [(i + 1) * dx] rounds across the edge and a cell is classified the
    other way. *)
Theorem hot_band_binary64 :
  forallb (fun num_x => ((Z.of_nat num_x + 1) mod 5 =? 0) || same_hot_cells num_x)
    (seq 1 300) = true /\
  filter (fun num_x => negb (same_hot_cells num_x)) (seq 1 300) =
    [4; 9; 19; 34; 39; 54; 64; 69; 74; 79; 94; 104; 109; 129; 139; 149; 159; 184; 189;
     209; 219; 244; 259; 279; 294; 299]%nat.
Proof. split; vm_compute; reflexivity. Qed.

(** X17. In binary64, with the default time step 0.01, a total time of
    [k] hundredths gives [k] steps for every [k] from 1 to 200 except 14
    values (29, 47, 57, ...), where the quotient rounds below [k] and the
    run makes [k - 1] steps. *)
Theorem step_count_binary64_hundredths :
  forallb (fun k => hundredths_give k (Z.of_nat k) || hundredths_give k (Z.of_nat k - 1))
    (seq 1 200) = true /\
  filter (fun k => negb (hundredths_give k (Z.of_nat k))) (seq 1 200) =
    [29; 47; 57; 58; 59; 94; 113; 114; 115; 116; 117; 118; 119; 188]%nat.
Proof. split; vm_compute; reflexivity. Qed.

(** The run [--time 0.03 3] in binary64, as a terminal shows it. *)
Remark example_run_binary64 :
  cout_after (fst (main example_cmdline_binary64)) opened =
  Done {| text := unlines
            ["--- 1D Heat Conduction Simulation ---";
             "Number of spatial cells (num_x): 3";
             "Thermal diffusivity (alpha): 0.01";
             "Spatial step (dx): 0.25";
             "Time step (dt): 0.01";
             "Total time: 0.03";
             "Number of time steps: 3";
             "Domain length (L): 1";
             "Output file prefix: results/temperature";
             "Courant number (alpha * dt / dx^2): 0.0016";
             "";
             "Initial Temperature Profile:";
             "0.000000, 100.000000, 0.000000";
             "Time step 1/3 completed.";
             "Time step 2/3 completed.";
             "Time step 3/3 completed.";
             "";
             "Writing results to files...";
             "Simulation completed successfully."]%string;
          notation := fixed; precision := 6 |} /\
  nth 1 (files_written (fst (main example_cmdline_binary64))) (EmptyString, EmptyString) =
  ("results/temperature_t_1.csv"%string,
   unlines ["x,Temperature"; "0.25,0.950872"; "0.5,99.0491"; "0.75,0.950872"]%string).
Proof. split; vm_compute; reflexivity. Qed.

(** * Binary64: the values of a run

    The claims about the numbers a run computes, settled on the doubles
    of the program. *)

(** ** Ranges of integers *)

Lemma all_from_spec (f : Z -> bool) (count : nat) (lo : Z) :
  all_from f lo count = true ->
  forall z, lo <= z < lo + Z.of_nat count -> f z = true.
Proof.
  revert lo. induction count as [|count IH]; intros lo E z Hz; [lia|].
  cbn [all_from] in E. apply andb_prop in E. destruct E as [E0 E1].
  destruct (Z.eq_dec z lo) as [->|Hne]; [exact E0|].
  apply (IH (lo + 1) E1). lia.
Qed.

Lemma all_between_spec (f : Z -> bool) (lo hi : Z) :
  all_between f lo hi = true ->
  forall z, lo <= z <= hi -> f z = true.
Proof.
  unfold all_between. intros E z Hz.
  apply (all_from_spec _ _ _ E). lia.
Qed.

(** ** Zeros and numbers *)

Lemma finite_double_cases (x : float) :
  finite_double x = true ->
  (exists s, Prim2SF x = S754_zero s) \/ (exists s m e, Prim2SF x = S754_finite s m e).
Proof.
  unfold finite_double. destruct (Prim2SF x) as [s|s| |s m e]; try discriminate; intros _.
  - left. now exists s.
  - right. now exists s, m, e.
Qed.

(** With zero diffusivity and a time step that is a number, the factor
    [alpha * dt / 2] is a zero. *)
Lemma zero_factor (d : float) :
  finite_double d = true ->
  exists s, Prim2SF (cn_factor (K := float) (of_int 0) d) = S754_zero s.
Proof.
  intros Hd. unfold cn_factor. cbn [smul sdiv float_Scalar of_int].
  rewrite div_spec, mul_spec.
  change (Prim2SF (float_of_int 0)) with (S754_zero false).
  change (Prim2SF (float_of_int 2)) with (S754_finite false 4503599627370496 (-51)).
  destruct (finite_double_cases d Hd) as [[s ->]|[s [m [e ->]]]]; exists s;
    destruct s; reflexivity.
Qed.

(** [a - f * b] and [a + f * b] are [a] when [f] is a zero, [b] a number
    and [a] a number other than the negative zero. *)
Lemma zero_product_absorbed (f a b : float) (s : bool) :
  Prim2SF f = S754_zero s ->
  finite_double b = true ->
  finite_double a = true ->
  Prim2SF a <> S754_zero true ->
  PrimFloat.sub a (PrimFloat.mul f b) = a /\ PrimFloat.add a (PrimFloat.mul f b) = a.
Proof.
  intros Hf Hb Ha Hneg.
  assert (Hp : exists s', Prim2SF (PrimFloat.mul f b) = S754_zero s').
  { rewrite mul_spec, Hf.
    destruct (finite_double_cases b Hb) as [[sb ->]|[sb [m [e ->]]]]; eexists; reflexivity. }
  destruct Hp as [s' Hp].
  split; apply Prim2SF_inj; [rewrite sub_spec|rewrite add_spec]; rewrite Hp;
    destruct (finite_double_cases a Ha) as [[sa Ea]|[sa [m [e Ea]]]]; rewrite Ea;
    try reflexivity;
    destruct sa; try (exfalso; apply Hneg; exact Ea); destruct s'; reflexivity.
Qed.

(** ** Rounding of a quotient below one *)

Lemma digits2_pos_bounds (p : positive) :
  2 ^ (Z.pos (digits2_pos p) - 1) <= Z.pos p < 2 ^ Z.pos (digits2_pos p).
Proof.
  induction p as [p IH|p IH|]; cbn [digits2_pos].
  - rewrite Pos2Z.inj_succ.
    replace (Z.succ (Z.pos (digits2_pos p)) - 1) with (Z.succ (Z.pos (digits2_pos p) - 1)) by lia.
    rewrite !Z.pow_succ_r by lia. lia.
  - rewrite Pos2Z.inj_succ.
    replace (Z.succ (Z.pos (digits2_pos p)) - 1) with (Z.succ (Z.pos (digits2_pos p) - 1)) by lia.
    rewrite !Z.pow_succ_r by lia. lia.
  - cbn. lia.
Qed.

Lemma Zdigits2_below (m k : Z) : 0 <= k -> 0 <= m < 2 ^ k -> Zdigits2 m <= k.
Proof.
  intros Hk Hm. destruct m as [|p|p]; cbn [Zdigits2]; [lia| |lia].
  pose proof (digits2_pos_bounds p) as [Hlo _].
  destruct (Z.le_gt_cases (Z.pos (digits2_pos p)) k) as [|Hgt]; [assumption|].
  assert (2 ^ k <= 2 ^ (Z.pos (digits2_pos p) - 1)) by (apply Z.pow_le_mono_r; lia).
  lia.
Qed.

Lemma shr_1_inv (mrs : shr_record) (N D : Z) :
  0 < D -> shr_inv mrs N D -> shr_inv (shr_1 mrs) N (2 * D).
Proof.
  intros HD. destruct mrs as [m r s]. unfold shr_inv. cbn [shr_m shr_r].
  intros [Hm [Hlo Hr]].
  destruct m as [|p|p]; [| |lia].
  - cbn [shr_1 shr_m shr_r]. repeat split; try lia; try discriminate.
  - destruct p as [p|p|]; cbn [shr_1 shr_m shr_r].
    + replace (Z.pos p~1) with (2 * Z.pos p + 1) in Hlo by lia.
      repeat split; try lia; try (intros _; nia).
    + replace (Z.pos p~0) with (2 * Z.pos p) in Hlo by lia.
      repeat split; try lia; try discriminate.
    + repeat split; try lia.
Qed.

Lemma iter_pos_shr_inv (p : positive) (mrs : shr_record) (N D : Z) :
  0 < D -> shr_inv mrs N D -> shr_inv (iter_pos shr_1 p mrs) N (D * 2 ^ Z.pos p).
Proof.
  revert mrs D. induction p as [p IH|p IH|]; intros mrs D HD Hinv; cbn [iter_pos].
  - replace (Z.pos p~1) with (Z.pos p + Z.pos p + 1) by lia.
    replace (D * 2 ^ (Z.pos p + Z.pos p + 1)) with (2 * D * 2 ^ Z.pos p * 2 ^ Z.pos p).
    + apply IH; [|apply IH; [lia|now apply shr_1_inv]].
      pose proof (Z.pow_pos_nonneg 2 (Z.pos p)). nia.
    + rewrite !Z.pow_add_r, Z.pow_1_r by lia. ring.
  - replace (Z.pos p~0) with (Z.pos p + Z.pos p) by lia.
    replace (D * 2 ^ (Z.pos p + Z.pos p)) with (D * 2 ^ Z.pos p * 2 ^ Z.pos p).
    + apply IH; [|apply IH; assumption].
      pose proof (Z.pow_pos_nonneg 2 (Z.pos p)). nia.
    + rewrite Z.pow_add_r by lia. ring.
  - replace (D * 2 ^ 1) with (2 * D) by (rewrite Z.pow_1_r; ring).
    now apply shr_1_inv.
Qed.

Lemma shr_inv_spec (mrs : shr_record) (e n N D : Z) :
  0 < D -> shr_inv mrs N D ->
  exists k, 0 <= k /\ snd (shr mrs e n) = e + k /\ (k = 0 \/ (k = n /\ 0 < n)) /\
            shr_inv (fst (shr mrs e n)) N (D * 2 ^ k).
Proof.
  intros HD Hinv. unfold shr. destruct n as [|p|p].
  - exists 0. cbn [fst snd]. rewrite Z.pow_0_r, Z.mul_1_r, Z.add_0_r.
    split; [lia|]. split; [reflexivity|]. split; [now left|exact Hinv].
  - exists (Z.pos p). cbn [fst snd].
    split; [lia|]. split; [reflexivity|]. split; [right; lia|].
    now apply iter_pos_shr_inv.
  - exists 0. cbn [fst snd]. rewrite Z.pow_0_r, Z.mul_1_r, Z.add_0_r.
    split; [lia|]. split; [reflexivity|]. split; [now left|exact Hinv].
Qed.

Lemma round_nearest_even_cases (m : Z) (mrs : shr_record) :
  round_nearest_even m (loc_of_shr_record mrs) = m \/
  (round_nearest_even m (loc_of_shr_record mrs) = m + 1 /\ shr_r mrs = true).
Proof.
  destruct mrs as [m0 r s]. unfold loc_of_shr_record, round_nearest_even.
  cbn [shr_r]. destruct r, s; try (now left); [right; now split|].
  destruct (Z.even m); [now left|right; now split].
Qed.

Lemma record_of_exact_inv (m : Z) : 0 <= m -> shr_inv (shr_record_of_loc m loc_Exact) m 1.
Proof.
  intros Hm. unfold shr_inv. cbn [shr_record_of_loc shr_m shr_r].
  repeat split; try lia; try discriminate.
Qed.

(** A number below [1 - 2^-53], given at an exponent of at most [-53],
    rounds to a double below one. *)
Lemma round_below_one (sx : bool) (q e : Z) (loc : location) (N D : Z) :
  0 < D -> 0 <= q ->
  shr_inv (shr_record_of_loc q loc) N D ->
  e <= -53 ->
  q < 2 ^ (- e) ->
  N * 2 ^ 53 <= (2 ^ 53 - 1) * D * 2 ^ (- e) ->
  match binary_round_aux prec emax sx q e loc with
  | S754_zero _ => True
  | S754_finite _ m e' => e' < 0 /\ Z.pos m < 2 ^ (- e')
  | _ => False
  end.
Proof.
  intros HD Hq Hinv He Hq2 HB. unfold binary_round_aux, shr_fexp.
  destruct (shr_inv_spec (shr_record_of_loc q loc) e
              (fexp prec emax (Zdigits2 q + e) - e) N D HD Hinv)
    as [k [Hk [Ee1 [Hkn Hinv1]]]].
  destruct (shr (shr_record_of_loc q loc) e (fexp prec emax (Zdigits2 q + e) - e))
    as [mrs1 e1]. cbn [fst snd] in Ee1, Hinv1.
  assert (Hdig : Zdigits2 q + e <= 0).
  { pose proof (Zdigits2_below q (- e) ltac:(lia) ltac:(lia)). lia. }
  assert (He1 : e1 <= -53).
  { destruct Hkn as [->|[-> Hpos]]; [lia|].
    unfold fexp, SpecFloat.emin, prec, emax in *. lia. }
  assert (Hpow : 2 ^ (- e) = 2 ^ k * 2 ^ (- e1)).
  { rewrite <- Z.pow_add_r by lia. f_equal. lia. }
  assert (Hpw53 : 2 ^ (- e1) = 2 ^ 53 * 2 ^ (- e1 - 53)).
  { rewrite <- Z.pow_add_r by lia. f_equal. lia. }
  pose proof (Z.pow_pos_nonneg 2 k ltac:(lia) Hk) as Hk2.
  pose proof (Z.pow_pos_nonneg 2 (- e1 - 53) ltac:(lia) ltac:(lia)) as HP.
  set (P := 2 ^ (- e1 - 53)) in *. set (K2 := 2 ^ k) in *.
  set (T53 := 2 ^ 53) in *.
  assert (HT : 0 < T53) by (unfold T53; lia).
  destruct Hinv1 as [Hm1 [Hlo1 Hr1]].
  set (q1 := shr_m mrs1) in *.
  assert (Hround : 0 <= round_nearest_even q1 (loc_of_shr_record mrs1) < 2 ^ (- e1)).
  { rewrite Hpw53. fold P T53.
    assert (Hq1 : q1 * (D * K2) * T53 <= (T53 - 1) * D * (K2 * (T53 * P))).
    { rewrite Hpow, Hpw53 in HB. fold P T53 K2 in HB. nia. }
    assert (Hq1' : q1 <= (T53 - 1) * P).
    { assert (0 < D * K2 * T53) by nia.
      apply Z.mul_le_mono_pos_r with (p := D * K2 * T53); [assumption|]. nia. }
    destruct (round_nearest_even_cases q1 mrs1) as [->|[-> Hr]]; [nia|].
    specialize (Hr1 Hr).
    assert (Hup : (2 * q1 + 1) * (D * K2) * T53 <= 2 * ((T53 - 1) * D * (K2 * (T53 * P)))).
    { rewrite Hpow, Hpw53 in HB. fold P T53 K2 in HB. nia. }
    assert (Hup' : 2 * q1 + 1 <= 2 * ((T53 - 1) * P)).
    { assert (0 < D * K2 * T53) by nia.
      apply Z.mul_le_mono_pos_r with (p := D * K2 * T53); [assumption|]. nia. }
    nia. }
  set (m1 := round_nearest_even q1 (loc_of_shr_record mrs1)) in *.
  destruct (shr_inv_spec (shr_record_of_loc m1 loc_Exact) e1
              (fexp prec emax (Zdigits2 m1 + e1) - e1) m1 1 ltac:(lia)
              (record_of_exact_inv m1 ltac:(lia)))
    as [k2 [Hk2' [Ee2 [_ Hinv2]]]].
  destruct (shr (shr_record_of_loc m1 loc_Exact) e1
              (fexp prec emax (Zdigits2 m1 + e1) - e1)) as [mrs2 e2].
  cbn [fst snd] in Ee2, Hinv2. destruct Hinv2 as [Hm2 [Hlo2 _]].
  destruct (shr_m mrs2) as [|m|m] eqn:Em2; [exact I| |lia].
  pose proof (Z.pow_pos_nonneg 2 k2 ltac:(lia) Hk2') as Hk22.
  assert (Hk2lt : k2 < - e1).
  { destruct (Z.lt_ge_cases k2 (- e1)) as [|Hge]; [assumption|].
    assert (2 ^ (- e1) <= 2 ^ k2) by (apply Z.pow_le_mono_r; lia). nia. }
  assert (He2 : e2 < 0) by lia.
  assert (Hm : Z.pos m < 2 ^ (- e2)).
  { assert (Hsplit : 2 ^ (- e1) = 2 ^ k2 * 2 ^ (- e2)).
    { rewrite <- Z.pow_add_r by lia. f_equal. lia. }
    rewrite Hsplit in Hround.
    destruct (Z.lt_ge_cases (Z.pos m) (2 ^ (- e2))) as [|Hge]; [assumption|]. nia. }
  destruct (Z.leb_spec e2 (emax - prec)) as [_|Hbig];
    [split; assumption|unfold emax, prec in Hbig; lia].
Qed.

Lemma new_location_inv (q my r : Z) :
  0 < my -> 0 <= q -> 0 <= r < my ->
  shr_inv (shr_record_of_loc q (new_location my r)) (my * q + r) my.
Proof.
  intros Hmy Hq Hr. unfold shr_inv, new_location, new_location_even, new_location_odd.
  destruct (Z.even my);
    (destruct (Z.eqb_spec r 0) as [->|Hne];
     [cbn [shr_record_of_loc shr_m shr_r]; repeat split; try lia; try discriminate|]).
  - destruct (Z.compare_spec (2 * r) my);
      cbn [shr_record_of_loc shr_m shr_r]; repeat split; try lia; try discriminate;
      intros _; nia.
  - destruct (Z.compare_spec (2 * r + 1) my);
      cbn [shr_record_of_loc shr_m shr_r]; repeat split; try lia; try discriminate;
      intros _; nia.
Qed.

Lemma bounded_facts (m : positive) (e : Z) :
  bounded prec emax m e = true ->
  Z.pos m < 2 ^ 53 /\ SpecFloat.emin prec emax <= e /\
  (SpecFloat.emin prec emax < e -> 2 ^ 52 <= Z.pos m /\ Z.pos (digits2_pos m) = 53) /\
  Z.pos (digits2_pos m) <= 53.
Proof.
  unfold bounded, canonical_mantissa, fexp. intros Hb.
  apply andb_prop in Hb. destruct Hb as [Hc _]. apply Z.eqb_eq in Hc.
  pose proof (digits2_pos_bounds m) as [Hlo Hhi].
  unfold SpecFloat.emin, prec, emax in *.
  assert (Hd : Z.pos (digits2_pos m) <= 53) by lia.
  split.
  - assert (2 ^ Z.pos (digits2_pos m) <= 2 ^ 53) by (apply Z.pow_le_mono_r; lia). lia.
  - split; [lia|]. split; [|exact Hd].
    intros He. assert (Ed : Z.pos (digits2_pos m) = 53) by lia.
    rewrite Ed in Hlo. split; [exact Hlo|exact Ed].
Qed.

(** The quotient of two positive doubles, the first below the second,
    rounds to a double below one. *)
Lemma SFdiv_below_one (mx my : positive) (ex ey : Z) :
  bounded prec emax mx ex = true -> bounded prec emax my ey = true ->
  (ex < ey \/ (ex = ey /\ Z.pos mx < Z.pos my)) ->
  match SFdiv prec emax (S754_finite false mx ex) (S754_finite false my ey) with
  | S754_zero _ => True
  | S754_finite _ m e => e < 0 /\ Z.pos m < 2 ^ (- e)
  | _ => False
  end.
Proof.
  intros Hbx Hby Hlt.
  destruct (bounded_facts mx ex Hbx) as [Hmx [Hex [_ Hdx]]].
  destruct (bounded_facts my ey Hby) as [Hmy [Hey [Hny Hdy]]].
  pose proof (digits2_pos_bounds mx) as [Hlox Hhix].
  pose proof (digits2_pos_bounds my) as [Hloy Hhiy].
  cbn [SFdiv]. unfold SFdiv_core_binary. cbn [Zdigits2 xorb].
  set (dx := Z.pos (digits2_pos mx)) in *. set (dy := Z.pos (digits2_pos my)) in *.
  set (e' := Z.min (fexp prec emax (dx + ex - (dy + ey))) (ex - ey)).
  set (s := ex - ey - e').
  (* the digits of x end no higher than those of y *)
  assert (Hpos : dx + ex <= dy + ey).
  { destruct Hlt as [Hlt|[-> Hlt]].
    - destruct (Hny ltac:(lia)) as [_ Ed]. lia.
    - destruct (Z.le_gt_cases dx dy) as [|Hgt]; [lia|].
      assert (2 ^ dy <= 2 ^ (dx - 1)) by (apply Z.pow_le_mono_r; lia). lia. }
  assert (He' : e' <= -53).
  { unfold e', fexp, SpecFloat.emin, prec, emax. lia. }
  assert (Hs : 0 <= s) by (unfold s, e'; lia).
  assert (Hgap : 0 <= ey - ex) by lia.
  assert (Hpow : 2 ^ (- e') = 2 ^ s * 2 ^ (ey - ex)).
  { rewrite <- Z.pow_add_r by lia. f_equal. unfold s. lia. }
  pose proof (Z.pow_pos_nonneg 2 s ltac:(lia) Hs) as Hs2.
  pose proof (Z.pow_pos_nonneg 2 (ey - ex) ltac:(lia) Hgap) as Hg2.
  (* x is below y, by at least one part in 2^53 *)
  assert (HB : Z.pos mx * 2 ^ 53 <= (2 ^ 53 - 1) * Z.pos my * 2 ^ (ey - ex)).
  { destruct Hlt as [Hlt|[-> Hlt]].
    - destruct (Hny ltac:(lia)) as [Hbig _].
      assert (2 ^ 1 <= 2 ^ (ey - ex)) by (apply Z.pow_le_mono_r; lia).
      change (2 ^ 1) with 2 in *. change (2 ^ 52) with 4503599627370496 in *.
      change (2 ^ 53) with 9007199254740992 in *. nia.
    - rewrite Z.sub_diag, Z.pow_0_r.
      change (2 ^ 53) with 9007199254740992 in *. nia. }
  assert (Hm' : match s with
                | 0 => Z.pos mx
                | Z.pos _ => Z.shiftl (Z.pos mx) s
                | Z.neg _ => 0
                end = Z.pos mx * 2 ^ s).
  { destruct s as [|p|p] eqn:Es; [rewrite Z.pow_0_r; lia| |lia].
    now rewrite Z.shiftl_mul_pow2 by lia. }
  rewrite Hm'.
  pose proof (Z_div_mod (Z.pos mx * 2 ^ s) (Z.pos my) ltac:(lia)) as Hdm.
  destruct (Z.div_eucl (Z.pos mx * 2 ^ s) (Z.pos my)) as [q r].
  destruct Hdm as [Hqr Hr].
  assert (Hq : 0 <= q) by nia.
  apply round_below_one with (N := Z.pos mx * 2 ^ s) (D := Z.pos my); try lia.
  - rewrite Hqr. apply new_location_inv; lia.
  - rewrite Hpow.
    assert (Hxy : Z.pos mx < Z.pos my * 2 ^ (ey - ex)).
    { change (2 ^ 53) with 9007199254740992 in HB. nia. }
    assert (q * Z.pos my < Z.pos my * (2 ^ s * 2 ^ (ey - ex))) by nia.
    nia.
  - rewrite Hpow.
    replace ((2 ^ 53 - 1) * Z.pos my * (2 ^ s * 2 ^ (ey - ex)))
      with (((2 ^ 53 - 1) * Z.pos my * 2 ^ (ey - ex)) * 2 ^ s) by ring.
    replace (Z.pos mx * 2 ^ s * 2 ^ 53) with (Z.pos mx * 2 ^ 53 * 2 ^ s) by ring.
    apply Z.mul_le_mono_nonneg_r; lia.
Qed.

(** ** Rounding in the normal range *)

Lemma Zdigits2_exact (m d : Z) : 2 ^ (d - 1) <= m < 2 ^ d -> 0 < d -> Zdigits2 m = d.
Proof.
  intros Hm Hd.
  assert (0 < m) by (pose proof (Z.pow_pos_nonneg 2 (d - 1) ltac:(lia) ltac:(lia)); lia).
  destruct m as [|p|p]; try lia. cbn [Zdigits2].
  pose proof (digits2_pos_bounds p) as [Hlo Hhi].
  set (d' := Z.pos (digits2_pos p)) in *.
  destruct (Z.lt_trichotomy d' d) as [Hlt|[Heq|Hgt]]; [|exact Heq|].
  - assert (2 ^ d' <= 2 ^ (d - 1)) by (apply Z.pow_le_mono_r; lia). lia.
  - assert (2 ^ d <= 2 ^ (d' - 1)) by (apply Z.pow_le_mono_r; lia). lia.
Qed.

Lemma shr_1_floor (mrs : shr_record) (N D : Z) :
  0 < D -> shr_floor mrs N D -> shr_floor (shr_1 mrs) N (2 * D).
Proof.
  intros HD. destruct mrs as [m r s]. unfold shr_floor. cbn [shr_m].
  intros [Hm Hb].
  destruct m as [|p|p]; [| |lia].
  - cbn [shr_1 shr_m]. lia.
  - destruct p as [p|p|]; cbn [shr_1 shr_m].
    + replace (Z.pos p~1) with (2 * Z.pos p + 1) in Hb by lia. nia.
    + replace (Z.pos p~0) with (2 * Z.pos p) in Hb by lia. nia.
    + lia.
Qed.

Lemma iter_pos_shr_floor (p : positive) (mrs : shr_record) (N D : Z) :
  0 < D -> shr_floor mrs N D -> shr_floor (iter_pos shr_1 p mrs) N (D * 2 ^ Z.pos p).
Proof.
  revert mrs D. induction p as [p IH|p IH|]; intros mrs D HD Hinv; cbn [iter_pos].
  - replace (Z.pos p~1) with (Z.pos p + Z.pos p + 1) by lia.
    replace (D * 2 ^ (Z.pos p + Z.pos p + 1)) with (2 * D * 2 ^ Z.pos p * 2 ^ Z.pos p).
    + apply IH; [|apply IH; [lia|now apply shr_1_floor]].
      pose proof (Z.pow_pos_nonneg 2 (Z.pos p)). nia.
    + rewrite !Z.pow_add_r, Z.pow_1_r by lia. ring.
  - replace (Z.pos p~0) with (Z.pos p + Z.pos p) by lia.
    replace (D * 2 ^ (Z.pos p + Z.pos p)) with (D * 2 ^ Z.pos p * 2 ^ Z.pos p).
    + apply IH; [|apply IH; assumption].
      pose proof (Z.pow_pos_nonneg 2 (Z.pos p)). nia.
    + rewrite Z.pow_add_r by lia. ring.
  - replace (D * 2 ^ 1) with (2 * D) by (rewrite Z.pow_1_r; ring).
    now apply shr_1_floor.
Qed.

Lemma shr_floor_spec (mrs : shr_record) (e n N D : Z) :
  0 < D -> shr_floor mrs N D -> 0 <= n ->
  snd (shr mrs e n) = e + n /\ shr_floor (fst (shr mrs e n)) N (D * 2 ^ n).
Proof.
  intros HD Hinv Hn. unfold shr. destruct n as [|p|p]; [| |lia].
  - cbn [fst snd]. rewrite Z.pow_0_r, Z.mul_1_r, Z.add_0_r. now split.
  - cbn [fst snd]. split; [reflexivity|]. now apply iter_pos_shr_floor.
Qed.

Lemma record_of_loc_floor (q : Z) (loc : location) :
  0 <= q -> shr_floor (shr_record_of_loc q loc) q 1.
Proof.
  intros Hq. unfold shr_floor.
  destruct loc as [|[| |]]; cbn [shr_record_of_loc shr_m]; lia.
Qed.

Lemma round_nearest_even_range (m : Z) (loc : location) :
  m <= round_nearest_even m loc <= m + 1.
Proof.
  unfold round_nearest_even. destruct loc as [|[| |]]; try lia.
  destruct (Z.even m); lia.
Qed.

(** ** The value of a rounded result *)

Lemma record_floor (q : Z) (loc : location) (N D : Z) :
  0 <= q -> q * D <= N < (q + 1) * D -> shr_floor (shr_record_of_loc q loc) N D.
Proof.
  intros Hq Hb. unfold shr_floor.
  destruct loc as [|[| |]]; cbn [shr_record_of_loc shr_m]; lia.
Qed.

(** A number [N / D] whose integer part has at least 53 digits, in the
    range of the normal doubles, rounds to a normal double within one
    unit of its last place. *)
Lemma round_normal_value (s : bool) (q e d : Z) (loc : location) (N D : Z) :
  0 < D -> q * D <= N < (q + 1) * D ->
  2 ^ (d - 1) <= q < 2 ^ d -> 53 <= d ->
  SpecFloat.emin prec emax <= e + d - 53 -> e + d - 52 <= emax - prec ->
  exists m e2,
    binary_round_aux prec emax s q e loc = S754_finite s m e2 /\
    2 ^ 52 <= Z.pos m < 2 ^ 53 /\ (e2 = e + d - 53 \/ e2 = e + d - 52) /\
    (Z.pos m - 1) * D * 2 ^ (e2 - e) <= N < (Z.pos m + 1) * D * 2 ^ (e2 - e).
Proof.
  intros HD HN Hq Hd Hlo Hhi.
  assert (Hq0 : 0 < q) by (pose proof (Z.pow_pos_nonneg 2 (d - 1) ltac:(lia) ltac:(lia)); lia).
  unfold binary_round_aux, shr_fexp.
  rewrite (Zdigits2_exact q d Hq ltac:(lia)).
  assert (Ef : fexp prec emax (d + e) - e = d - 53).
  { unfold fexp, prec in *. lia. }
  rewrite Ef.
  destruct (shr_floor_spec (shr_record_of_loc q loc) e (d - 53) N D HD
              (record_floor q loc N D ltac:(lia) HN) ltac:(lia)) as [Ee1 Hfl].
  destruct (shr_floor_spec (shr_record_of_loc q loc) e (d - 53) q 1 ltac:(lia)
              (record_of_loc_floor q loc ltac:(lia)) ltac:(lia)) as [_ Hfq].
  destruct (shr (shr_record_of_loc q loc) e (d - 53)) as [mrs1 e1].
  cbn [fst snd] in Ee1, Hfl, Hfq. subst e1. rewrite Z.mul_1_l in Hfq.
  destruct Hfl as [Hm1 Hb1]. destruct Hfq as [_ Hbq]. set (q1 := shr_m mrs1) in *.
  assert (Hsplit : 2 ^ d = 2 ^ 53 * 2 ^ (d - 53)).
  { rewrite <- Z.pow_add_r by lia. f_equal. lia. }
  assert (Hsplit' : 2 ^ (d - 1) = 2 ^ 52 * 2 ^ (d - 53)).
  { rewrite <- Z.pow_add_r by lia. f_equal. lia. }
  pose proof (Z.pow_pos_nonneg 2 (d - 53) ltac:(lia) ltac:(lia)) as HK.
  set (K2 := 2 ^ (d - 53)) in *.
  assert (Hq1 : 2 ^ 52 <= q1 < 2 ^ 53).
  { rewrite Hsplit, Hsplit' in Hq. split.
    - destruct (Z.le_gt_cases (2 ^ 52) q1) as [|Hlt]; [assumption|]. nia.
    - destruct (Z.lt_ge_cases q1 (2 ^ 53)) as [|Hge]; [assumption|]. nia. }
  pose proof (round_nearest_even_range q1 (loc_of_shr_record mrs1)) as Hr.
  set (m1 := round_nearest_even q1 (loc_of_shr_record mrs1)) in *.
  destruct (Z.eq_dec m1 (2 ^ 53)) as [E53|Hne].
  - rewrite E53.
    change (Zdigits2 (2 ^ 53)) with 54.
    assert (Ef2 : fexp prec emax (54 + (e + (d - 53))) - (e + (d - 53)) = 1).
    { unfold fexp, prec in *. lia. }
    rewrite Ef2. cbn [shr_record_of_loc shr iter_pos shr_1 fst snd shr_m].
    change (2 ^ 53) with (Z.pos 9007199254740992).
    cbn [shr_1 shr_m].
    destruct (Z.leb_spec (e + (d - 53) + 1) (emax - prec)); [|lia].
    eexists. eexists. split; [reflexivity|]. split; [cbn; lia|]. split; [right; lia|].
    replace (e + (d - 53) + 1 - e) with (d - 53 + 1) by lia.
    rewrite Z.pow_add_r, Z.pow_1_r by lia. fold K2.
    change (2 ^ 53) with 9007199254740992 in *.
    assert (Eq1 : q1 = 9007199254740991) by lia.
    rewrite Eq1 in Hb1. nia.
  - assert (Hm1' : 2 ^ 52 <= m1 < 2 ^ 53) by lia.
    rewrite (Zdigits2_exact m1 53 Hm1' ltac:(lia)).
    assert (Ef2 : fexp prec emax (53 + (e + (d - 53))) - (e + (d - 53)) = 0).
    { unfold fexp, prec in *. lia. }
    rewrite Ef2. cbn [shr shr_record_of_loc fst snd shr_m].
    destruct m1 as [|m|m] eqn:Em; [cbn in Hm1'; lia| |lia].
    destruct (Z.leb_spec (e + (d - 53)) (emax - prec)); [|lia].
    exists m, (e + (d - 53)). split; [reflexivity|]. split; [exact Hm1'|].
    split; [left; lia|].
    replace (e + (d - 53) - e) with (d - 53) by lia. fold K2. nia.
Qed.

(** A mantissa of 53 digits with nothing beyond it is kept as it is. *)
Lemma round_exact (s : bool) (m : positive) (e : Z) :
  2 ^ 52 <= Z.pos m < 2 ^ 53 ->
  SpecFloat.emin prec emax <= e <= emax - prec ->
  binary_round_aux prec emax s (Z.pos m) e loc_Exact = S754_finite s m e.
Proof.
  intros Hm He. unfold binary_round_aux, shr_fexp.
  rewrite (Zdigits2_exact (Z.pos m) 53 Hm ltac:(lia)).
  assert (Ef : fexp prec emax (53 + e) - e = 0).
  { unfold fexp, prec in *. lia. }
  rewrite Ef. cbn [shr shr_record_of_loc loc_of_shr_record round_nearest_even shr_m].
  rewrite (Zdigits2_exact (Z.pos m) 53 Hm ltac:(lia)), Ef.
  cbn [shr shr_record_of_loc shr_m].
  destruct (Z.leb_spec e (emax - prec)); [reflexivity|lia].
Qed.

(** The conversion of a positive integer below [2^53] holds that
    integer. *)
Lemma binary_normalize_exact (z : Z) :
  0 < z < 2 ^ 53 ->
  exists m e,
    binary_normalize prec emax z 0 false = S754_finite false m e /\
    2 ^ 52 <= Z.pos m < 2 ^ 53 /\ -52 <= e <= 0 /\ Z.pos m = z * 2 ^ (- e).
Proof.
  intros Hz. destruct z as [|p|p]; try lia.
  cbn [binary_normalize]. unfold binary_round.
  pose proof (digits2_pos_bounds p) as [Hlo Hhi].
  set (d := Z.pos (digits2_pos p)) in *.
  assert (Hd : 1 <= d <= 53).
  { split; [unfold d; lia|].
    destruct (Z.le_gt_cases d 53) as [|Hgt]; [assumption|].
    assert (2 ^ 53 <= 2 ^ (d - 1)) by (apply Z.pow_le_mono_r; lia). lia. }
  rewrite Z.add_0_r.
  assert (Ef : fexp prec emax d = d - 53).
  { unfold fexp, SpecFloat.emin, prec, emax. lia. }
  rewrite Ef. unfold shl_align. rewrite Z.sub_0_r.
  destruct (d - 53) as [|n|n] eqn:En; try lia.
  - replace d with 53 in * by lia.
    rewrite round_exact; [|exact (conj Hlo Hhi)|unfold SpecFloat.emin, prec, emax; lia].
    exists p, 0. repeat split; try lia; cbn; lia.
  - change (Pos.iter xO p n) with (shift_pos n p).
    assert (Hv : Z.pos (shift_pos n p) = Z.pos p * 2 ^ (53 - d)).
    { rewrite shift_pos_correct, Z.pow_pos_fold.
      replace (Z.pos n) with (53 - d) by lia. ring. }
    assert (E53 : 2 ^ 53 = 2 ^ (53 - d) * 2 ^ d).
    { rewrite <- Z.pow_add_r by lia. f_equal. lia. }
    assert (E52 : 2 ^ 52 = 2 ^ (53 - d) * 2 ^ (d - 1)).
    { rewrite <- Z.pow_add_r by lia. f_equal. lia. }
    assert (Hm : 2 ^ 52 <= Z.pos (shift_pos n p) < 2 ^ 53).
    { rewrite Hv, E53, E52.
      pose proof (Z.pow_pos_nonneg 2 (53 - d) ltac:(lia) ltac:(lia)). nia. }
    rewrite round_exact; [|exact Hm|unfold SpecFloat.emin, prec, emax; lia].
    exists (shift_pos n p), (Z.neg n). repeat split; try lia.
    rewrite Hv. f_equal. f_equal. lia.
Qed.

(** The product of two normal doubles, within one unit of its last
    place. *)
Lemma SFmul_value (sx sy : bool) (mx my : positive) (ex ey : Z) :
  2 ^ 52 <= Z.pos mx < 2 ^ 53 -> 2 ^ 52 <= Z.pos my < 2 ^ 53 ->
  SpecFloat.emin prec emax <= ex + ey + 52 -> ex + ey + 54 <= emax - prec ->
  exists m e,
    SFmul prec emax (S754_finite sx mx ex) (S754_finite sy my ey) =
      S754_finite (xorb sx sy) m e /\
    2 ^ 52 <= Z.pos m < 2 ^ 53 /\ ex + ey + 52 <= e <= ex + ey + 54 /\
    (Z.pos m - 1) * 2 ^ (e - (ex + ey)) <= Z.pos mx * Z.pos my
      < (Z.pos m + 1) * 2 ^ (e - (ex + ey)).
Proof.
  intros Hmx Hmy Hlo Hhi.
  cbn [SFmul]. rewrite Pos2Z.inj_mul.
  change (2 ^ 52) with 4503599627370496 in *.
  change (2 ^ 53) with 9007199254740992 in *.
  assert (Hq : 4503599627370496 * 4503599627370496 <= Z.pos mx * Z.pos my
               < 9007199254740992 * 9007199254740992) by nia.
  change (4503599627370496 * 4503599627370496) with (2 ^ 104) in Hq.
  change (9007199254740992 * 9007199254740992) with (2 ^ 106) in Hq.
  unfold SpecFloat.emin, prec, emax in *.
  destruct (Z.lt_ge_cases (Z.pos mx * Z.pos my) (2 ^ 105)) as [Hlt|Hge].
  - destruct (round_normal_value (xorb sx sy) (Z.pos mx * Z.pos my) (ex + ey) 105
                loc_Exact (Z.pos mx * Z.pos my) 1)
      as [m [e2 [E [Hm [He2 Hv]]]]]; unfold SpecFloat.emin, prec, emax; try lia.
    exists m, e2. split; [exact E|]. split; [exact Hm|]. split; [lia|].
    rewrite !Z.mul_1_r in Hv. exact Hv.
  - destruct (round_normal_value (xorb sx sy) (Z.pos mx * Z.pos my) (ex + ey) 106
                loc_Exact (Z.pos mx * Z.pos my) 1)
      as [m [e2 [E [Hm [He2 Hv]]]]]; unfold SpecFloat.emin, prec, emax; try lia.
    exists m, e2. split; [exact E|]. split; [exact Hm|]. split; [lia|].
    rewrite !Z.mul_1_r in Hv. exact Hv.
Qed.

(** The quotient of two normal doubles, within one unit of its last
    place. *)
Lemma SFdiv_value (sx sy : bool) (mx my : positive) (ex ey : Z) :
  2 ^ 52 <= Z.pos mx < 2 ^ 53 -> 2 ^ 52 <= Z.pos my < 2 ^ 53 ->
  SpecFloat.emin prec emax <= ex - ey - 53 -> ex - ey - 51 <= emax - prec ->
  exists m e,
    SFdiv prec emax (S754_finite sx mx ex) (S754_finite sy my ey) =
      S754_finite (xorb sx sy) m e /\
    2 ^ 52 <= Z.pos m < 2 ^ 53 /\ ex - ey - 53 <= e <= ex - ey - 51 /\
    (Z.pos m - 1) * Z.pos my * 2 ^ (e - (ex - ey - 53)) <= Z.pos mx * 2 ^ 53
      < (Z.pos m + 1) * Z.pos my * 2 ^ (e - (ex - ey - 53)).
Proof.
  intros Hmx Hmy Hlo Hhi.
  cbn [SFdiv]. unfold SFdiv_core_binary.
  rewrite (Zdigits2_exact (Z.pos mx) 53 Hmx ltac:(lia)).
  rewrite (Zdigits2_exact (Z.pos my) 53 Hmy ltac:(lia)).
  assert (Ee : Z.min (fexp prec emax (53 + ex - (53 + ey))) (ex - ey) = ex - ey - 53).
  { unfold fexp, SpecFloat.emin, prec, emax in *. lia. }
  rewrite Ee.
  replace (ex - ey - (ex - ey - 53)) with 53 by lia.
  rewrite Z.shiftl_mul_pow2 by lia.
  pose proof (Z_div_mod (Z.pos mx * 2 ^ 53) (Z.pos my) ltac:(lia)) as Hdm.
  destruct (Z.div_eucl (Z.pos mx * 2 ^ 53) (Z.pos my)) as [q r].
  destruct Hdm as [Hqr Hr].
  change (2 ^ 52) with 4503599627370496 in *.
  change (2 ^ 53) with 9007199254740992 in *.
  assert (Hq : 4503599627370496 <= q < 18014398509481984) by nia.
  unfold SpecFloat.emin, prec, emax in *.
  destruct (Z.lt_ge_cases q 9007199254740992) as [Hlt|Hge].
  - destruct (round_normal_value (xorb sx sy) q (ex - ey - 53) 53
                (new_location (Z.pos my) r) (Z.pos mx * 9007199254740992) (Z.pos my))
      as [m [e2 [E [Hm [He2 Hv]]]]]; unfold SpecFloat.emin, prec, emax;
      try (change (2 ^ (53 - 1)) with 4503599627370496;
           change (2 ^ 53) with 9007199254740992); try lia.
    exists m, e2. split; [exact E|]. split; [exact Hm|]. split; [lia|exact Hv].
  - destruct (round_normal_value (xorb sx sy) q (ex - ey - 53) 54
                (new_location (Z.pos my) r) (Z.pos mx * 9007199254740992) (Z.pos my))
      as [m [e2 [E [Hm [He2 Hv]]]]]; unfold SpecFloat.emin, prec, emax;
      try (change (2 ^ (54 - 1)) with 9007199254740992;
           change (2 ^ 54) with 18014398509481984); try lia.
    exists m, e2. split; [exact E|]. split; [exact Hm|]. split; [lia|exact Hv].
Qed.

(** Order of two positive normal doubles, by their values scaled to
    integers. *)
Lemma SFleb_value (m1 m2 : positive) (e1 e2 lo : Z) :
  2 ^ 52 <= Z.pos m1 < 2 ^ 53 -> 2 ^ 52 <= Z.pos m2 < 2 ^ 53 ->
  lo <= e1 -> lo <= e2 ->
  SFleb (S754_finite false m1 e1) (S754_finite false m2 e2) =
  (Z.pos m1 * 2 ^ (e1 - lo) <=? Z.pos m2 * 2 ^ (e2 - lo)).
Proof.
  intros H1 H2 L1 L2. unfold SFleb, SFcompare.
  change (Pos.compare_cont Eq m1 m2) with (m1 ?= m2)%positive.
  change (2 ^ 52) with 4503599627370496 in *.
  change (2 ^ 53) with 9007199254740992 in *.
  destruct (Z.compare_spec e1 e2) as [->|Hlt|Hgt].
  - pose proof (Z.pow_pos_nonneg 2 (e2 - lo) ltac:(lia) ltac:(lia)).
    destruct (Z.leb_spec (Z.pos m1 * 2 ^ (e2 - lo)) (Z.pos m2 * 2 ^ (e2 - lo)));
      destruct (Pos.compare_spec m1 m2) as [Hm|Hm|Hm];
      try reflexivity; try (subst m1; lia); nia.
  - assert (E : 2 ^ (e2 - lo) = 2 ^ (e1 - lo) * 2 ^ (e2 - e1)).
    { rewrite <- Z.pow_add_r by lia. f_equal. lia. }
    assert (2 ^ 1 <= 2 ^ (e2 - e1)) by (apply Z.pow_le_mono_r; lia).
    pose proof (Z.pow_pos_nonneg 2 (e1 - lo) ltac:(lia) ltac:(lia)).
    rewrite E. change (2 ^ 1) with 2 in *.
    destruct (Z.leb_spec (Z.pos m1 * 2 ^ (e1 - lo))
                (Z.pos m2 * (2 ^ (e1 - lo) * 2 ^ (e2 - e1)))); [reflexivity|nia].
  - assert (E : 2 ^ (e1 - lo) = 2 ^ (e2 - lo) * 2 ^ (e1 - e2)).
    { rewrite <- Z.pow_add_r by lia. f_equal. lia. }
    assert (2 ^ 1 <= 2 ^ (e1 - e2)) by (apply Z.pow_le_mono_r; lia).
    pose proof (Z.pow_pos_nonneg 2 (e2 - lo) ltac:(lia) ltac:(lia)).
    rewrite E. change (2 ^ 1) with 2 in *.
    destruct (Z.leb_spec (Z.pos m1 * (2 ^ (e2 - lo) * 2 ^ (e1 - e2)))
                (Z.pos m2 * 2 ^ (e2 - lo))); [nia|reflexivity].
Qed.

Lemma normal_weaken (x : spec_float) (lo hi lo' hi' : Z) :
  normal x lo hi -> lo' <= lo -> hi <= hi' -> normal x lo' hi'.
Proof.
  intros [s [m [e [E [Hm He]]]]] Hlo Hhi. exists s, m, e. repeat split; try assumption; lia.
Qed.

(** The product and the quotient of two normal doubles whose exponents
    keep them in the normal range are normal doubles. *)
Lemma SFmul_normal (x y : spec_float) (lox hix loy hiy : Z) :
  normal x lox hix -> normal y loy hiy ->
  SpecFloat.emin prec emax <= lox + loy + 52 -> hix + hiy + 54 <= emax - prec ->
  normal (SFmul prec emax x y) (lox + loy + 52) (hix + hiy + 54).
Proof.
  intros [sx [mx [ex [-> [Hmx Hex]]]]] [sy [my [ey [-> [Hmy Hey]]]]] Hlo Hhi.
  destruct (SFmul_value sx sy mx my ex ey Hmx Hmy ltac:(lia) ltac:(lia))
    as [m [e [E [Hm [He _]]]]].
  exists (xorb sx sy), m, e. split; [exact E|]. split; [exact Hm|lia].
Qed.

Lemma SFdiv_normal (x y : spec_float) (lox hix loy hiy : Z) :
  normal x lox hix -> normal y loy hiy ->
  SpecFloat.emin prec emax <= lox - hiy - 53 -> hix - loy - 51 <= emax - prec ->
  normal (SFdiv prec emax x y) (lox - hiy - 53) (hix - loy - 51).
Proof.
  intros [sx [mx [ex [-> [Hmx Hex]]]]] [sy [my [ey [-> [Hmy Hey]]]]] Hlo Hhi.
  destruct (SFdiv_value sx sy mx my ex ey Hmx Hmy ltac:(lia) ltac:(lia))
    as [m [e [E [Hm [He _]]]]].
  exists (xorb sx sy), m, e. split; [exact E|]. split; [exact Hm|lia].
Qed.

(** ** The arithmetic of the hot band

    [U / E] and [W / (F * E)] are the mantissas of the spacing and of a
    position, each within one unit of what it rounds; [a] is
    [num_x + 1] and [b] is [i + 1].  The doubles [0.4] and [0.6], on the
    scale of [W], are [edge_04] and [edge_06]. *)

Lemma band_constants :
  two_52 = 2 ^ 52 /\ two_105 = 2 ^ 105 /\
  edge_04 = 7205759403792794 * 2 ^ 51 /\ edge_06 = 5404319552844595 * 2 ^ 52.
Proof. repeat split. Qed.

Lemma band_chains (a b md mx E F : Z) :
  two_52 <= md -> two_52 <= mx -> 0 < E -> 0 < F -> 0 < a -> 0 < b ->
  (md - 1) * a * E <= two_105 < (md + 1) * a * E ->
  (mx - 1) * F <= b * md < (mx + 1) * F ->
  b * (two_52 * two_52 * two_105) < mx * F * E * ((two_52 + 1) * (two_52 + 1) * a) /\
  mx * F * E * ((two_52 - 1) * (two_52 - 1) * a) <= b * (two_52 * two_52 * two_105).
Proof.
  intros Hmd Hmx HE HF Ha Hb [Hdl Hdu] [Hml Hmu].
  set (U := md * E). set (W := mx * F * E). set (G := F * E).
  assert (HT : 0 < two_52) by (unfold two_52; lia).
  assert (HG : 0 < G) by (unfold G; nia).
  assert (HU : E * two_52 <= U) by (unfold U; nia).
  assert (HW : G * two_52 <= W) by (unfold W, G; nia).
  assert (HU0 : 0 < U) by nia.
  assert (HW0 : 0 < W) by nia.
  assert (Hdu' : two_105 < (U + E) * a) by (unfold U; nia).
  assert (Hdl' : (U - E) * a <= two_105) by (unfold U; nia).
  assert (Hmu' : b * U < W + G).
  { unfold U, W, G.
    replace (b * (md * E)) with (b * md * E) by ring.
    replace (mx * F * E + F * E) with ((mx + 1) * F * E) by ring.
    apply Z.mul_lt_mono_pos_r; assumption. }
  assert (Hml' : W - G <= b * U).
  { unfold U, W, G.
    replace (b * (md * E)) with (b * md * E) by ring.
    replace (mx * F * E - F * E) with ((mx - 1) * F * E) by ring.
    apply Z.mul_le_mono_nonneg_r; [lia|assumption]. }
  split.
  - (* T * 2^105 < U (T + 1) a  and  b U T < W (T + 1) *)
    assert (H1 : two_52 * two_105 < U * ((two_52 + 1) * a)).
    { apply Z.lt_le_trans with (two_52 * ((U + E) * a)).
      - apply Z.mul_lt_mono_pos_l; assumption.
      - replace (two_52 * ((U + E) * a)) with ((U * two_52 + E * two_52) * a) by ring.
        replace (U * ((two_52 + 1) * a)) with ((U * two_52 + U) * a) by ring.
        apply Z.mul_le_mono_nonneg_r; lia. }
    assert (H2 : b * U * two_52 < W * (two_52 + 1)).
    { apply Z.lt_le_trans with ((W + G) * two_52).
      - apply Z.mul_lt_mono_pos_r; assumption.
      - replace ((W + G) * two_52) with (W * two_52 + G * two_52) by ring. lia. }
    apply Z.lt_trans with (b * two_52 * (U * ((two_52 + 1) * a))).
    + replace (b * (two_52 * two_52 * two_105)) with (b * two_52 * (two_52 * two_105)) by ring.
      apply Z.mul_lt_mono_pos_l; [nia|assumption].
    + replace (b * two_52 * (U * ((two_52 + 1) * a))) with (b * U * two_52 * ((two_52 + 1) * a)) by ring.
      replace (W * ((two_52 + 1) * (two_52 + 1) * a)) with (W * (two_52 + 1) * ((two_52 + 1) * a)) by ring.
      apply Z.mul_lt_mono_pos_r; [nia|assumption].
  - assert (H1 : U * ((two_52 - 1) * a) <= two_52 * two_105).
    { apply Z.le_trans with (two_52 * ((U - E) * a)).
      - replace (U * ((two_52 - 1) * a)) with ((U * two_52 - U) * a) by ring.
        replace (two_52 * ((U - E) * a)) with ((U * two_52 - E * two_52) * a) by ring.
        apply Z.mul_le_mono_nonneg_r; lia.
      - apply Z.mul_le_mono_nonneg_l; lia. }
    assert (H2 : W * (two_52 - 1) <= b * U * two_52).
    { apply Z.le_trans with ((W - G) * two_52).
      - replace ((W - G) * two_52) with (W * two_52 - G * two_52) by ring. lia.
      - apply Z.mul_le_mono_nonneg_r; lia. }
    assert (HT1 : 0 < two_52 - 1) by (unfold two_52; lia).
    apply Z.le_trans with (b * U * two_52 * ((two_52 - 1) * a)).
    + replace (W * ((two_52 - 1) * (two_52 - 1) * a)) with (W * (two_52 - 1) * ((two_52 - 1) * a)) by ring.
      apply Z.mul_le_mono_nonneg_r; [nia|assumption].
    + replace (b * U * two_52 * ((two_52 - 1) * a)) with (b * two_52 * (U * ((two_52 - 1) * a))) by ring.
      replace (b * (two_52 * two_52 * two_105)) with (b * two_52 * (two_52 * two_105)) by ring.
      apply Z.mul_le_mono_nonneg_l; [nia|assumption].
Qed.

Lemma band_arith (a b md mx E F : Z) :
  two_52 <= md -> two_52 <= mx -> 0 < E -> 0 < F ->
  2 <= a < 2147483648 -> 0 < b ->
  (md - 1) * a * E <= two_105 < (md + 1) * a * E ->
  (mx - 1) * F <= b * md < (mx + 1) * F ->
  (2 * a + 1 <= 5 * b -> edge_04 <= mx * F * E) /\
  (5 * b <= 3 * a - 1 -> mx * F * E <= edge_06) /\
  (5 * b <= 2 * a - 1 -> mx * F * E < edge_04) /\
  (3 * a + 1 <= 5 * b -> edge_06 < mx * F * E).
Proof.
  intros Hmd Hmx HE HF Ha Hb Hd Hm.
  destruct (band_chains a b md mx E F Hmd Hmx HE HF ltac:(lia) Hb Hd Hm) as [Hlow Hupp].
  set (W := mx * F * E) in *.
  assert (HKp : 0 < (two_52 + 1) * (two_52 + 1) * a) by (unfold two_52; nia).
  assert (HKm : 0 < (two_52 - 1) * (two_52 - 1) * a) by (unfold two_52; nia).
  assert (HTP : 0 < two_52 * two_52 * two_105) by (unfold two_52, two_105; lia).
  repeat split; intros Hb5.
  - destruct (Z.le_gt_cases edge_04 W) as [|Hlt]; [assumption|exfalso].
    assert (H1 : W * ((two_52 + 1) * (two_52 + 1) * a) <= (edge_04 - 1) * ((two_52 + 1) * (two_52 + 1) * a))
      by (apply Z.mul_le_mono_nonneg_r; lia).
    assert (H2 : (2 * a + 1) * (two_52 * two_52 * two_105) <= 5 * b * (two_52 * two_52 * two_105))
      by (apply Z.mul_le_mono_nonneg_r; lia).
    unfold two_52, two_105, edge_04 in *. lia.
  - destruct (Z.le_gt_cases W edge_06) as [|Hlt]; [assumption|exfalso].
    assert (H1 : (edge_06 + 1) * ((two_52 - 1) * (two_52 - 1) * a) <= W * ((two_52 - 1) * (two_52 - 1) * a))
      by (apply Z.mul_le_mono_nonneg_r; lia).
    assert (H2 : 5 * b * (two_52 * two_52 * two_105) <= (3 * a - 1) * (two_52 * two_52 * two_105))
      by (apply Z.mul_le_mono_nonneg_r; lia).
    unfold two_52, two_105, edge_06 in *. lia.
  - destruct (Z.lt_ge_cases W edge_04) as [|Hge]; [assumption|exfalso].
    assert (H1 : edge_04 * ((two_52 - 1) * (two_52 - 1) * a) <= W * ((two_52 - 1) * (two_52 - 1) * a))
      by (apply Z.mul_le_mono_nonneg_r; lia).
    assert (H2 : 5 * b * (two_52 * two_52 * two_105) <= (2 * a - 1) * (two_52 * two_52 * two_105))
      by (apply Z.mul_le_mono_nonneg_r; lia).
    unfold two_52, two_105, edge_04 in *. lia.
  - destruct (Z.lt_ge_cases edge_06 W) as [|Hge]; [assumption|exfalso].
    assert (H1 : W * ((two_52 + 1) * (two_52 + 1) * a) <= edge_06 * ((two_52 + 1) * (two_52 + 1) * a))
      by (apply Z.mul_le_mono_nonneg_r; lia).
    assert (H2 : (3 * a + 1) * (two_52 * two_52 * two_105) <= 5 * b * (two_52 * two_52 * two_105))
      by (apply Z.mul_le_mono_nonneg_r; lia).
    unfold two_52, two_105, edge_06 in *. lia.
Qed.

(** ** Integers as doubles *)

Lemma float_of_int_exact (z : Z) :
  0 < z < 2 ^ 53 ->
  exists m e,
    Prim2SF (float_of_int z) = S754_finite false m e /\
    2 ^ 52 <= Z.pos m < 2 ^ 53 /\ -52 <= e <= 0 /\ Z.pos m = z * 2 ^ (- e).
Proof.
  intros Hz. unfold float_of_int.
  destruct (Z.ltb_spec z 0); [lia|].
  rewrite of_uint63_spec, Uint63.of_Z_spec.
  rewrite Z.mod_small.
  - now apply binary_normalize_exact.
  - change Uint63.wB with (2 ^ 63). change (2 ^ 53) with 9007199254740992 in *.
    change (2 ^ 63) with 9223372036854775808. lia.
Qed.

(** ** The spacing is a normal double *)

Lemma float_of_int_normal (z : Z) :
  0 < z < 2 ^ 53 -> normal (Prim2SF (float_of_int z)) (-52) 0.
Proof.
  intros Hz. destruct (float_of_int_exact z Hz) as [m [e [E [Hm [He _]]]]].
  exists false, m, e. split; [exact E|]. split; [exact Hm|exact He].
Qed.

Lemma normal_finite (x : float) (lo hi : Z) :
  normal (Prim2SF x) lo hi -> finite_double x = true.
Proof. intros [s [m [e [E _]]]]. unfold finite_double. now rewrite E. Qed.

(** The spacing of a grid of less than [INT_MAX] cells is a normal
    double, and so is its square. *)
Lemma spacing_normal (num_x : Z) :
  0 < num_x < INT_MAX ->
  normal (Prim2SF (spacing (K := float) num_x)) (-105) (-51).
Proof.
  intros Hn. unfold spacing, L. cbn [sdiv of_int float_Scalar].
  rewrite div_spec.
  assert (H1 : normal (Prim2SF (float_of_int 1)) (-52) (-52)).
  { exists false, 4503599627370496%positive, (-52). repeat split; cbn; lia. }
  assert (Hx : normal (Prim2SF (float_of_int (num_x + 1))) (-52) 0).
  { apply float_of_int_normal.
    unfold INT_MAX in Hn. change (2 ^ 31) with 2147483648 in *.
    change (2 ^ 53) with 9007199254740992. lia. }
  apply (normal_weaken _ (-52 - 0 - 53) (-52 - -52 - 51)); [|lia|lia].
  apply SFdiv_normal; try assumption; unfold SpecFloat.emin, prec, emax; lia.
Qed.

Lemma spacing_square_normal (num_x : Z) :
  0 < num_x < INT_MAX ->
  normal (Prim2SF (PrimFloat.mul (spacing (K := float) num_x) (spacing num_x)))
    (-158) (-48).
Proof.
  intros Hn. rewrite mul_spec.
  pose proof (spacing_normal num_x Hn) as Hdx.
  apply (normal_weaken _ (-105 + -105 + 52) (-51 + -51 + 54)); [|lia|lia].
  apply SFmul_normal; try assumption; unfold SpecFloat.emin, prec, emax; lia.
Qed.

(** The coefficients of the diffusion operator are numbers, whatever the
    cell count. *)
Lemma diffusion_finite_always (num_x : Z) :
  0 < num_x < INT_MAX -> diffusion_finite num_x = true.
Proof.
  intros Hn. unfold diffusion_finite.
  pose proof (spacing_square_normal num_x Hn) as Hdd.
  assert (Hc : forall c : Z, normal (Prim2SF (of_int c)) (-52) (-51) ->
            finite_double (PrimFloat.div (of_int c)
              (PrimFloat.mul (spacing num_x) (spacing num_x))) = true).
  { intros c Hcn. apply (normal_finite _ (-52 - -48 - 53) (-51 - -158 - 51)).
    rewrite div_spec.
    apply SFdiv_normal; try assumption; unfold SpecFloat.emin, prec, emax; lia. }
  cbn [forallb]. rewrite !andb_true_iff. repeat split.
  - apply Hc. exists false, 4503599627370496%positive, (-52). repeat split; cbn; lia.
  - apply Hc. exists true, 4503599627370496%positive, (-51). repeat split; cbn; lia.
  - apply Hc. exists false, 4503599627370496%positive, (-51). repeat split; cbn; lia.
  - unfold finite_double. rewrite div_spec.
    destruct Hdd as [s [m [e [-> _]]]]. reflexivity.
Qed.

(** ** The hot band in binary64 *)

Lemma band_edges_binary64 :
  Prim2SF (lit (K := float) 4 10) = S754_finite false 7205759403792794 (-54) /\
  Prim2SF (lit (K := float) 6 10) = S754_finite false 5404319552844595 (-53) /\
  Prim2SF (float_of_int 1) = S754_finite false 4503599627370496 (-52).
Proof. repeat split; vm_compute; reflexivity. Qed.

(** The position the program computes for cell [i], against the doubles
    [0.4] and [0.6]: decided by the exact position, unless that is on an
    edge of the band. *)
Lemma starts_hot_decided (num_x i : Z) :
  0 < num_x < INT_MAX -> 0 <= i < num_x ->
  (2 * (num_x + 1) < 5 * (i + 1) < 3 * (num_x + 1) -> starts_hot num_x i = true) /\
  (5 * (i + 1) < 2 * (num_x + 1) \/ 3 * (num_x + 1) < 5 * (i + 1) ->
   starts_hot num_x i = false).
Proof.
  intros Hn Hi. unfold INT_MAX in Hn. change (2 ^ 31) with 2147483648 in Hn.
  destruct band_edges_binary64 as [E4 [E6 E1]].
  destruct (float_of_int_exact (num_x + 1)) as [ma [ea [Ea [Hma [Hea Va]]]]];
    [change (2 ^ 53) with 9007199254740992; lia|].
  destruct (float_of_int_exact (i + 1)) as [mb [eb [Eb [Hmb [Heb Vb]]]]];
    [change (2 ^ 53) with 9007199254740992; lia|].
  assert (H1n : 2 ^ 52 <= Z.pos 4503599627370496 < 2 ^ 53)
    by (change (2 ^ 52) with 4503599627370496; change (2 ^ 53) with 9007199254740992; lia).
  destruct (SFdiv_value false false 4503599627370496 ma (-52) ea H1n Hma
              ltac:(unfold SpecFloat.emin, prec, emax; lia)
              ltac:(unfold SpecFloat.emin, prec, emax; lia))
    as [md [ed [Ed [Hmd [Hed Vd]]]]].
  destruct (SFmul_value false false mb md eb ed Hmb Hmd
              ltac:(unfold SpecFloat.emin, prec, emax; lia)
              ltac:(unfold SpecFloat.emin, prec, emax; lia))
    as [mx [ex [Ex [Hmx [Hex Vx]]]]].
  cbn [xorb] in Ed, Ex.
  assert (Hx : Prim2SF (position (K := float) (spacing num_x) i) = S754_finite false mx ex).
  { unfold position, spacing, L. cbn [smul sdiv of_int float_Scalar].
    rewrite mul_spec, div_spec, E1, Ea, Eb.
    unfold SF64mul, SF64div. rewrite Ed. exact Ex. }
  assert (Hhot : starts_hot num_x i =
                 (edge_04 <=? Z.pos mx * 2 ^ (ex + 105)) && (Z.pos mx * 2 ^ (ex + 105) <=? edge_06)).
  { unfold starts_hot, hot. cbn [sleb float_Scalar].
    rewrite !leb_spec, Hx, E4, E6.
    assert (H4n : 2 ^ 52 <= Z.pos 7205759403792794 < 2 ^ 53)
      by (change (2 ^ 52) with 4503599627370496;
          change (2 ^ 53) with 9007199254740992; lia).
    assert (H6n : 2 ^ 52 <= Z.pos 5404319552844595 < 2 ^ 53)
      by (change (2 ^ 52) with 4503599627370496;
          change (2 ^ 53) with 9007199254740992; lia).
    rewrite (SFleb_value 7205759403792794 mx (-54) ex (-105) H4n Hmx ltac:(lia) ltac:(lia)).
    rewrite (SFleb_value mx 5404319552844595 ex (-53) (-105) Hmx H6n ltac:(lia) ltac:(lia)).
    replace (ex - -105) with (ex + 105) by lia.
    reflexivity. }
  (* the two brackets, on the scale of the band *)
  set (E := 2 ^ (ed + 105)). set (F := 2 ^ (ex - ed)).
  assert (HE : 0 < E) by (apply Z.pow_pos_nonneg; lia).
  assert (HF : 0 < F) by (apply Z.pow_pos_nonneg; lia).
  assert (HW : Z.pos mx * 2 ^ (ex + 105) = Z.pos mx * F * E).
  { unfold E, F. rewrite <- Z.mul_assoc, <- Z.pow_add_r by lia. f_equal. f_equal. lia. }
  assert (Hd : (Z.pos md - 1) * (num_x + 1) * E <= two_105 < (Z.pos md + 1) * (num_x + 1) * E).
  { replace (ed - (-52 - ea - 53)) with (ed + 105 + ea) in Vd by lia.
    assert (EE : E = 2 ^ (- ea) * 2 ^ (ed + 105 + ea)).
    { unfold E. rewrite <- Z.pow_add_r by lia. f_equal. lia. }
    rewrite Va in Vd. rewrite EE.
    change (4503599627370496 * 2 ^ 53) with two_105 in Vd.
    replace ((Z.pos md - 1) * (num_x + 1) * (2 ^ (- ea) * 2 ^ (ed + 105 + ea)))
      with ((Z.pos md - 1) * ((num_x + 1) * 2 ^ (- ea)) * 2 ^ (ed + 105 + ea)) by ring.
    replace ((Z.pos md + 1) * (num_x + 1) * (2 ^ (- ea) * 2 ^ (ed + 105 + ea)))
      with ((Z.pos md + 1) * ((num_x + 1) * 2 ^ (- ea)) * 2 ^ (ed + 105 + ea)) by ring.
    exact Vd. }
  assert (Hm : (Z.pos mx - 1) * F <= (i + 1) * Z.pos md < (Z.pos mx + 1) * F).
  { assert (EF : 2 ^ (ex - (eb + ed)) = F * 2 ^ (- eb)).
    { unfold F. rewrite <- Z.pow_add_r by lia. f_equal. lia. }
    rewrite EF, Vb in Vx.
    pose proof (Z.pow_pos_nonneg 2 (- eb) ltac:(lia) ltac:(lia)) as HB.
    split.
    - apply (Z.mul_le_mono_pos_r _ _ (2 ^ (- eb)) HB).
      replace ((Z.pos mx - 1) * F * 2 ^ (- eb)) with ((Z.pos mx - 1) * (F * 2 ^ (- eb))) by ring.
      replace ((i + 1) * Z.pos md * 2 ^ (- eb)) with ((i + 1) * 2 ^ (- eb) * Z.pos md) by ring.
      apply Vx.
    - apply (Z.mul_lt_mono_pos_r (2 ^ (- eb)) _ _ HB).
      replace ((Z.pos mx + 1) * F * 2 ^ (- eb)) with ((Z.pos mx + 1) * (F * 2 ^ (- eb))) by ring.
      replace ((i + 1) * Z.pos md * 2 ^ (- eb)) with ((i + 1) * 2 ^ (- eb) * Z.pos md) by ring.
      apply Vx. }
  destruct (band_arith (num_x + 1) (i + 1) (Z.pos md) (Z.pos mx) E F)
    as [Hin4 [Hin6 [Hout4 Hout6]]]; try assumption; try lia;
    try (unfold two_52; change (2 ^ 52) with 4503599627370496 in *; lia).
  rewrite Hhot, HW. split.
  - intros [Hlo Hhi].
    specialize (Hin4 ltac:(lia)). specialize (Hin6 ltac:(lia)).
    apply andb_true_intro. split; apply Z.leb_le; assumption.
  - intros [Hlo|Hhi].
    + specialize (Hout4 ltac:(lia)).
      destruct (Z.leb_spec edge_04 (Z.pos mx * F * E)); [lia|reflexivity].
    + specialize (Hout6 ltac:(lia)).
      destruct (Z.leb_spec (Z.pos mx * F * E) edge_06); [lia|apply andb_false_r].
Qed.

(** ** Step count: the claim *)

Lemma positive_double (x : float) :
  PrimFloat.ltb 0 x = true ->
  (exists m e, Prim2SF x = S754_finite false m e) \/ Prim2SF x = S754_infinity false.
Proof.
  rewrite ltb_spec. change (Prim2SF 0) with (S754_zero false).
  unfold SFltb, SFcompare.
  destruct (Prim2SF x) as [s|s| |s m e]; try discriminate; destruct s; try discriminate;
    intros _; [now right|left; now exists m, e].
Qed.

(** Two positive doubles, the first below the second: their quotient,
    as the division rounds it, truncates to 0. *)
Lemma quotient_below_one (x y : float) :
  PrimFloat.ltb 0 x = true -> PrimFloat.ltb x y = true ->
  float_to_int (PrimFloat.div x y) = Some 0.
Proof.
  intros Hx Hxy. unfold float_to_int. rewrite div_spec.
  pose proof (Prim2SF_valid x) as Vx. pose proof (Prim2SF_valid y) as Vy.
  rewrite ltb_spec in Hxy. unfold SFltb, SFcompare in Hxy.
  destruct (positive_double x Hx) as [[mx [ex Ex]]|Ex]; rewrite Ex in *;
    [|destruct (Prim2SF y) as [s|s| |s m e]; try destruct s; discriminate].
  destruct (Prim2SF y) as [sy|sy| |sy my ey]; try discriminate.
  - destruct sy; [discriminate|]. reflexivity.
  - destruct sy; [discriminate|].
    cbn [valid_binary] in Vx, Vy.
    assert (Hlt : ex < ey \/ (ex = ey /\ Z.pos mx < Z.pos my)).
    { destruct (Z.compare_spec ex ey) as [->|?|?]; try discriminate; [right|left; lia].
      split; [reflexivity|].
      change (Pos.compare_cont Eq mx my) with (mx ?= my)%positive in Hxy.
      destruct (Pos.compare_spec mx my); try discriminate. lia. }
    pose proof (SFdiv_below_one mx my ex ey Vx Vy Hlt) as Hq.
    unfold SF64div.
    destruct (SFdiv prec emax (S754_finite false mx ex) (S754_finite false my ey))
      as [s|s| |s m e]; try contradiction; [reflexivity|].
    destruct Hq as [He Hm].
    destruct (Z.leb_spec 0 e); [lia|].
    rewrite Z.quot_small by lia. destruct s; reflexivity.
Qed.

Lemma zero_steps_below_time_step (total_time dt : float) :
  sltb (of_int 0) total_time = true -> sltb total_time dt = true ->
  step_count total_time dt = Some 0.
Proof.
  intros Hpos Hlt. unfold step_count.
  assert (Hdt : seqb dt (of_int 0) = false).
  { unfold seqb. cbn [sleb sltb float_Scalar of_int] in *.
    change (float_of_int 0) with 0%float in *.
    rewrite leb_spec. rewrite ltb_spec in Hlt.
    destruct (positive_double total_time Hpos) as [[m [e Ex]]|Ex]; rewrite Ex in Hlt;
      unfold SFltb, SFleb, SFcompare in *; change (Prim2SF 0) with (S754_zero false);
      destruct (Prim2SF dt) as [s|s| |s m' e']; try destruct s; try discriminate;
      reflexivity. }
  rewrite Hdt. cbn [to_int sdiv float_Scalar].
  now apply quotient_below_one.
Qed.

Lemma in_int_range_some (z N : Z) : in_int_range z = Some N -> N = z.
Proof.
  unfold in_int_range. destruct (_ && _); [|discriminate].
  intros E. now injection E.
Qed.

Lemma truncate_opp (q : Q) : truncate (- q) = - truncate q.
Proof. unfold truncate. cbn [Qopp Qnum Qden]. now rewrite Z.quot_opp_l by lia. Qed.

(** [truncate q] is the integer next to [q] on the side of zero. *)
Lemma truncate_bounds (q : Q) :
  ((0 <= q)%Q -> (inject_Z (truncate q) <= q)%Q /\ (q < inject_Z (truncate q + 1))%Q) /\
  ((q <= 0)%Q -> (inject_Z (truncate q - 1) < q)%Q /\ (q <= inject_Z (truncate q))%Q).
Proof.
  destruct q as [n d]. unfold truncate, Qle, Qlt, inject_Z. cbn [Qnum Qden].
  pose proof (Z.quot_rem' n (Z.pos d)) as Hqr.
  split; intros Hs.
  - pose proof (Z.rem_bound_pos n (Z.pos d) ltac:(lia) ltac:(lia)). nia.
  - pose proof (Z.rem_bound_pos_neg n (Z.pos d) ltac:(lia) ltac:(lia)). nia.
Qed.

(** [static_cast<int>] of a double: the truncation of the number it
    holds. *)
Lemma float_to_int_truncates (f : float) (N : Z) :
  float_to_int f = Some N ->
  exists q, float_value f = Some q /\ N = truncate q.
Proof.
  unfold float_to_int, float_value.
  destruct (Prim2SF f) as [s|s| |s m e]; try discriminate.
  - intros E. injection E as <-. exists 0%Q. split; reflexivity.
  - intros E. apply in_int_range_some in E.
    eexists. split; [reflexivity|].
    assert (Hv : truncate (if 0 <=? e then inject_Z (Z.pos m * 2 ^ e)
                           else Z.pos m # Z.to_pos (2 ^ (- e))) =
                 (if 0 <=? e then Z.pos m * 2 ^ e else Z.quot (Z.pos m) (2 ^ (- e)))).
    { destruct (Z.leb_spec 0 e).
      - unfold truncate, inject_Z. cbn [Qnum Qden]. now rewrite Z.quot_1_r.
      - unfold truncate. cbn [Qnum Qden].
        rewrite Z2Pos.id by (apply Z.pow_pos_nonneg; lia). reflexivity. }
    destruct s; [rewrite truncate_opp|]; rewrite Hv; exact E.
Qed.

(** C10, as the code has it.  The step count is the quotient
    [total_time / dt] as the division of doubles rounds it, truncated
    toward zero: it is defined only when [dt] is not zero, and then it is
    the truncation of the number the double quotient holds, which lies
    next to that number on the side of zero.  Whenever
    [0 < total_time < dt], for any doubles, the count is 0, the loop makes
    no solve and the run ends with the initial state alone in its
    history. *)
Theorem step_count_truncates :
  (forall (total_time dt : float) (num_t_steps : Z),
     step_count total_time dt = Some num_t_steps ->
     seqb dt (of_int 0) = false /\
     exists q : Q,
       float_value (PrimFloat.div total_time dt) = Some q /\
       num_t_steps = truncate q /\
       ((0 <= q)%Q ->
          (inject_Z num_t_steps <= q)%Q /\ (q < inject_Z (num_t_steps + 1))%Q) /\
       ((q <= 0)%Q ->
          (inject_Z (num_t_steps - 1) < q)%Q /\ (q <= inject_Z num_t_steps)%Q)) /\
  (forall (p : params float) (num_x : Z),
     2 <= num_x < INT_MAX ->
     sltb (of_int 0) (total_time p) = true ->
     sltb (total_time p) (dt p) = true ->
     step_count (total_time p) (dt p) = Some 0 /\
     solvers (fst (simulate p num_x)) = [] /\
     pushed (fst (simulate p num_x)) = [initial_conditions num_x (spacing num_x)] /\
     snd (simulate p num_x) = inl [initial_conditions num_x (spacing num_x)]).
Proof.
  split.
  - intros total_time dt N E. unfold step_count in E.
    destruct (seqb dt (of_int 0)) eqn:Hz; [discriminate|].
    split; [reflexivity|].
    destruct (float_to_int_truncates _ _ E) as [q [Hq HN]].
    exists q. split; [exact Hq|]. split; [exact HN|].
    subst N. apply truncate_bounds.
  - intros p num_x Hn Hpos Hlt.
    pose proof (zero_steps_below_time_step _ _ Hpos Hlt) as Hs.
    split; [exact Hs|].
    rewrite (simulate_closed p num_x 0 Hn Hs). cbn [fst snd].
    destruct (setup_trace_split p num_x 0)
      as [pre [post [E [Sp [_ [Sq [_ [Pp [Pq _]]]]]]]]].
    rewrite E. unfold run_loop_trace, run_history. cbn [Z.to_nat loop_trace states].
    rewrite !app_nil_r, !solvers_app, !pushed_app, Sp, Sq, Pp, Pq.
    repeat split.
Qed.

Lemma step_count_truncates_witness :
  2 <= 3 < INT_MAX /\
  sltb (of_int 0) (total_time half_step_binary64) = true /\
  sltb (total_time half_step_binary64) (dt half_step_binary64) = true /\
  step_count (total_time half_step_binary64) (dt half_step_binary64) = Some 0 /\
  snd (simulate half_step_binary64 3) = inl [initial_conditions 3 (spacing 3)].
Proof.
  assert (Hn : 2 <= 3 < INT_MAX) by (unfold INT_MAX; lia).
  assert (H1 : sltb (of_int 0) (total_time half_step_binary64) = true) by reflexivity.
  assert (H2 : sltb (total_time half_step_binary64) (dt half_step_binary64) = true)
    by reflexivity.
  split; [exact Hn|]. split; [exact H1|]. split; [exact H2|].
  destruct (proj2 step_count_truncates half_step_binary64 3 Hn H1 H2) as [E [_ [_ X]]].
  split; assumption.
Defined.

(** C10, as the specification has it, fails when the quotient is read
    as the exact one: [--time 0.29] with the default time step 0.01 makes
    28 steps where [0.29 / 0.01] is 29; and the defaults make 100 steps
    where the exact quotient of the two doubles ([0.01] is stored as a
    double just above one hundredth) is below 100 and truncates to 99. *)
Lemma step_count_not_exact_quotient :
  step_count (K := float) (lit 29 100) (lit 1 100) = Some 28 /\
  truncate ((29 # 100) / (1 # 100)) = 29 /\
  step_count (K := float) (total_time defaults) (dt defaults) = Some 100 /\
  (exists t d : Q,
     float_value (total_time defaults) = Some t /\
     float_value (dt defaults) = Some d /\
     truncate (t / d) = 99).
Proof.
  split; [vm_compute; reflexivity|]. split; [vm_compute; reflexivity|].
  split; [vm_compute; reflexivity|].
  eexists. eexists. split; [vm_compute; reflexivity|].
  split; [vm_compute; reflexivity|]. vm_compute. reflexivity.
Qed.

(** ** The hot band: the claim *)

Lemma initial_conditions_hot (num_x i : Z) :
  0 <= i < num_x ->
  list_get (initial_conditions (K := float) num_x (spacing num_x)) i =
  Some (if starts_hot num_x i then of_int 100 else of_int 0).
Proof. intros Hi. now rewrite initial_conditions_get by assumption. Qed.

(** The exact position of a cell against the edges of the band, in
    integers. *)
Lemma exact_position_band (num_x i : Z) :
  0 < num_x ->
  ((4 # 10 < exact_position num_x i)%Q <-> 2 * (num_x + 1) < 5 * (i + 1)) /\
  ((exact_position num_x i < 6 # 10)%Q <-> 5 * (i + 1) < 3 * (num_x + 1)) /\
  ((exact_position num_x i < 4 # 10)%Q <-> 5 * (i + 1) < 2 * (num_x + 1)) /\
  ((6 # 10 < exact_position num_x i)%Q <-> 3 * (num_x + 1) < 5 * (i + 1)).
Proof.
  intros Hn. unfold exact_position, Qlt. cbn [Qnum Qden].
  rewrite Z2Pos.id by lia. repeat split; lia.
Qed.

(** C3, as the code has it.  For every positive cell count below
    [INT_MAX] the spacing is the quotient [L / (num_x + 1)] with [L = 1],
    cell [i] sits at the product [(i + 1) * dx], both as the arithmetic
    of the program computes them, and the initial vector has one entry
    per cell: 100 where [0.4 <= x && x <= 0.6] holds of the computed
    position [x], 0 elsewhere.  In binary64, for every such cell count, a
    cell whose exact position [(i + 1) / (num_x + 1)] is inside the open
    interval (0.4, 0.6) starts at 100 and a cell whose exact position is
    below 0.4 or above 0.6 starts at 0: the two roundings of the
    computed position never carry it across an edge.  A cell exactly on
    an edge of the band is not decided by its exact position.  With 5
    cells the vector has 100 at index 2 (position 0.5 exactly) and 0
    elsewhere. *)
Theorem initial_state_hot_band :
  (forall (K : Type) (H : Scalar K) (num_x : Z),
     0 < num_x < INT_MAX ->
     spacing num_x = sdiv (of_int 1) (of_int (num_x + 1)) /\
     List.length (initial_conditions num_x (spacing num_x)) = Z.to_nat num_x /\
     forall i, 0 <= i < num_x ->
       let x := smul (of_int (i + 1)) (spacing num_x) in
       position (spacing num_x) i = x /\
       list_get (initial_conditions num_x (spacing num_x)) i =
         Some (if sleb (lit 4 10) x && sleb x (lit 6 10) then of_int 100 else of_int 0)) /\
  (forall num_x i : Z,
     0 < num_x < INT_MAX -> 0 <= i < num_x ->
     ((4 # 10 < exact_position num_x i)%Q /\ (exact_position num_x i < 6 # 10)%Q ->
        list_get (initial_conditions (K := float) num_x (spacing num_x)) i =
          Some (of_int 100)) /\
     ((exact_position num_x i < 4 # 10)%Q \/ (6 # 10 < exact_position num_x i)%Q ->
        list_get (initial_conditions (K := float) num_x (spacing num_x)) i =
          Some (of_int 0))) /\
  (position (K := float) (spacing 5) 2 = lit 5 10 /\
   initial_conditions (K := float) 5 (spacing 5) =
     [of_int 0; of_int 0; of_int 100; of_int 0; of_int 0]).
Proof.
  split; [|split].
  - intros K H num_x Hn. split; [reflexivity|].
    split; [apply initial_conditions_length|].
    intros i Hi x. split; [reflexivity|].
    now rewrite initial_conditions_get by assumption.
  - intros num_x i Hn Hi.
    destruct (starts_hot_decided num_x i Hn Hi) as [Hin Hout].
    destruct (exact_position_band num_x i ltac:(lia)) as [E1 [E2 [E3 E4]]].
    rewrite initial_conditions_hot by assumption.
    split.
    + intros [H1 H2]. apply E1 in H1. apply E2 in H2.
      now rewrite Hin by lia.
    + intros Hside.
      rewrite Hout; [reflexivity|].
      destruct Hside as [H1|H2]; [left; now apply E3|right; now apply E4].
  - split; vm_compute; reflexivity.
Qed.

Lemma initial_state_hot_band_witness :
  0 < 7 < INT_MAX /\ 0 <= 3 < 7 /\
  ((4 # 10 < exact_position 7 3)%Q /\ (exact_position 7 3 < 6 # 10)%Q) /\
  list_get (initial_conditions (K := float) 7 (spacing 7)) 3 = Some (of_int 100).
Proof.
  assert (Hn : 0 < 7 < INT_MAX) by (split; reflexivity).
  assert (Hi : 0 <= 3 < 7) by lia.
  assert (Hx : (4 # 10 < exact_position 7 3)%Q /\ (exact_position 7 3 < 6 # 10)%Q)
    by (split; reflexivity).
  split; [exact Hn|]. split; [exact Hi|]. split; [exact Hx|].
  exact (proj1 (proj1 (proj2 initial_state_hot_band) 7 3 Hn Hi) Hx).
Defined.

(** C3, as the specification has it, fails on an edge of the band: with
    4 cells the cell of index 2 is at [3 / 5 = 0.6], inside the closed
    interval, and starts at 0; its computed position, the double
    [3 * 0.2], is above the double [0.6]. *)
Lemma edge_cell_starts_cold :
  (4 # 10 <= exact_position 4 2)%Q /\ (exact_position 4 2 <= 6 # 10)%Q /\
  list_get (initial_conditions (K := float) 4 (spacing 4)) 2 = Some (of_int 0) /\
  initial_conditions (K := float) 4 (spacing 4) =
    [of_int 0; of_int 100; of_int 0; of_int 0] /\
  sltb (lit 6 10) (position (K := float) (spacing 4) 2) = true.
Proof.
  split; [vm_compute; discriminate|]. split; [vm_compute; discriminate|].
  repeat split; vm_compute; reflexivity.
Qed.

(** ** The zero-diffusivity run: the claim *)

Lemma averaging_cases (num_x i j : Z) :
  averaging (K := float) num_x i j = lit 4 6 \/
  averaging (K := float) num_x i j = lit 2 6 \/
  averaging (K := float) num_x i j = lit 1 6 \/
  averaging (K := float) num_x i j = of_int 0.
Proof.
  unfold averaging.
  repeat match goal with |- context [if ?c then _ else _] => destruct c end; tauto.
Qed.

Lemma second_difference_cases (num_x i j : Z) :
  In (second_difference (K := float) num_x i j) (map of_int [1; -2; 2; 0]).
Proof.
  unfold second_difference.
  repeat match goal with |- context [if ?c then _ else _] => destruct c end;
    cbn [map In]; tauto.
Qed.

Lemma diffusion_is_finite (num_x i j : Z) :
  diffusion_finite num_x = true ->
  finite_double (diffusion (K := float) num_x (spacing num_x) i j) = true.
Proof.
  unfold diffusion_finite. intros E. rewrite forallb_forall in E.
  unfold diffusion. cbn [sdiv smul float_Scalar].
  pose proof (second_difference_cases num_x i j) as Hin.
  apply in_map_iff in Hin. destruct Hin as [c [<- Hc]].
  apply (E c Hc).
Qed.

(** With a zero factor both system operators have the coefficients of
    the averaging operator. *)
Lemma zero_factor_operators (f : float) (s : bool) (num_x : Z) :
  Prim2SF f = S754_zero s ->
  diffusion_finite num_x = true ->
  forall i j,
    left_hand num_x (spacing num_x) f i j = averaging num_x i j /\
    right_hand num_x (spacing num_x) f i j = averaging num_x i j.
Proof.
  intros Hf Hfin i j. unfold left_hand, right_hand.
  cbn [ssub sadd smul float_Scalar].
  apply (zero_product_absorbed f _ _ s Hf (diffusion_is_finite num_x i j Hfin)).
  - destruct (averaging_cases num_x i j) as [->|[->|[->| ->]]]; vm_compute; reflexivity.
  - destruct (averaging_cases num_x i j) as [->|[->|[->| ->]]]; vm_compute; discriminate.
Qed.

Lemma run_history_get {K : Type} `{Scalar K} (p : params K) (num_x num_t_steps t : Z) :
  0 <= t <= num_t_steps ->
  list_get (run_history p num_x num_t_steps) t = Some (run_state p num_x (Z.to_nat t)).
Proof.
  intros Ht. rewrite run_history_as_map. unfold list_get.
  destruct (Z.ltb_spec t 0); [lia|].
  rewrite nth_error_map_seq by lia. reflexivity.
Qed.

Lemma run_state_next {K : Type} `{Scalar K} (p : params K) (num_x : Z) (t : nat) :
  run_state p num_x (S t) =
  step (run_RHS p num_x) (factorize (run_LHS p num_x)) (run_state p num_x t).
Proof. unfold run_state. apply state_after_S. Qed.

Lemma history_of_some (p : params float) (num_x : Z) (T_history : list (vec float)) :
  history_of p num_x = Some T_history -> snd (simulate p num_x) = inl T_history.
Proof.
  unfold history_of. destruct (snd (simulate p num_x)); [|discriminate].
  intros E. now injection E as ->.
Qed.

Lemma state_kept_upto :
  all_between (state_kept (lit 1 1000000000) zero_alpha_long_binary64) 2 24 = true.
Proof. vm_compute. reflexivity. Qed.

(** C4, as the code has it.  With zero diffusivity and a time step that
    is a number, for every cell count from 2 below [INT_MAX], both system
    operators are the averaging operator, coefficient by coefficient, so
    that every step of a run solves [A x = A T] for the state [T] before
    it, by the factorization of [A] in the arithmetic of doubles.  The
    solve returns [T] up to rounding: in binary64, in the runs of a
    hundred steps with 2 to 24 cells, every entry of every state of the
    history is within [1e-9] of the entry of the initial state; in exact
    arithmetic every solve returns the state it was given and every
    entry of the history is the initial state. *)
Theorem zero_diffusivity_operators :
  (forall (p : params float) (num_x : Z),
     2 <= num_x < INT_MAX ->
     alpha p = of_int 0 ->
     finite_double (dt p) = true ->
     let dx := spacing num_x in
     let factor := cn_factor (alpha p) (dt p) in
     exists A B : matrix float,
       assemble num_x dx = Done (A, B) /\
       A = tab (Z.to_nat num_x) (averaging num_x) /\
       LHS_of A B factor = A /\
       RHS_of A B factor = A /\
       forall num_t_steps,
         0 <= num_t_steps ->
         step_count (total_time p) (dt p) = Some num_t_steps ->
         exists T_history,
           snd (simulate p num_x) = inl T_history /\
           list_get T_history 0 = Some (initial_conditions num_x dx) /\
           forall t, 0 <= t < num_t_steps ->
             exists T_current,
               list_get T_history t = Some T_current /\
               list_get T_history (t + 1) =
                 Some (solve (factorize A) (mat_vec A T_current))) /\
  (forall num_x, 2 <= num_x <= 24 ->
     exists T_history,
       snd (simulate zero_alpha_long_binary64 num_x) = inl T_history /\
       List.length T_history = 101%nat /\
       forall T, In T T_history ->
         entries_within (lit 1 1000000000)
           (initial_conditions num_x (spacing num_x)) T = true) /\
  (forall (p : params Qc) (num_x : Z),
     2 <= num_x < INT_MAX ->
     alpha p = of_int 0 ->
     let dx := spacing num_x in
     let factor := cn_factor (alpha p) (dt p) in
     exists A B : matrix Qc,
       assemble num_x dx = Done (A, B) /\
       LHS_of A B factor = A /\
       RHS_of A B factor = A /\
       (forall T : vec Qc, Z.of_nat (List.length T) = num_x ->
          solve (factorize (LHS_of A B factor)) (mat_vec (RHS_of A B factor) T) = T) /\
       (forall num_t_steps, step_count (total_time p) (dt p) = Some num_t_steps ->
          exists T_history,
            snd (simulate p num_x) = inl T_history /\
            pushed (fst (simulate p num_x)) = T_history /\
            forall T, In T T_history -> T = initial_conditions num_x dx)).
Proof.
  split; [|split].
  - intros p num_x Hn Ha Hd dx factor.
    assert (Hfin : diffusion_finite num_x = true)
      by (apply diffusion_finite_always; lia).
    exists (tab (Z.to_nat num_x) (averaging num_x)),
           (tab (Z.to_nat num_x) (diffusion num_x dx)).
    rewrite LHS_closed, RHS_closed.
    destruct (zero_factor (dt p) Hd) as [s Hs].
    assert (Hf : Prim2SF factor = S754_zero s) by (unfold factor; now rewrite Ha).
    assert (EL : tab (Z.to_nat num_x) (left_hand num_x dx factor) =
                 tab (Z.to_nat num_x) (averaging num_x)).
    { apply tab_ext. intros i j _ _.
      apply (zero_factor_operators factor s num_x Hf Hfin). }
    assert (ER : tab (Z.to_nat num_x) (right_hand num_x dx factor) =
                 tab (Z.to_nat num_x) (averaging num_x)).
    { apply tab_ext. intros i j _ _.
      apply (zero_factor_operators factor s num_x Hf Hfin). }
    split; [apply assemble_closed; lia|]. split; [reflexivity|].
    split; [exact EL|]. split; [exact ER|].
    intros N HN Hsteps. exists (run_history p num_x N).
    rewrite (simulate_closed _ _ _ Hn Hsteps). cbn [snd].
    split; [reflexivity|]. split; [reflexivity|].
    intros t Ht. exists (run_state p num_x (Z.to_nat t)).
    split; [apply run_history_get; lia|].
    rewrite run_history_get by lia.
    replace (Z.to_nat (t + 1)) with (S (Z.to_nat t)) by lia.
    rewrite run_state_next. unfold step, run_LHS, run_RHS.
    fold dx factor. now rewrite EL, ER.
  - intros num_x Hn.
    pose proof (all_between_spec _ _ _ state_kept_upto num_x Hn) as E.
    unfold state_kept in E.
    destruct (history_of zero_alpha_long_binary64 num_x) as [h|] eqn:Eh; [|discriminate].
    exists h. split; [now apply history_of_some|].
    split.
    + apply history_of_some in Eh.
      assert (Hs : step_count (total_time zero_alpha_long_binary64)
                     (dt zero_alpha_long_binary64) = Some 100)
        by (vm_compute; reflexivity).
      rewrite (simulate_closed _ num_x 100 ltac:(unfold INT_MAX; lia) Hs) in Eh.
      cbn [snd] in Eh. injection Eh as <-.
      rewrite run_history_as_map, length_map, length_seq. reflexivity.
    + intros T HT. rewrite forallb_forall in E. now apply E.
  - exact zero_diffusivity_identity_exact.
Qed.

Lemma zero_diffusivity_operators_witness :
  2 <= 3 < INT_MAX /\
  alpha zero_alpha_binary64 = of_int 0 /\
  finite_double (dt zero_alpha_binary64) = true /\
  exists A B : matrix float,
    assemble 3 (spacing 3) = Done (A, B) /\
    LHS_of A B (cn_factor (alpha zero_alpha_binary64) (dt zero_alpha_binary64)) = A /\
    RHS_of A B (cn_factor (alpha zero_alpha_binary64) (dt zero_alpha_binary64)) = A.
Proof.
  assert (Hn : 2 <= 3 < INT_MAX) by (unfold INT_MAX; lia).
  assert (Hd : finite_double (dt zero_alpha_binary64) = true) by reflexivity.
  split; [exact Hn|]. split; [reflexivity|]. split; [exact Hd|].
  destruct (proj1 zero_diffusivity_operators zero_alpha_binary64 3 Hn eq_refl Hd)
    as [A [B [E [_ [EL [ER _]]]]]].
  exists A, B. repeat split; assumption.
Defined.

(** C4, as the specification has it, fails: in the run [--alpha 0
    --time 0.03] with 3 cells the first solve turns the initial state
    [0, 100, 0] into a state whose last entry is negative (about
    [-1.2e-14]), so that the second entry of the history is not the
    initial state.  And not for any time step are the operators the
    averaging operator: with [--alpha 0 --dt inf] the factor
    [0 * inf / 2] is a NaN and so is the first coefficient of the
    left-hand operator. *)
Lemma zero_diffusivity_state_drifts :
  (alpha zero_alpha_binary64 = of_int 0 /\
   exists (T_0 T_1 T_2 T_3 : vec float) (x : float),
     snd (simulate zero_alpha_binary64 3) = inl [T_0; T_1; T_2; T_3] /\
     T_0 = initial_conditions 3 (spacing 3) /\
     list_get T_0 2 = Some (of_int 0) /\
     list_get T_1 2 = Some x /\
     sltb x (of_int 0) = true /\
     T_1 <> T_0) /\
  (alpha zero_alpha_infinite_step = of_int 0 /\
   exists A B : matrix float,
     assemble 3 (spacing 3) = Done (A, B) /\
     LHS_of A B (cn_factor (alpha zero_alpha_infinite_step)
                           (dt zero_alpha_infinite_step)) <> A).
Proof.
  split.
  2:{ split; [reflexivity|].
      do 2 eexists. split; [vm_compute; reflexivity|].
      intros E.
      apply (f_equal (fun M : matrix float =>
                        match M with
                        | (x :: _) :: _ => PrimFloat.is_nan x
                        | _ => false
                        end)) in E.
      vm_compute in E. discriminate E. }
  split; [reflexivity|].
  do 5 eexists.
  split; [vm_compute; reflexivity|]. split; [vm_compute; reflexivity|].
  split; [vm_compute; reflexivity|]. split; [vm_compute; reflexivity|].
  split; [vm_compute; reflexivity|].
  intros E.
  apply (f_equal (fun T => match list_get T 2 with
                           | Some y => sltb y (of_int 0)
                           | None => false
                           end)) in E.
  vm_compute in E. discriminate E.
Qed.

(** ** Conservation: the claim *)






(** ** The stability warning in binary64 *)

Lemma warning_decided_upto :
  all_between (fun a => all_between (fun d => all_between (warning_decided a d) 1 100) 1 20)
    1 20 = true.
Proof. vm_compute. reflexivity. Qed.

Lemma default_warning_decided_upto : all_between default_warning_decided 1 1000 = true.
Proof. vm_compute. reflexivity. Qed.

(** X9. In binary64, for a diffusivity and a time step among the
    hundredths 0.01 to 0.20 and 1 to 100 cells, the stability warning is
    printed exactly when [alpha * dt * (num_x + 1)^2] exceeds one half,
    unless that product is one half exactly; with the default diffusivity
    and time step, for 1 to 1000 cells, exactly from 70 cells on. *)
Theorem courant_warning_binary64 :
  (forall a d num_x : Z,
     1 <= a <= 20 -> 1 <= d <= 20 -> 1 <= num_x <= 100 ->
     2 * a * d * (num_x + 1) * (num_x + 1) <> 10000 ->
     courant_warns (K := float) (courant (lit a 100) (lit d 100) (spacing num_x)) =
       (10000 <? 2 * a * d * (num_x + 1) * (num_x + 1))) /\
  (forall num_x : Z,
     1 <= num_x <= 1000 ->
     courant_warns (K := float) (courant (alpha defaults) (dt defaults) (spacing num_x)) =
       (70 <=? num_x)).
Proof.
  split.
  - intros a d num_x Ha Hd Hn Hne.
    pose proof (all_between_spec _ _ _ warning_decided_upto a Ha) as H1. cbv beta in H1.
    pose proof (all_between_spec _ _ _ H1 d Hd) as H2. cbv beta in H2.
    pose proof (all_between_spec _ _ _ H2 num_x Hn) as H3.
    unfold warning_decided in H3. apply orb_prop in H3.
    destruct H3 as [E|E]; [apply Z.eqb_eq in E; contradiction|].
    now apply eqb_prop in E.
  - intros num_x Hn.
    pose proof (all_between_spec _ _ _ default_warning_decided_upto num_x Hn) as E.
    now apply eqb_prop in E.
Qed.

Lemma courant_warning_binary64_witness :
  1 <= 69 <= 1000 /\ 1 <= 70 <= 1000 /\
  courant_warns (K := float) (courant (alpha defaults) (dt defaults) (spacing 69)) = false /\
  courant_warns (K := float) (courant (alpha defaults) (dt defaults) (spacing 70)) = true.
Proof.
  assert (H69 : 1 <= 69 <= 1000) by lia. assert (H70 : 1 <= 70 <= 1000) by lia.
  split; [exact H69|]. split; [exact H70|].
  split; [exact (proj2 courant_warning_binary64 69 H69)
         |exact (proj2 courant_warning_binary64 70 H70)].
Defined.
